(** * Go-to-definition for the toy Kotlin language server

    A shallow embedding of [server/src/go-to-definition.ts] and of the
    definition-related part of [server/src/server.ts]: the range mapper
    [getRange], the symbol-table visitor, the scope lookup [getScope], the
    declaration lookup [findDeclaration], the import processing and the
    per-document parse cache.

    JavaScript objects that are mutated in place (symbols, the visitor, the
    documents) live in explicit stores; exceptions are an outcome of every
    effectful operation and leave the store as it was when they were raised.

    The file has the model first (parse trees, the symbol table, the visitor,
    the lookup, the server), then sample programs, then the vocabulary of the
    statements, then the statements with their proofs. The main results: the
    visitor refines a function from parse trees to declared symbols
    ([visit_builds]); on the table it builds, the definition request is
    lexical resolution through the enclosing routines ([definition_is_lexical]);
    whatever the visitor records carries the URI of the document it is bound
    to ([registersIn_visit]); and its table never holds a duplicate name
    ([refusesDuplicates_visit]).

    The part "Further properties of the code" covers the rest of the two
    files: the path helpers [computeBaseUri] and [ensurePath], the
    constructor, what a walk leaves untouched and when it completes, what
    [processImport] does with a failure, what [ensureParsed] builds and
    caches, and what the definition and completion handlers can answer. The
    last part follows three behaviours from end to end, on the results of the
    parts before it: the rebinding of the visitor for an import, the parse
    after a content change, and the error of a node without a stop token. *)

From Stdlib Require Import ZArith Ascii String List Bool Lia.
From stdpp Require Import base option list.

#[local] Set Warnings "-register-all".

Import ListNotations.
Local Open Scope Z_scope.
Local Open Scope string_scope.

(** ** JavaScript outcomes *)

(** The exceptions the modelled code can raise. [TypeError] is what the
    engine raises on a property access on [undefined]; [DuplicateSymbolError]
    is antlr4-c3's; [Error] covers the remaining ones (antlr4ts' "node does
    not exist", file-system errors). *)
Inductive JsError : Type :=
| TypeError (msg : string)
| DuplicateSymbolError (msg : string)
| Error (msg : string).

Inductive Outcome (A : Type) : Type :=
| Ok (a : A)
| Throw (e : JsError).
Arguments Ok {A} a.
Arguments Throw {A} e.

(** ** Tokens and parse trees (antlr4ts) *)

Module Token.
(** [line] is 1-based, [charPositionInLine] 0-based; [text] is the token's
    text, one character per UTF-16 code unit. *)
Record t : Type := mk { line : Z; charPositionInLine : Z; text : string }.
End Token.

(** Object identity of a parse-tree node: [==] on nodes compares these. *)
Definition NodeId := nat.
Bind Scope nat_scope with NodeId.

Inductive RuleKind : Type :=
| KotlinFile | Preamble | ImportList | ImportHeader
| VariableDeclaration | FunctionDeclaration
| SimpleIdentifier | Identifier
| OtherRule.

Definition RuleKind_eqb (a b : RuleKind) : bool :=
  match a, b with
  | KotlinFile, KotlinFile | Preamble, Preamble | ImportList, ImportList
  | ImportHeader, ImportHeader | VariableDeclaration, VariableDeclaration
  | FunctionDeclaration, FunctionDeclaration
  | SimpleIdentifier, SimpleIdentifier | Identifier, Identifier
  | OtherRule, OtherRule => true
  | _, _ => false
  end.

(** A parse tree is made of [ParserRuleContext]s (with a start token, a stop
    token that is [undefined] while the rule is incomplete, and children) and
    of [TerminalNode]s (one token, [symbol]). *)
Inductive ParseTree : Type :=
| ParserRuleContext (id : NodeId) (kind : RuleKind)
                    (start : Token.t) (stop : option Token.t)
                    (children : list ParseTree)
| TerminalNode (id : NodeId) (symbol : Token.t).

Definition nodeId (t : ParseTree) : NodeId :=
  match t with
  | ParserRuleContext id _ _ _ _ => id
  | TerminalNode id _ => id
  end.

(** [tree.text]: a terminal's token text, a rule context's children's texts
    concatenated. *)
Fixpoint nodeText (t : ParseTree) : string :=
  match t with
  | ParserRuleContext _ _ _ _ children =>
      (fix texts (l : list ParseTree) : string :=
         match l with
         | [] => ""
         | c :: l' => nodeText c ++ texts l'
         end) children
  | TerminalNode _ symbol => Token.text symbol
  end.

(** ** Ranges and location links (vscode-languageserver) *)

Module Position.
Record t : Type := mk { line : Z; character : Z }.
End Position.

Module Range.
Record t : Type := mk { start : Position.t; end_ : Position.t }.
End Range.

Definition DocumentUri := string.

Module LocationLink.
Record t : Type := mk {
  targetUri : DocumentUri;
  targetRange : Range.t;
  targetSelectionRange : Range.t;
  originSelectionRange : option Range.t
}.

(** [LocationLink.create(targetUri, targetRange, targetSelectionRange)] *)
Definition create (uri : DocumentUri) (range selection : Range.t) : t :=
  mk uri range selection None.
End LocationLink.

(** ** The range mapper *)

(** [getRange]: [start] and [stop] are a rule context's tokens or, for a
    terminal, its one token; reading [stop.charPositionInLine] on an
    [undefined] stop raises a [TypeError]. *)
Definition getRange (parseTree : ParseTree) : Outcome Range.t :=
  let '(start, stop) :=
    match parseTree with
    | ParserRuleContext _ _ start stop _ => (start, stop)
    | TerminalNode _ symbol => (symbol, Some symbol)
    end in
  match stop with
  | None =>
      Throw (TypeError "Cannot read properties of undefined (reading 'charPositionInLine')")
  | Some stop =>
      let endCharacter :=
        Token.charPositionInLine stop + Z.of_nat (String.length (Token.text stop)) in
      Ok (Range.mk
            (Position.mk (Token.line start - 1) (Token.charPositionInLine start))
            (Position.mk (Token.line stop - 1) endCharacter))
  end.

(** The stop token of a node, as [getRange] reads it. *)
Definition stopToken (parseTree : ParseTree) : option Token.t :=
  match parseTree with
  | ParserRuleContext _ _ _ stop _ => stop
  | TerminalNode _ symbol => Some symbol
  end.

Definition startToken (parseTree : ParseTree) : Token.t :=
  match parseTree with
  | ParserRuleContext _ _ start _ _ => start
  | TerminalNode _ symbol => symbol
  end.

(** ** Symbols and the symbol table (antlr4-c3)

    The classes and methods of this section belong to the antlr4-c3 package,
    a dependency whose code is not among the sources: they are modelled after
    the behaviour of the library the sources are written against ([Symbol],
    [ScopedSymbol] with its array of children, [SymbolTable] with its options,
    [addNewSymbolOfType], [getSymbolsOfType], [symbolWithContext]). *)

Inductive SymbolClass : Type :=
| ClsSymbol | ClsVariableSymbol | ClsScopedSymbol | ClsRoutineSymbol | ClsSymbolTable.

(** [x instanceof ScopedSymbol]: [RoutineSymbol] and [SymbolTable] extend
    [ScopedSymbol]. *)
Definition instanceofScopedSymbol (c : SymbolClass) : bool :=
  match c with
  | ClsScopedSymbol | ClsRoutineSymbol | ClsSymbolTable => true
  | ClsSymbol | ClsVariableSymbol => false
  end.

(** A symbol object with the symbols it owns: [children] is the array a
    [ScopedSymbol] pushes every added symbol to, so it is in the order of the
    additions, and it is what [getSymbolsOfType(Symbol)] returns; it is empty
    for a symbol that is not scoped. [context] is the parse-tree node the
    symbol is anchored at; [location] is the own property
    [registerDeclaration] adds, absent until then. *)
Inductive Symbol : Type := mkSymbol {
  cls : SymbolClass;
  name : string;
  context : option NodeId;
  location : option LocationLink.t;
  children : list Symbol
}.

(** A reference to a symbol of a table is its position in it: the child
    indices that lead to it, innermost first, [[]] being the table itself.
    Symbols are only ever appended to a scope and never removed, so positions
    are stable; [parent] is the rest of the position. *)
Definition SymRef := list nat.
Bind Scope list_scope with SymRef.

Definition parent (ref : SymRef) : option SymRef :=
  match ref with
  | [] => None
  | _ :: p => Some p
  end.

Fixpoint deref (table : Symbol) (ref : SymRef) : option Symbol :=
  match ref with
  | [] => Some table
  | i :: p =>
      match deref table p with
      | Some s => children s !! i
      | None => None
      end
  end.

(** In-place update of the symbol at [ref]. *)
Fixpoint modify (ref : SymRef) (f : Symbol -> Symbol) (table : Symbol) : Symbol :=
  match ref with
  | [] => f table
  | i :: p =>
      modify p (fun s => mkSymbol (cls s) (name s) (context s) (location s)
                                  (alter f i (children s))) table
  end.

Definition setLocation (l : LocationLink.t) (s : Symbol) : Symbol :=
  mkSymbol (cls s) (name s) (context s) (Some l) (children s).

Definition setContext (c : NodeId) (s : Symbol) : Symbol :=
  mkSymbol (cls s) (name s) (Some c) (location s) (children s).

Definition pushChild (c : Symbol) (s : Symbol) : Symbol :=
  mkSymbol (cls s) (name s) (context s) (location s) (children s ++ [c]).

Module SymbolTableOptions.
(** [allowDuplicateSymbols?: boolean]; [{}] leaves it undefined. *)
Record t : Type := mk { allowDuplicateSymbols : option bool }.
Definition empty : t := mk None.
End SymbolTableOptions.

(** A [SymbolTable] object: its options and the table symbol itself, which
    owns every symbol added to it. *)
Module SymbolTable.
Record t : Type := mk { options : SymbolTableOptions.t; self : Symbol }.

(** [new SymbolTable(name, options)] *)
Definition new (name : string) (options : SymbolTableOptions.t) : t :=
  mk options (mkSymbol ClsSymbolTable name None None []).
End SymbolTable.

(** [new t(name)] for the classes the visitor instantiates. *)
Definition newSymbol (t : SymbolClass) (name : string) : Symbol :=
  mkSymbol t name None None [].

Definition truthy (b : option bool) : bool :=
  match b with Some true => true | _ => false end.

(** The duplicate test of [ScopedSymbol.addSymbol],
    [symbol.name.length > 0 && child.name == symbol.name] for some child: a
    child has the name of the new symbol, which is not anonymous. (The new
    symbol is a fresh object, so it is no child yet.) *)
Definition duplicateOf (symbol : Symbol) (children : list Symbol) : bool :=
  existsb (fun child => negb (String.eqb (name symbol) "")
                        && String.eqb (name child) (name symbol)) children.

(** [parent.addSymbol(symbol)] on the scope at [target] for a fresh [symbol]:
    unless the owning table allows duplicate symbols, a child with the same
    non-empty name makes it throw; otherwise the symbol is pushed at the end
    of the children. Every symbol here is owned by the one table [table]. The
    result is the reference of the added symbol. *)
Definition addSymbol (table : SymbolTable.t) (target : SymRef) (symbol : Symbol)
  : Outcome SymRef * SymbolTable.t :=
  match deref (SymbolTable.self table) target with
  | None => (Throw (TypeError "Cannot read properties of undefined (reading 'addSymbol')"), table)
  | Some scope =>
      if negb (instanceofScopedSymbol (cls scope)) then
        (Throw (TypeError "parent.addSymbol is not a function"), table)
      else if negb (truthy (SymbolTableOptions.allowDuplicateSymbols (SymbolTable.options table)))
              && duplicateOf symbol (children scope) then
        (Throw (DuplicateSymbolError ("Attempt to add duplicate symbol '" ++ name symbol ++ "'")),
         table)
      else
        (Ok (length (children scope) :: target),
         SymbolTable.mk (SymbolTable.options table)
                        (modify target (pushChild symbol) (SymbolTable.self table)))
  end.

(** [symbolTable.addNewSymbolOfType(t, parent, name)]: the new symbol goes
    into [parent], or into the table itself when [parent] is undefined (or is
    the table). *)
Definition addNewSymbolOfType (table : SymbolTable.t) (t : SymbolClass)
           (parent : option SymRef) (name : string)
  : Outcome SymRef * SymbolTable.t :=
  let result := newSymbol t name in
  match parent with
  | None => addSymbol table [] result
  | Some p => addSymbol table p result
  end.

(** [symbolTable.symbolWithContext(context)]: depth-first, pre-order search
    below the table for a symbol whose [context] is the given node. *)
Fixpoint findRecursive (context0 : NodeId) (ref : SymRef) (symbol : Symbol)
  : option SymRef :=
  if bool_decide (context symbol = Some context0) then Some ref
  else if instanceofScopedSymbol (cls symbol) then
    (fix each (i : nat) (l : list Symbol) : option SymRef :=
       match l with
       | [] => None
       | child :: l' =>
           match findRecursive context0 (i :: ref) child with
           | Some r => Some r
           | None => each (S i) l'
           end
       end) 0%nat (children symbol)
  else None.

Definition eachChild (context0 : NodeId) (ref : SymRef)
  : nat -> list Symbol -> option SymRef :=
  fix each (i : nat) (l : list Symbol) : option SymRef :=
    match l with
    | [] => None
    | child :: l' =>
        match findRecursive context0 (i :: ref) child with
        | Some r => Some r
        | None => each (S i) l'
        end
    end.

Definition symbolWithContext (table : SymbolTable.t) (context0 : ParseTree)
  : option SymRef :=
  eachChild (nodeId context0) [] 0%nat (children (SymbolTable.self table)).

(** ** Effects: a state and exception monad

    [M S A] is a computation over a mutable state [S] that returns an [A] or
    throws; a throw keeps the mutations made before it. *)

Definition M (S A : Type) : Type := S -> Outcome A * S.

Definition ret {S A} (a : A) : M S A := fun s => (Ok a, s).

Definition bind {S A B} (m : M S A) (k : A -> M S B) : M S B :=
  fun s =>
    match m s with
    | (Ok a, s') => k a s'
    | (Throw e, s') => (Throw e, s')
    end.

Definition throw {S A} (e : JsError) : M S A := fun s => (Throw e, s).

Definition gets {S A} (f : S -> A) : M S A := fun s => (Ok (f s), s).

Definition update {S} (f : S -> S) : M S unit := fun s => (Ok tt, f s).

Definition lift {S A} (o : Outcome A) : M S A := fun s => (o, s).

(** [try { body } finally { cleanup }] for a cleanup that does not throw. *)
Definition tryFinally {S A} (body : M S A) (cleanup : S -> S) : M S A :=
  fun s => let '(r, s') := body s in (r, cleanup s').

(** [try { body } catch (e) { handler }] *)
Definition tryCatch {S A} (body : M S A) (handler : JsError -> M S A) : M S A :=
  fun s =>
    match body s with
    | (Ok a, s') => (Ok a, s')
    | (Throw e, s') => handler e s'
    end.

Declare Scope js_scope.
Delimit Scope js_scope with js.
Notation "x <- m ;; k" := (bind m (fun x => k))
  (at level 100, m at next level, right associativity) : js_scope.
Notation "m ;;; k" := (bind m (fun _ => k))
  (at level 100, right associativity) : js_scope.
Local Open Scope js_scope.

(** ** The symbol-table visitor *)

Record SymbolTableVisitor : Type := mkVisitor {
  documentUri : DocumentUri;
  symbolTable : SymbolTable.t;
  scope : option SymRef
}.

Definition setDocumentUri (uri : DocumentUri) (v : SymbolTableVisitor) : SymbolTableVisitor :=
  mkVisitor uri (symbolTable v) (scope v).

Definition setScope (s : option SymRef) (v : SymbolTableVisitor) : SymbolTableVisitor :=
  mkVisitor (documentUri v) (symbolTable v) s.

Definition setSymbolTable (t : SymbolTable.t) (v : SymbolTableVisitor) : SymbolTableVisitor :=
  mkVisitor (documentUri v) t (scope v).

Definition modifySymbol (ref : SymRef) (f : Symbol -> Symbol) (v : SymbolTableVisitor)
  : SymbolTableVisitor :=
  setSymbolTable
    (SymbolTable.mk (SymbolTable.options (symbolTable v))
                    (modify ref f (SymbolTable.self (symbolTable v)))) v.

(** [this.symbolTable.addNewSymbolOfType(t, parent, name)] as a method call
    of the visitor. *)
Definition addNew (t : SymbolClass) (parent : option SymRef) (name : string)
  : M SymbolTableVisitor SymRef :=
  fun v =>
    let '(r, table') := addNewSymbolOfType (symbolTable v) t parent name in
    (r, setSymbolTable table' v).

(** The constructor: the table defaults to [new SymbolTable("", {})], the
    scope to a fresh anonymous [ScopedSymbol] added to the table. *)
Definition construct (documentUri : DocumentUri) (symbolTable : SymbolTable.t)
  : Outcome SymbolTableVisitor :=
  match addNewSymbolOfType symbolTable ClsScopedSymbol None "" with
  | (Ok scope, table') => Ok (mkVisitor documentUri table' (Some scope))
  | (Throw e, _) => Throw e
  end.

Definition newSymbolTableVisitor (documentUri : DocumentUri) : Outcome SymbolTableVisitor :=
  construct documentUri (SymbolTable.new "" SymbolTableOptions.empty).

(** [registerDeclaration(symbol, tree, declarationName)] *)
Definition registerDeclaration (symbol : SymRef) (tree declarationName : ParseTree)
  : M SymbolTableVisitor unit :=
  uri <- gets documentUri ;;
  range <- lift (getRange tree) ;;
  selection <- lift (getRange declarationName) ;;
  update (modifySymbol symbol (setLocation (LocationLink.create uri range selection))).

(** Modelled from the spec: the base visitor's [withScope] (package
    toy-kotlin-language-server, not among the sources). It adds a symbol of
    the given scoped class to the current scope, anchors it at [tree], makes
    it the current scope for the duration of [action], and afterwards reverts
    the current scope to the parent of the scope it opened. *)
Definition withScope {T} (tree : ParseTree) (type : SymbolClass) (name : string)
           (action : M SymbolTableVisitor T) : M SymbolTableVisitor T :=
  current <- gets scope ;;
  opened <- addNew type current name ;;
  update (modifySymbol opened (setContext (nodeId tree))) ;;;
  update (setScope (Some opened)) ;;;
  tryFinally action (setScope (parent opened)).

(** [withDeclaration(declaration, declarationName, type, [name], action)] *)
Definition withDeclaration {T} (declaration declarationName : ParseTree)
           (type : SymbolClass) (name : string)
           (action : M SymbolTableVisitor T) : M SymbolTableVisitor T :=
  withScope declaration type name
    (current <- gets scope ;;
     match current with
     | Some s => registerDeclaration s declaration declarationName ;;; action
     | None => throw (TypeError "Cannot set properties of undefined (setting 'location')")
     end).

(** The generated accessors [ctx.simpleIdentifier()] and [ctx.identifier()]:
    the first child that is a rule context of the asked kind. Without such a
    child the call, or the read of [.text] on its undefined result, throws. *)
Fixpoint ruleChild (k : RuleKind) (l : list ParseTree) : option ParseTree :=
  match l with
  | [] => None
  | (ParserRuleContext _ k' _ _ _ as c) :: l' =>
      if RuleKind_eqb k k' then Some c else ruleChild k l'
  | TerminalNode _ _ :: l' => ruleChild k l'
  end.

Definition childrenOf (t : ParseTree) : list ParseTree :=
  match t with
  | ParserRuleContext _ _ _ _ children => children
  | TerminalNode _ _ => []
  end.

Definition accessor {S} (k : RuleKind) (ctx : ParseTree) : M S ParseTree :=
  match ruleChild k (childrenOf ctx) with
  | Some c => ret c
  | None => throw (Error "The specified node does not exist")
  end.

(** [visitor.visit(tree)]: [visitVariableDeclaration] and
    [visitFunctionDeclaration] on their contexts, [visitChildren] on every
    other rule context, nothing on a terminal. *)
Fixpoint visit (tree : ParseTree) : M SymbolTableVisitor unit :=
  match tree with
  | TerminalNode _ _ => ret tt
  | ParserRuleContext _ kind _ _ children =>
      let visitChildren :=
        (fix each (l : list ParseTree) : M SymbolTableVisitor unit :=
           match l with
           | [] => ret tt
           | c :: l' => visit c ;;; each l'
           end) children in
      match kind with
      | VariableDeclaration =>
          declarationName <- accessor SimpleIdentifier tree ;;
          current <- gets scope ;;
          symbol <- addNew ClsVariableSymbol current (nodeText declarationName) ;;
          registerDeclaration symbol tree declarationName ;;;
          visitChildren
      | FunctionDeclaration =>
          fname <- accessor Identifier tree ;;
          withDeclaration tree fname ClsRoutineSymbol (nodeText fname) visitChildren
      | _ => visitChildren
      end
  end.

Definition visitChildren : list ParseTree -> M SymbolTableVisitor unit :=
  fix each (l : list ParseTree) : M SymbolTableVisitor unit :=
    match l with
    | [] => ret tt
    | c :: l' => visit c ;;; each l'
    end.

(** ** Scope and declaration lookup *)

(** A parse-tree node as the lookup receives it: the node followed by its
    ancestors ([context.parent], and so on up to the root); the empty chain
    is [undefined]. *)
Definition Context := list ParseTree.
Bind Scope list_scope with Context.

(** The chain of the node reached from [tree] by the child indices [path]. *)
Fixpoint contextAt (tree : ParseTree) (path : list nat) (ancestors : Context) : Context :=
  match path with
  | [] => tree :: ancestors
  | i :: rest =>
      match childrenOf tree !! i with
      | Some c => contextAt c rest (tree :: ancestors)
      | None => []
      end
  end.

(** [getScope(context, symbolTable)] *)
Fixpoint getScope (context : Context) (symbolTable : SymbolTable.t) : option SymRef :=
  match context with
  | [] => None
  | node :: parent =>
      match symbolWithContext symbolTable node with
      | Some scope => Some scope
      | None => getScope parent symbolTable
      end
  end.

(** [children.find(s => s.name == name)], with the position of the symbol
    found; [i] is the position of the head of [l]. *)
Fixpoint findNamed (name0 : string) (i : nat) (l : list Symbol) : option (nat * Symbol) :=
  match l with
  | [] => None
  | s :: l' => if String.eqb (name s) name0 then Some (i, s) else findNamed name0 (S i) l'
  end.

(** [findDeclaration(name, scope)] on a defined [scope]. Both the loop that
    climbs to the nearest [ScopedSymbol] and the recursive call move to
    [scope.parent], so one recursion on the reference serves both. *)
Fixpoint findDeclarationFrom (table : Symbol) (name0 : string) (scope : SymRef)
  : option SymRef :=
  let outward :=
    match scope with
    | [] => None
    | _ :: p => findDeclarationFrom table name0 p
    end in
  match deref table scope with
  | None => None
  | Some s =>
      if instanceofScopedSymbol (cls s) then
        match findNamed name0 0 (children s) with
        | Some (i, symbol) =>
            match location symbol with
            | Some _ => Some (i :: scope)
            | None => outward
            end
        | None => outward
        end
      else outward
  end.

Definition findDeclaration (symbolTable : SymbolTable.t) (name0 : string)
           (scope : option SymRef) : option SymRef :=
  match scope with
  | None => None
  | Some s => findDeclarationFrom (SymbolTable.self symbolTable) name0 s
  end.

(** What [computeTokenPosition] hands to the definition handler. *)
Record TokenPosition : Type := mkTokenPosition { index : Z; tokenContext : Context }.

(** The body of [connection.onDefinition] once the document is parsed and the
    cursor located: [position] is the result of [computeTokenPosition]. *)
Definition onDefinition (visitor : SymbolTableVisitor) (position : option TokenPosition)
  : Outcome (option LocationLink.t) :=
  match position with
  | Some (mkTokenPosition _ ((node :: _) as context0)) =>
      let scope := getScope context0 (symbolTable visitor) in
      let declaration := findDeclaration (symbolTable visitor) (nodeText node) scope in
      match declaration with
      | Some d =>
          match deref (SymbolTable.self (symbolTable visitor)) d with
          | Some (mkSymbol _ _ _ (Some l) _) =>
              match getRange node with
              | Ok r =>
                  Ok (Some (LocationLink.mk (LocationLink.targetUri l)
                                            (LocationLink.targetRange l)
                                            (LocationLink.targetSelectionRange l)
                                            (Some r)))
              | Throw e => Throw e
              end
          | _ => Ok None
          end
      | None => Ok None
      end
  | _ => Ok None
  end.

(** ** The server: imports and the parse cache *)

(** What the server takes from its environment: the file system, the path
    normalisation [ensurePath], the parser ([parser.kotlinFile()] on a text)
    and [computeTokenPosition]. *)
Record Host : Type := mkHost {
  existsSync : string -> bool;
  readFileSync : string -> Outcome string;
  ensurePath : string -> Outcome string;
  kotlinFile : string -> ParseTree;
  computeTokenPosition : ParseTree -> string -> Z * Z -> option TokenPosition
}.

(** [computeBaseUri]: the URI up to and including its last ["/"], or the
    empty string when it has none. *)
Fixpoint computeBaseUri (uri : string) : string :=
  match uri with
  | EmptyString => ""
  | String c rest =>
      match computeBaseUri rest with
      | EmptyString => if Ascii.eqb c "/"%char then String c "" else ""
      | r => String c r
      end
  end.

(** ["" + e] for a caught exception. *)
Definition errorToString (e : JsError) : string :=
  match e with
  | TypeError msg => "TypeError: " ++ msg
  | DuplicateSymbolError msg => "Error: " ++ msg
  | Error msg => "Error: " ++ msg
  end.

(** The objects import processing works on: the visitor it was handed, the
    messages shown with [connection.window.showErrorMessage] and the errors
    written with [console.error], oldest first. *)
Record World : Type := mkWorld {
  visitor : SymbolTableVisitor;
  shown : list string;
  logged : list JsError
}.

Definition showErrorMessage (msg : string) : M World unit :=
  update (fun w => mkWorld (visitor w) (shown w ++ [msg]) (logged w)).

Definition consoleError (e : JsError) : M World unit :=
  update (fun w => mkWorld (visitor w) (shown w) (logged w ++ [e])).

(** A method of the visitor, called on the world's visitor. *)
Definition onVisitor {A} (m : M SymbolTableVisitor A) : M World A :=
  fun w => let '(r, v') := m (visitor w) in (r, mkWorld v' (shown w) (logged w)).

(** [processImport(path, symbolTableVisitor)] *)
Definition processImport (host : Host) (path : string) : M World unit :=
  tryCatch
    (data <- lift (readFileSync host path) ;;
     let parseTree := kotlinFile host data in
     onVisitor (visit parseTree))
    (fun e =>
       showErrorMessage ("Cannot read from imported file " ++ path ++ ": " ++ errorToString e) ;;;
       consoleError e).

(** One turn of the loop of [processImports]. *)
Definition processImportHeader (host : Host) (baseUri basePath : string)
           (import : ParseTree) : M World unit :=
  identifier <- accessor Identifier import ;;
  let filename := nodeText identifier ++ ".mykt" in
  let filepath := basePath ++ filename in
  if existsSync host filepath then
    onVisitor (update (setDocumentUri (baseUri ++ filename))) ;;;
    processImport host filepath
  else
    showErrorMessage ("Imported file not found: " ++ filepath).

Fixpoint forEachImport (host : Host) (baseUri basePath : string)
         (imports : list ParseTree) : M World unit :=
  match imports with
  | [] => ret tt
  | import :: rest =>
      processImportHeader host baseUri basePath import ;;;
      forEachImport host baseUri basePath rest
  end.

(** [processImports(imports, symbolTableVisitor)] *)
Definition processImports (host : Host) (imports : list ParseTree) : M World unit :=
  uri <- gets (fun w => documentUri (visitor w)) ;;
  let baseUri := computeBaseUri uri in
  basePath <- lift (ensurePath host baseUri) ;;
  forEachImport host baseUri basePath imports ;;;
  onVisitor (update (setDocumentUri uri)).

(** [parseTree?.preamble()?.importList()?.importHeader()] *)
Definition isImportHeader (t : ParseTree) : bool :=
  match t with
  | ParserRuleContext _ ImportHeader _ _ _ => true
  | _ => false
  end.

Definition importsOf (parseTree : ParseTree) : option (list ParseTree) :=
  match ruleChild Preamble (childrenOf parseTree) with
  | None => None
  | Some preamble =>
      match ruleChild ImportList (childrenOf preamble) with
      | None => None
      | Some importList => Some (List.filter isImportHeader (childrenOf importList))
      end
  end.

(** A parser object; [inputStream] is the text it was created for. *)
Record Parser : Type := mkParser { inputStream : string }.

(** An open document: its URI, its current text, and the three properties
    the server attaches to it, [undefined] until the document is parsed. *)
Record TextDocument : Type := mkTextDocument {
  uri : DocumentUri;
  getText : string;
  parser : option Parser;
  parseTree : option ParseTree;
  symbolTableVisitor : option SymbolTableVisitor
}.

(** [markForReparsing(document)] *)
Definition markForReparsing (document : TextDocument) : TextDocument :=
  mkTextDocument (uri document) (getText document) None None None.

(** The result of [ensureParsed]. *)
Record Parsed : Type := mkParsed {
  parsedParser : Parser;
  parsedTree : option ParseTree;
  parsedVisitor : option SymbolTableVisitor
}.

(** The server's state around one document: the document and the messages
    and errors shown so far. *)
Record Session : Type := mkSession {
  document : TextDocument;
  window : list string;
  console : list JsError
}.

(** The uncached part of [ensureParsed]: parse the text, process the
    imports, walk the tree. *)
Definition parseDocument (host : Host) (uri0 : DocumentUri) (text : string)
  : M World unit :=
  let parseTree := kotlinFile host text in
  match importsOf parseTree with
  | Some imports => processImports host imports
  | None => ret tt
  end ;;;
  onVisitor (visit parseTree).

(** [ensureParsed(document)] *)
Definition ensureParsed (host : Host) : M Session Parsed :=
  fun s =>
    let d := document s in
    match parser d with
    | Some p => (Ok (mkParsed p (parseTree d) (symbolTableVisitor d)), s)
    | None =>
        let text := getText d in
        match newSymbolTableVisitor (uri d) with
        | Throw e => (Throw e, s)
        | Ok v0 =>
            match parseDocument host (uri d) text (mkWorld v0 (window s) (console s)) with
            | (Throw e, w) => (Throw e, mkSession d (shown w) (logged w))
            | (Ok _, w) =>
                let p := mkParser text in
                let t := kotlinFile host text in
                (Ok (mkParsed p (Some t) (Some (visitor w))),
                 mkSession (mkTextDocument (uri d) text (Some p) (Some t) (Some (visitor w)))
                           (shown w) (logged w))
            end
        end
    end.

(** [documents.onDidChangeContent]: the document manager has replaced the
    text of the document, the handler marks it for reparsing. *)
Definition onDidChangeContent (newText : string) : M Session unit :=
  update (fun s =>
    let d := document s in
    mkSession (markForReparsing
                 (mkTextDocument (uri d) newText (parser d) (parseTree d) (symbolTableVisitor d)))
              (window s) (console s)).

(** [connection.onDefinition] for a cursor position (0-based line and
    character). *)
Definition definitionRequest (host : Host) (line character : Z)
  : M Session (option LocationLink.t) :=
  parsed <- ensureParsed host ;;
  match parsedTree parsed, parsedVisitor parsed with
  | Some tree, Some v =>
      let position :=
        computeTokenPosition host tree (inputStream (parsedParser parsed))
                             (line + 1, character) in
      lift (onDefinition v position)
  | _, _ => throw (TypeError "Cannot read properties of undefined")
  end.

(** ** The server: paths and completion *)

(** [s.lastIndexOf(c)] for a one-character [c]: the index of the last
    occurrence of [c] in [s], [-1] when there is none. *)
Fixpoint lastIndexOf (c : ascii) (s : string) : Z :=
  match s with
  | EmptyString => -1
  | String a rest =>
      let inRest := lastIndexOf c rest in
      if (0 <=? inRest)%Z then inRest + 1
      else if Ascii.eqb a c then 0 else -1
  end.

(** [s.startsWith(p)] *)
Fixpoint startsWith (p s : string) : bool :=
  match p, s with
  | EmptyString, _ => true
  | String a p', String b s' => Ascii.eqb a b && startsWith p' s'
  | String _ _, EmptyString => false
  end.

(** The backslash, which the source writes escaped. *)
Definition backslash : string := String "092"%char EmptyString.

Module Paths.

(** The functions [ensurePath] calls: [fileUriToPath] of the package
    file-uri-to-path, the engine's [decodeURIComponent] (both throw on what
    they cannot convert), and Node's [path.isAbsolute] and [path.resolve]. *)
Record Lib : Type := mkLib {
  fileUriToPath : string -> Outcome string;
  decodeURIComponent : string -> Outcome string;
  isAbsolute : string -> bool;
  resolve : string -> string
}.

(** [ensurePath(path)] *)
Definition ensurePath (lib : Lib) (path : string) : Outcome string :=
  if startsWith "file:" path then
    match fileUriToPath lib path with
    | Throw e => Throw e
    | Ok converted =>
        match decodeURIComponent lib converted with
        | Throw e => Throw e
        | Ok decoded =>
            if negb (startsWith (backslash ++ backslash) decoded)
               && startsWith backslash decoded
            then Ok (substring 1 (String.length decoded - 1) decoded)
            else Ok decoded
        end
    end
  else if negb (isAbsolute lib path) then Ok (resolve lib path)
  else Ok path.

End Paths.

Module CompletionItem.
(** [CompletionItemKind]: the handler only makes keywords. *)
Inductive Kind : Type := Keyword.
Record t : Type := mk { label : string; kind : Kind }.
End CompletionItem.



(** ** A sample program

    <<
    val x = 1
    fun f() {
      val x = 2
      x
    }
    fun g() { x; z }
    val y = x
    >>
    as the parser would deliver it; node identities are the numbers. *)
Module Sample.

Definition tok (line col : Z) (text : string) : Token.t := Token.mk line col text.

(** A [simpleIdentifier] (or [identifier]) context over one token. *)
Definition ident (k : RuleKind) (id : NodeId) (t : Token.t) : ParseTree :=
  ParserRuleContext id k t (Some t) [TerminalNode (S id) t].

(** [val <name> = <init>] *)
Definition property (id : NodeId) (line col : Z) (name : string)
           (init : ParseTree) (stop : Token.t) : ParseTree :=
  ParserRuleContext id OtherRule (tok line col "val") (Some stop)
    [ TerminalNode (id + 1)%nat (tok line col "val");
      ParserRuleContext (id + 2)%nat VariableDeclaration
        (tok line (col + 4) name) (Some (tok line (col + 4) name))
        [ident SimpleIdentifier (id + 3)%nat (tok line (col + 4) name)];
      TerminalNode (id + 5)%nat (tok line (col + 6) "=");
      init ].

Definition literal (id : NodeId) (t : Token.t) : ParseTree :=
  ParserRuleContext id OtherRule t (Some t) [TerminalNode (S id) t].

(** A use of an identifier as an expression. *)
Definition use (id : NodeId) (t : Token.t) : ParseTree :=
  ParserRuleContext id OtherRule t (Some t) [ident SimpleIdentifier (S id) t].

(** [fun <name>() { <body> }] *)
Definition function (id : NodeId) (line : Z) (name : string)
           (body : list ParseTree) (stop : Token.t) : ParseTree :=
  ParserRuleContext id FunctionDeclaration (tok line 0 "fun") (Some stop)
    [ TerminalNode (id + 1)%nat (tok line 0 "fun");
      ident Identifier (id + 2)%nat (tok line 4 name);
      ParserRuleContext (id + 4)%nat OtherRule (tok line 8 "{") (Some stop) body ].

Definition outerX : ParseTree :=
  property 10 1 0 "x" (literal 16 (tok 1 8 "1")) (tok 1 8 "1").
Definition innerX : ParseTree :=
  property 30 3 2 "x" (literal 36 (tok 3 10 "2")) (tok 3 10 "2").
Definition useInF : ParseTree := use 40 (tok 4 2 "x").
Definition f : ParseTree := function 20 2 "f" [innerX; useInF] (tok 5 0 "}").
Definition useInG : ParseTree := use 60 (tok 6 10 "x").
Definition useOfZ : ParseTree := use 64 (tok 6 13 "z").
Definition g : ParseTree := function 50 6 "g" [useInG; useOfZ] (tok 6 15 "}").
Definition useAtTop : ParseTree := use 76 (tok 7 8 "x").
Definition y : ParseTree := property 70 7 0 "y" useAtTop (tok 7 8 "x").

Definition file : ParseTree :=
  ParserRuleContext 0 KotlinFile (tok 1 0 "val") (Some (tok 7 8 "x"))
    [outerX; f; g; y].

(** The identifier tokens under the cursor, with their ancestors. *)
Definition cursorInF : Context := contextAt file [1; 2; 1; 0; 0]%nat [].
Definition cursorInG : Context := contextAt file [2; 2; 0; 0; 0]%nat [].
Definition cursorOnZ : Context := contextAt file [2; 2; 1; 0; 0]%nat [].
Definition cursorAtTop : Context := contextAt file [3; 3; 0; 0]%nat [].

(** The visitor of [ensureParsed] after its walk over [file]. *)
Definition built : Outcome unit * SymbolTableVisitor :=
  match newSymbolTableVisitor "file:///main.mykt" with
  | Ok v => visit file v
  | Throw e => (Throw e, mkVisitor "" (SymbolTable.new "" SymbolTableOptions.empty) None)
  end.

Definition lookup (v : SymbolTableVisitor) (context0 : Context) : Outcome (option LocationLink.t) :=
  onDefinition v (Some (mkTokenPosition 0 context0)).

(** A table in which the scope of a routine [f] owns an [x] that never got
    its location (the range computation of its declaration threw), below a
    root scope that owns a located [x]. *)
Definition span (line col : Z) : Range.t :=
  Range.mk (Position.mk line col) (Position.mk line (col + 1)).

Definition halfRegistered : SymbolTable.t :=
  SymbolTable.mk SymbolTableOptions.empty
    (mkSymbol ClsSymbolTable "" None None
       [ mkSymbol ClsScopedSymbol "" None None
           [ mkSymbol ClsVariableSymbol "x" None
               (Some (LocationLink.create "file:///main.mykt" (span 0 4) (span 0 4))) [];
             mkSymbol ClsRoutineSymbol "f" (Some 20%nat)
               (Some (LocationLink.create "file:///main.mykt"
                        (Range.mk (Position.mk 1 0) (Position.mk 4 1)) (span 1 4)))
               [ mkSymbol ClsVariableSymbol "x" None None [] ] ] ]).

(** A routine that declares [x] twice:
    <<
    fun h() {
      val x = 1
      val x = 2
      x
    }
    >> *)
Definition firstX : ParseTree :=
  property 110 2 2 "x" (literal 116 (tok 2 10 "1")) (tok 2 10 "1").
Definition secondX : ParseTree :=
  property 120 3 2 "x" (literal 126 (tok 3 10 "2")) (tok 3 10 "2").
Definition useInH : ParseTree := use 130 (tok 4 2 "x").
Definition h : ParseTree := function 100 1 "h" [firstX; secondX; useInH] (tok 5 0 "}").
Definition twice : ParseTree :=
  ParserRuleContext 0 KotlinFile (tok 1 0 "fun") (Some (tok 5 0 "}")) [h].
Definition cursorInH : Context := contextAt twice [0; 2; 2; 0; 0]%nat [].

Definition build (symbolTable : SymbolTable.t) (tree : ParseTree)
  : Outcome unit * SymbolTableVisitor :=
  match construct "file:///main.mykt" symbolTable with
  | Ok v => visit tree v
  | Throw e => (Throw e, mkVisitor "" symbolTable None)
  end.

(** A table that is created to allow duplicate symbols. *)
Definition permissive : SymbolTable.t :=
  SymbolTable.new "" (SymbolTableOptions.mk (Some true)).

(** A main file that imports a file that does not exist and one that
    does:
    <<
    import missing
    import lib
    fun k() { helper }
    >>
    with [lib.mykt] holding [fun helper() { }]. *)
Definition libText : string := "fun helper() { }".
Definition mainText : string := "import missing; import lib; fun k() { helper }".

Definition helper : ParseTree := function 200 1 "helper" [] (tok 1 15 "}").
Definition libFile : ParseTree :=
  ParserRuleContext 199 KotlinFile (tok 1 0 "fun") (Some (tok 1 15 "}")) [helper].

Definition importHeader (id : NodeId) (line : Z) (name : string) : ParseTree :=
  ParserRuleContext id ImportHeader (tok line 0 "import") (Some (tok line 7 name))
    [ TerminalNode (id + 1)%nat (tok line 0 "import");
      ident Identifier (id + 2)%nat (tok line 7 name) ].

Definition importMissing : ParseTree := importHeader 302 1 "missing".
Definition importLib : ParseTree := importHeader 306 2 "lib".
Definition useOfHelper : ParseTree := use 330 (tok 3 10 "helper").
Definition k : ParseTree := function 320 3 "k" [useOfHelper] (tok 3 17 "}").
Definition mainFile : ParseTree :=
  ParserRuleContext 300 KotlinFile (tok 1 0 "import") (Some (tok 3 17 "}"))
    [ ParserRuleContext 301 Preamble (tok 1 0 "import") (Some (tok 2 7 "lib"))
        [ ParserRuleContext 310 ImportList (tok 1 0 "import") (Some (tok 2 7 "lib"))
            [importMissing; importLib] ];
      k ].

(** A host whose only file is [/ws/lib.mykt], and whose cursor is always
    on the use of [helper]. *)
Definition host : Host :=
  mkHost (fun path => String.eqb path "/ws/lib.mykt")
         (fun path => if String.eqb path "/ws/lib.mykt" then Ok libText
                      else Throw (Error "ENOENT: no such file or directory"))
         (fun path => Ok (substring 7 (String.length path - 7) path))
         (fun text => if String.eqb text libText then libFile else mainFile)
         (fun tree _ _ => Some (mkTokenPosition 0 (contextAt tree [1; 2; 0; 0; 0]%nat []))).

Definition mainUri : DocumentUri := "file:///ws/main.mykt".

Definition opened : Session :=
  mkSession (mkTextDocument mainUri mainText None None None) [] [].

(** The world in which [ensureParsed] processes the imports of the main
    file. *)
Definition importing : World :=
  match newSymbolTableVisitor mainUri with
  | Ok v => mkWorld v [] []
  | Throw _ => mkWorld (mkVisitor mainUri (SymbolTable.new "" SymbolTableOptions.empty) None) [] []
  end.

End Sample.

(** ** Further samples *)

Module Examples.

(** A path library in the manner of Windows: a file URI converts to the
    part after [file://] with every ["/"] turned into a backslash. *)
Fixpoint backslashes (s : string) : string :=
  match s with
  | EmptyString => ""
  | String a rest =>
      (if Ascii.eqb a "/"%char then backslash else String a "") ++ backslashes rest
  end.

Definition windows : Paths.Lib :=
  Paths.mkLib (fun uri => if startsWith "file://" uri
                          then Ok (backslashes (substring 7 (String.length uri - 7) uri))
                          else Throw (TypeError "must pass in a file:// URI to convert to a file path"))
              (fun s => Ok s)
              (fun path => startsWith backslash path)
              (fun path => "C:" ++ backslash ++ "cwd" ++ backslash ++ path).


(** The sample host with a path conversion that refuses every URI. *)
Definition broken : Host :=
  mkHost (existsSync Sample.host) (readFileSync Sample.host)
         (fun _ => Throw (TypeError "must pass in a file:// URI to convert to a file path"))
         (kotlinFile Sample.host) (computeTokenPosition Sample.host).

(** A document whose first declaration is incomplete:
    <<
    val x
    fun f() { }
    >>
    with the variable declaration of [x] delivered without a stop token. *)
Definition unfinishedX : ParseTree :=
  ParserRuleContext 402 VariableDeclaration (Sample.tok 1 4 "x") None
    [Sample.ident SimpleIdentifier 403 (Sample.tok 1 4 "x")].

Definition unfinished : ParseTree :=
  ParserRuleContext 399 KotlinFile (Sample.tok 1 0 "val") (Some (Sample.tok 2 10 "}"))
    [ ParserRuleContext 400 OtherRule (Sample.tok 1 0 "val") (Some (Sample.tok 1 4 "x"))
        [TerminalNode 401 (Sample.tok 1 0 "val"); unfinishedX];
      Sample.function 410 2 "f" [] (Sample.tok 2 10 "}") ].

Definition unfinishedText : string := "val x fun f() { }".

(** The sample host with a parser that delivers [unfinished] for that
    text. *)
Definition drafting : Host :=
  mkHost (existsSync Sample.host) (readFileSync Sample.host) (ensurePath Sample.host)
         (fun text => if String.eqb text unfinishedText then unfinished
                      else kotlinFile Sample.host text)
         (computeTokenPosition Sample.host).

Definition draft : Session :=
  mkSession (mkTextDocument Sample.mainUri unfinishedText None None None) [] [].

End Examples.

(** ** Vocabulary of the statements *)

(** The symbol [findDeclaration] picks in the scope at [scope], if that
    symbol is a scope: the first child of the wanted name. *)
Definition selected (table : Symbol) (name0 : string) (scope : SymRef)
  : option (nat * Symbol) :=
  match deref table scope with
  | Some s => if instanceofScopedSymbol (cls s) then findNamed name0 0 (children s) else None
  | None => None
  end.

(** [symbol.hasOwnProperty("location")] *)
Definition isLocated (s : Symbol) : bool :=
  match location s with Some _ => true | None => false end.

(** The declaration the scope at [scope] answers with: its selected symbol,
    when that one has a location. *)
Definition answer (table : Symbol) (name0 : string) (scope : SymRef) : option SymRef :=
  match selected table name0 scope with
  | Some (i, symbol) => if isLocated symbol then Some (i :: scope) else None
  | None => None
  end.

(** Quantification over the scope chain: [scope], its parent, and so on up
    to the table. *)
Fixpoint anyInChain (p : SymRef -> bool) (scope : SymRef) : bool :=
  p scope || match scope with
             | [] => false
             | _ :: up => anyInChain p up
             end.

(** Some symbol of the list has that name; some symbol of that name has a
    location; at most one symbol has that name. *)
Definition hasNamed (name0 : string) (l : list Symbol) : bool :=
  existsb (fun c => String.eqb (name c) name0) l.

Definition hasLocatedNamed (name0 : string) (l : list Symbol) : bool :=
  existsb (fun c => String.eqb (name c) name0 && isLocated c) l.

Definition atMostOneNamed (name0 : string) (l : list Symbol) : bool :=
  Nat.leb (length (List.filter (fun c => String.eqb (name c) name0) l)) 1.

(** The symbols the symbol at [scope] owns, and whether it is a scope. *)
Definition childrenAt (table : Symbol) (scope : SymRef) : list Symbol :=
  match deref table scope with
  | Some s => children s
  | None => []
  end.

Definition scopedAt (table : Symbol) (scope : SymRef) : bool :=
  match deref table scope with
  | Some s => instanceofScopedSymbol (cls s)
  | None => false
  end.

(** Some scope of the chain owns a symbol of that name. *)
Definition namedInChain (table : Symbol) (name0 : string) : SymRef -> bool :=
  anyInChain (fun scope => hasNamed name0 (childrenAt table scope)).

(** Some scope of the chain owns a symbol of that name that has a location. *)
Definition locatedInChain (table : Symbol) (name0 : string) : SymRef -> bool :=
  anyInChain (fun scope => scopedAt table scope
                           && hasLocatedNamed name0 (childrenAt table scope)).

(** Some scope of the chain answers. *)
Definition answeredInChain (table : Symbol) (name0 : string) : SymRef -> bool :=
  anyInChain (fun scope => bool_decide (is_Some (answer table name0 scope))).

(** No scope of the chain owns two symbols of that name. *)
Definition uniqueInChain (table : Symbol) (name0 : string) (scope : SymRef) : bool :=
  negb (anyInChain (fun scope => negb (atMostOneNamed name0 (childrenAt table scope))) scope).

(** ** What the walk over a tree declares

    The symbols a completed walk over [tree] adds to the scope that is
    current when it starts, in the order it adds them: a variable declaration
    gives a located variable symbol followed by what its children declare; a
    function declaration gives one routine symbol, anchored at the node,
    located, that owns what the children declare; any other node gives what
    its children declare. *)
Fixpoint symbolsOf (uri0 : DocumentUri) (tree : ParseTree) : list Symbol :=
  match tree with
  | TerminalNode _ _ => []
  | ParserRuleContext id kind _ _ children =>
      let inner :=
        (fix each (l : list ParseTree) : list Symbol :=
           match l with
           | [] => []
           | c :: l' => (symbolsOf uri0 c ++ each l')%list
           end) children in
      match kind with
      | VariableDeclaration =>
          match ruleChild SimpleIdentifier children with
          | Some declarationName =>
              match getRange tree, getRange declarationName with
              | Ok range, Ok selection =>
                  mkSymbol ClsVariableSymbol (nodeText declarationName) None
                           (Some (LocationLink.create uri0 range selection)) []
                  :: inner
              | _, _ => inner
              end
          | None => inner
          end
      | FunctionDeclaration =>
          match ruleChild Identifier children with
          | Some fname =>
              match getRange tree, getRange fname with
              | Ok range, Ok selection =>
                  [mkSymbol ClsRoutineSymbol (nodeText fname) (Some id)
                            (Some (LocationLink.create uri0 range selection)) inner]
              | _, _ => []
              end
          | None => []
          end
      | _ => inner
      end
  end.

(** What the trees of a list declare, one after the other. *)
Definition symbolsOfAll (uri0 : DocumentUri) : list ParseTree -> list Symbol :=
  fix each (l : list ParseTree) : list Symbol :=
    match l with
    | [] => []
    | c :: l' => (symbolsOf uri0 c ++ each l')%list
    end.

(** The scope [s] once it was given the symbols [l]. *)
Definition appendChildren (l : list Symbol) (s : Symbol) : Symbol :=
  mkSymbol (cls s) (name s) (context s) (location s) (children s ++ l).

(** [t instanceof FunctionDeclarationContext] *)
Definition isFunctionDeclaration (t : ParseTree) : bool :=
  match t with
  | ParserRuleContext _ FunctionDeclaration _ _ _ => true
  | _ => false
  end.

(** The nodes of a tree, the tree itself first. *)
Fixpoint subtrees (tree : ParseTree) : list ParseTree :=
  tree :: match tree with
          | ParserRuleContext _ _ _ _ kids =>
              (fix each (l : list ParseTree) : list ParseTree :=
                 match l with
                 | [] => []
                 | c :: l' => (subtrees c ++ each l')%list
                 end) kids
          | TerminalNode _ _ => []
          end.

Definition subtreesAll : list ParseTree -> list ParseTree :=
  fix each (l : list ParseTree) : list ParseTree :=
    match l with
    | [] => []
    | c :: l' => (subtrees c ++ each l')%list
    end.

(** The nodes of a tree are distinct objects. *)
Definition distinctNodes (tree : ParseTree) : Prop :=
  NoDup (nodeId <$> subtrees tree).

(** Every function declaration among the nodes has declared its routine. *)
Definition routinesDeclared (uri0 : DocumentUri) (nodes : list ParseTree) : Prop :=
  forall node, node ∈ nodes -> isFunctionDeclaration node = true -> symbolsOf uri0 node <> [].

(** The walk over [tree], started in the scope at [cur], completes only by
    appending [symbolsOf tree] to that scope, changing nothing else, and only
    when every function declaration of the tree could be declared. *)
Definition builds (cur : SymRef) (tree : ParseTree) : Prop :=
  forall v v' s,
    visit tree v = (Ok tt, v') ->
    scope v = Some cur ->
    deref (SymbolTable.self (symbolTable v)) cur = Some s ->
    v' = modifySymbol cur (appendChildren (symbolsOf (documentUri v) tree)) v
    /\ routinesDeclared (documentUri v) (subtrees tree).

(** The nodes that anchor a symbol reachable from [s] through scoped
    symbols, in the order [symbolWithContext] meets them. *)
Fixpoint anchorsOf (s : Symbol) : list NodeId :=
  match s with
  | mkSymbol c _ ctx _ ch =>
      (match ctx with Some n => [n] | None => [] end)
      ++ (if instanceofScopedSymbol c then
            (fix each (l : list Symbol) : list NodeId :=
               match l with
               | [] => []
               | x :: l' => (anchorsOf x ++ each l')%list
               end) ch
          else [])
  end.

Definition anchorsOfAll : list Symbol -> list NodeId :=
  fix each (l : list Symbol) : list NodeId :=
    match l with
    | [] => []
    | x :: l' => (anchorsOf x ++ each l')%list
    end.

(** Every symbol strictly above [ref] is a scope. *)
Fixpoint scopedAbove (table : Symbol) (ref : SymRef) : bool :=
  match ref with
  | [] => true
  | _ :: up => scopedAt table up && scopedAbove table up
  end.

(** The scope at [ref] and every symbol above it is a scope. *)
Fixpoint scopedAll (table : Symbol) (ref : SymRef) : bool :=
  scopedAt table ref && match ref with
                        | [] => true
                        | _ :: up => scopedAll table up
                        end.

(** What the scopes of the chain own, innermost first. *)
Fixpoint scopeChain (table : Symbol) (ref : SymRef) : list (list Symbol) :=
  childrenAt table ref :: match ref with
                          | [] => []
                          | _ :: up => scopeChain table up
                          end.

(** ** Lexical resolution

    The function declarations among a node and its ancestors, innermost
    first; what the body of one declares; and the location of the first
    symbol of a name in the first of a list of scopes where that symbol has a
    location. *)
Definition enclosingRoutines (context0 : Context) : list ParseTree :=
  List.filter isFunctionDeclaration context0.

Definition declaredIn (uri0 : DocumentUri) (routine : ParseTree) : list Symbol :=
  symbolsOfAll uri0 (childrenOf routine).

Fixpoint resolve (name0 : string) (scopes : list (list Symbol)) : option LocationLink.t :=
  match scopes with
  | [] => None
  | l :: up =>
      match findNamed name0 0 l with
      | Some (_, mkSymbol _ _ _ (Some loc) _) => Some loc
      | _ => resolve name0 up
      end
  end.

(** A visitor as the constructor makes it, with its current scope the file
    scope, once that scope owns the symbols [owned] (none for a new visitor,
    the imported ones after the imports were processed). *)
Definition atFileScope (uri0 : DocumentUri) (options : SymbolTableOptions.t)
           (owned : list Symbol) : SymbolTableVisitor :=
  mkVisitor uri0
    (SymbolTable.mk options
       (mkSymbol ClsSymbolTable "" None None
          [mkSymbol ClsScopedSymbol "" None None owned]))
    (Some [0%nat]).

(** [declaration.location] of what the lookup returned. *)
Definition locationOf (table : Symbol) (declaration : option SymRef)
  : option LocationLink.t :=
  match declaration with
  | Some d =>
      match deref table d with
      | Some symbol => location symbol
      | None => None
      end
  | None => None
  end.

(** The scope [getScope] finds for a cursor with the enclosing routines
    [routines], given what it finds ([outer]) for the part of the chain above
    them and the chain of that scope. *)
Definition locates (table : Symbol) (uri0 : DocumentUri) (routines : list ParseTree)
           (outer : option SymRef) (outerChain : list (list Symbol))
           (result : option SymRef) : Prop :=
  match routines with
  | [] => result = outer
  | _ => exists ref, result = Some ref
                     /\ scopedAll table ref = true
                     /\ scopeChain table ref
                        = (map (declaredIn uri0) routines ++ outerChain)%list
  end.

(** Every location found in [new] either was at the same symbol of [old]
    already or points into the document [u]. *)
Definition locatedBy (u : DocumentUri) (old new : Symbol) : Prop :=
  forall ref s' l,
    deref new ref = Some s' -> location s' = Some l ->
    LocationLink.targetUri l = u
    \/ exists s, deref old ref = Some s /\ location s = Some l.

(** A step of a visitor whose document is [u] keeps that document and
    records locations in [u] only. *)
Definition registersIn (u : DocumentUri) (v v' : SymbolTableVisitor) : Prop :=
  documentUri v = u ->
  documentUri v' = u
  /\ locatedBy u (SymbolTable.self (symbolTable v)) (SymbolTable.self (symbolTable v')).

(** A computation all of whose runs, normal or not, relate the state they
    start from to the state they end in. *)
Definition preserves {S A} (R : S -> S -> Prop) (m : M S A) : Prop :=
  forall s, R s (snd (m s)).

(** No two symbols of the list share a name that is not empty. *)
Definition uniqueNames (l : list Symbol) : Prop :=
  forall i j ci cj,
    l !! i = Some ci -> l !! j = Some cj ->
    name ci = name cj -> name ci <> "" -> i = j.

(** No symbol reachable in [table] owns two symbols of one non-empty name. *)
Definition duplicateFree (table : Symbol) : Prop :=
  forall ref s, deref table ref = Some s -> uniqueNames (children s).

(** A step of a visitor whose table refuses duplicates keeps the table free
    of them. *)
Definition refusesDuplicates (v v' : SymbolTableVisitor) : Prop :=
  truthy (SymbolTableOptions.allowDuplicateSymbols (SymbolTable.options (symbolTable v)))
  = false ->
  duplicateFree (SymbolTable.self (symbolTable v)) ->
  truthy (SymbolTableOptions.allowDuplicateSymbols (SymbolTable.options (symbolTable v')))
  = false
  /\ duplicateFree (SymbolTable.self (symbolTable v')).

(** No node of the chain anchors a scope of the table. *)
Definition unanchored (symbolTable : SymbolTable.t) (context0 : Context) : bool :=
  forallb (fun node => bool_decide (symbolWithContext symbolTable node = None)) context0.

(** ** Vocabulary of the further properties *)

(** Whether a string holds a ["/"]. *)
Fixpoint hasSlash (s : string) : bool :=
  match s with
  | EmptyString => false
  | String a rest => Ascii.eqb a "/"%char || hasSlash rest
  end.

(** The symbol [s'] is the symbol [s] at a later time: it has the class,
    the name, the anchor and the location [s] had. *)
Definition sameSymbol (s s' : Symbol) : Prop :=
  cls s' = cls s /\ name s' = name s /\ context s' = context s /\ location s' = location s.

(** Every symbol of [old] is still in [new] at the place it had, as it
    was. *)
Definition keeps (old new : Symbol) : Prop :=
  forall ref s, deref old ref = Some s ->
    exists s', deref new ref = Some s' /\ sameSymbol s s'.

(** A step of the visitor that leaves the options of its table and its
    current scope as they were, and keeps every symbol of the table. *)
Definition undisturbed (v v' : SymbolTableVisitor) : Prop :=
  SymbolTable.options (symbolTable v') = SymbolTable.options (symbolTable v)
  /\ (is_Some (scope v) -> scope v' = scope v)
  /\ keeps (SymbolTable.self (symbolTable v)) (SymbolTable.self (symbolTable v')).

(** The scope [addNewSymbolOfType] adds to: the given parent, the table
    itself without one. *)
Definition targetOf (parent : option SymRef) : SymRef :=
  match parent with
  | Some p => p
  | None => []
  end.

(** Every location found in [new] either was at the same symbol of [old]
    already or points into a document that satisfies [allowed]. *)
Definition locatedAmong (allowed : DocumentUri -> Prop) (old new : Symbol) : Prop :=
  forall ref s' l,
    deref new ref = Some s' -> location s' = Some l ->
    allowed (LocationLink.targetUri l)
    \/ exists s, deref old ref = Some s /\ location s = Some l.

(** A step of a visitor bound to an allowed document leaves it bound to an
    allowed document and records locations in allowed documents only. *)
Definition registersAmong (allowed : DocumentUri -> Prop) (v v' : SymbolTableVisitor) : Prop :=
  allowed (documentUri v) ->
  allowed (documentUri v')
  /\ locatedAmong allowed (SymbolTable.self (symbolTable v))
                  (SymbolTable.self (symbolTable v')).

(** The URI [processImports] binds the visitor to for an import header. *)
Definition importUri (baseUri : string) (import : ParseTree) : option DocumentUri :=
  match ruleChild Identifier (childrenOf import) with
  | Some identifier => Some (baseUri ++ nodeText identifier ++ ".mykt")
  | None => None
  end.

(** The documents a document can lead to: itself and the files its import
    headers name, next to it. *)
Definition reachableFrom (uri0 : DocumentUri) (parseTree : ParseTree) (u : DocumentUri) : Prop :=
  u = uri0
  \/ exists imports import,
       importsOf parseTree = Some imports /\ In import imports
       /\ importUri (computeBaseUri uri0) import = Some u.

(** A relation on visitors, seen on the worlds that hold them. *)
Definition onWorlds (R : SymbolTableVisitor -> SymbolTableVisitor -> Prop) (w w' : World) : Prop :=
  R (visitor w) (visitor w').

(** Whether a node has a stop token, so that [getRange] can map it. *)
Definition hasStop (tree : ParseTree) : bool :=
  match stopToken tree with
  | Some _ => true
  | None => false
  end.

(** Every declaration of the tree can be registered: each variable
    declaration has its simple identifier and each function declaration its
    identifier, and the declaration and its name have a stop token. *)
Fixpoint declarable (tree : ParseTree) : bool :=
  match tree with
  | TerminalNode _ _ => true
  | ParserRuleContext _ kind _ _ kids =>
      let named (k : RuleKind) :=
        match ruleChild k kids with
        | Some declarationName => hasStop tree && hasStop declarationName
        | None => false
        end in
      match kind with
      | VariableDeclaration => named SimpleIdentifier
      | FunctionDeclaration => named Identifier
      | _ => true
      end
      && forallb declarable kids
  end.

(** A table with the options [options] takes the symbols [added] into a
    scope that owns [owned]: it allows duplicate symbols, or no two symbols of
    the scope would share a non-empty name, nor any two in a scope below one
    of the added symbols. *)
Definition admits (options : SymbolTableOptions.t) (owned added : list Symbol) : Prop :=
  truthy (SymbolTableOptions.allowDuplicateSymbols options) = true
  \/ (uniqueNames (owned ++ added) /\ Forall duplicateFree added).

(** The walk over [tree] from the scope at [cur] completes, and appends
    what the tree declares to that scope. *)
Definition completes (tree : ParseTree) : Prop :=
  forall cur v s,
    declarable tree = true ->
    scope v = Some cur ->
    deref (SymbolTable.self (symbolTable v)) cur = Some s ->
    instanceofScopedSymbol (cls s) = true ->
    admits (SymbolTable.options (symbolTable v)) (children s)
           (symbolsOf (documentUri v) tree) ->
    visit tree v
    = (Ok tt, modifySymbol cur (appendChildren (symbolsOf (documentUri v) tree)) v).

(** Everything reachable from [c], [c] included, has a location in the
    document [u]. *)
Definition locatedIn (u : DocumentUri) (c : Symbol) : Prop :=
  forall q x, deref c q = Some x ->
    exists l, location x = Some l /\ LocationLink.targetUri l = u.

(** A step of the visitor that leaves the options of its table and its
    current scope as they were and changes the table in one way only: the
    scope that is current has been given symbols, after the ones it owned. *)
Definition appendsToScope (v v' : SymbolTableVisitor) : Prop :=
  SymbolTable.options (symbolTable v') = SymbolTable.options (symbolTable v)
  /\ forall cur,
       scope v = Some cur ->
       scope v' = Some cur
       /\ exists added,
            SymbolTable.self (symbolTable v')
            = modify cur (appendChildren added) (SymbolTable.self (symbolTable v)).

(** The part of [ensureParsed] that processes the imports of a tree. *)
Definition importPhase (host : Host) (parseTree : ParseTree) : M World unit :=
  match importsOf parseTree with
  | Some imports => processImports host imports
  | None => ret tt
  end.

(** What one turn of the loop of [processImports] does for an import header
    and what it reports, the files being looked up at [basePath] and the
    visitor being [v] when the turn starts: nothing is reported when the file
    exists, was read and its walk, from [v] rebound to the imported file,
    completed; the message that the file was not found when it does not
    exist, the visitor staying as it is; and the message that the file cannot
    be read, with the error on the console, when it exists and reading it
    threw that error or the walk over its tree did. The last argument is the
    visitor when the turn is over. *)
Inductive reported (host : Host) (baseUri basePath : string) (import : ParseTree)
          (v : SymbolTableVisitor)
  : list string -> list JsError -> SymbolTableVisitor -> Prop :=
| reported_nothing (identifier : ParseTree) (data : string) (v' : SymbolTableVisitor) :
    ruleChild Identifier (childrenOf import) = Some identifier ->
    existsSync host (basePath ++ nodeText identifier ++ ".mykt") = true ->
    readFileSync host (basePath ++ nodeText identifier ++ ".mykt") = Ok data ->
    visit (kotlinFile host data)
          (setDocumentUri (baseUri ++ nodeText identifier ++ ".mykt") v) = (Ok tt, v') ->
    reported host baseUri basePath import v [] [] v'
| reported_missing (identifier : ParseTree) :
    ruleChild Identifier (childrenOf import) = Some identifier ->
    existsSync host (basePath ++ nodeText identifier ++ ".mykt") = false ->
    reported host baseUri basePath import v
             ["Imported file not found: " ++ basePath ++ nodeText identifier ++ ".mykt"] [] v
| reported_unreadable (identifier : ParseTree) (e : JsError) :
    ruleChild Identifier (childrenOf import) = Some identifier ->
    existsSync host (basePath ++ nodeText identifier ++ ".mykt") = true ->
    readFileSync host (basePath ++ nodeText identifier ++ ".mykt") = Throw e ->
    reported host baseUri basePath import v
             ["Cannot read from imported file " ++ (basePath ++ nodeText identifier ++ ".mykt")
              ++ ": " ++ errorToString e] [e]
             (setDocumentUri (baseUri ++ nodeText identifier ++ ".mykt") v)
| reported_unwalkable (identifier : ParseTree) (data : string) (e : JsError)
                      (v' : SymbolTableVisitor) :
    ruleChild Identifier (childrenOf import) = Some identifier ->
    existsSync host (basePath ++ nodeText identifier ++ ".mykt") = true ->
    readFileSync host (basePath ++ nodeText identifier ++ ".mykt") = Ok data ->
    visit (kotlinFile host data)
          (setDocumentUri (baseUri ++ nodeText identifier ++ ".mykt") v) = (Throw e, v') ->
    reported host baseUri basePath import v
             ["Cannot read from imported file " ++ (basePath ++ nodeText identifier ++ ".mykt")
              ++ ": " ++ errorToString e] [e] v'.

(** The turns of the loop over a list of import headers, one after the
    other, each from the visitor the one before it left. *)
Inductive reportedAll (host : Host) (baseUri basePath : string)
  : list ParseTree -> SymbolTableVisitor -> list string -> list JsError
    -> SymbolTableVisitor -> Prop :=
| reportedAll_nil (v : SymbolTableVisitor) :
    reportedAll host baseUri basePath [] v [] [] v
| reportedAll_cons (import : ParseTree) (rest : list ParseTree)
                   (v v1 v2 : SymbolTableVisitor)
                   (messages1 messages2 : list string) (errors1 errors2 : list JsError) :
    reported host baseUri basePath import v messages1 errors1 v1 ->
    reportedAll host baseUri basePath rest v1 messages2 errors2 v2 ->
    reportedAll host baseUri basePath (import :: rest) v
                (messages1 ++ messages2)%list (errors1 ++ errors2)%list v2.

(** The error of reading [charPositionInLine] on an undefined stop token. *)
Definition stopUndefined : JsError :=
  TypeError "Cannot read properties of undefined (reading 'charPositionInLine')".

(** Whether a node is one the visitor declares a symbol for. *)
Definition isDeclaration (t : ParseTree) : bool :=
  match t with
  | ParserRuleContext _ VariableDeclaration _ _ _
  | ParserRuleContext _ FunctionDeclaration _ _ _ => true
  | _ => false
  end.

(** The cache of a document as [markForReparsing] and [ensureParsed] leave
    it: empty, or holding a tree and a visitor next to the parser. *)
Definition wellCached (d : TextDocument) : Prop :=
  parser d = None \/ (is_Some (parseTree d) /\ is_Some (symbolTableVisitor d)).

(** A computation on the world that only adds to the messages shown and to
    the errors written, without looking at the ones that are there: run with
    messages [sh] and errors [lg] it does what it does without any, and puts
    [sh] and [lg] in front of what it shows and writes. *)
Definition framed {A} (m : M World A) : Prop :=
  forall v sh lg,
    m (mkWorld v sh lg)
    = (fst (m (mkWorld v [] [])),
       mkWorld (visitor (snd (m (mkWorld v [] []))))
               (sh ++ shown (snd (m (mkWorld v [] []))))
               (lg ++ logged (snd (m (mkWorld v [] []))))).

(** ** The range mapper: statements *)

(** C8. For a node whose stop token is present, [getRange] is the range
    from (start line - 1, start column) to (stop line - 1, stop column + length
    of the stop token's text); a terminal's token is both its start and its
    stop. *)
Theorem getRange_zero_based_end_exclusive (parseTree : ParseTree) (stop : Token.t) :
  stopToken parseTree = Some stop ->
  getRange parseTree =
    Ok (Range.mk
          (Position.mk (Token.line (startToken parseTree) - 1)
                       (Token.charPositionInLine (startToken parseTree)))
          (Position.mk (Token.line stop - 1)
                       (Token.charPositionInLine stop
                        + Z.of_nat (String.length (Token.text stop))))).
Proof.
  destruct parseTree as [id k st sp ch | id sym]; cbn; intros H.
  - subst sp. reflexivity.
  - injection H as <-. reflexivity.
Qed.

Lemma getRange_zero_based_end_exclusive_witness :
  getRange (ParserRuleContext 1 OtherRule (Token.mk 3 4 "val") (Some (Token.mk 5 2 "done")) [])
  = Ok (Range.mk (Position.mk 2 4) (Position.mk 4 6))
  /\ getRange (TerminalNode 2 (Token.mk 7 1 "xyz"))
     = Ok (Range.mk (Position.mk 6 1) (Position.mk 6 4)).
Proof.
  split.
  - apply (getRange_zero_based_end_exclusive
             (ParserRuleContext 1 OtherRule (Token.mk 3 4 "val") (Some (Token.mk 5 2 "done")) [])
             (Token.mk 5 2 "done")).
    reflexivity.
  - apply (getRange_zero_based_end_exclusive (TerminalNode 2 (Token.mk 7 1 "xyz"))
                                             (Token.mk 7 1 "xyz")).
    reflexivity.
Defined.

(** ** The declaration lookup: lemmas *)

Lemma findDeclarationFrom_unfold (table : Symbol) (name0 : string) (scope : SymRef) :
  findDeclarationFrom table name0 scope =
    match deref table scope with
    | None => None
    | Some _ =>
        match answer table name0 scope with
        | Some r => Some r
        | None => match scope with
                  | [] => None
                  | _ :: up => findDeclarationFrom table name0 up
                  end
        end
    end.
Proof.
  destruct scope as [|i up]; cbn [findDeclarationFrom];
    unfold answer, selected, isLocated;
    destruct (deref table _) as [s|]; try reflexivity;
    destruct (instanceofScopedSymbol (cls s)); try reflexivity;
    destruct (findNamed name0 0 (children s)) as [[j sym]|]; try reflexivity;
    destruct (location sym); reflexivity.
Qed.

Lemma deref_up (table : Symbol) (i : nat) (up : SymRef) :
  is_Some (deref table (i :: up)) -> is_Some (deref table up).
Proof.
  cbn. destruct (deref table up); [eauto | intros [? ?]; discriminate].
Qed.

Lemma deref_app (table : Symbol) (r up : SymRef) :
  deref table (r ++ up) =
    match deref table up with
    | Some s => deref s r
    | None => None
    end.
Proof.
  induction r as [|i r IH]; cbn.
  - destruct (deref table up); reflexivity.
  - rewrite IH. destruct (deref table up); reflexivity.
Qed.

Lemma findNamed_spec (name0 : string) (l : list Symbol) (k i : nat) (s : Symbol) :
  findNamed name0 k l = Some (i, s) ->
  (k <= i)%nat /\ l !! (i - k)%nat = Some s /\ name s = name0
  /\ forall j c, (j < i - k)%nat -> l !! j = Some c -> name c <> name0.
Proof.
  revert k. induction l as [|c l IH]; intros k; cbn; [discriminate|].
  destruct (String.eqb (name c) name0) eqn:E.
  - intros [= <- <-]. apply String.eqb_eq in E.
    replace (k - k)%nat with 0%nat by lia. repeat split; auto. intros; lia.
  - intros H. apply IH in H as (Hle & Hl & Hn & Hbefore).
    apply String.eqb_neq in E.
    replace (i - k)%nat with (S (i - S k)) by lia.
    repeat split; auto; [lia|].
    intros [|j] c' Hj; cbn.
    + intros [= <-]. exact E.
    + apply Hbefore. lia.
Qed.

Lemma findNamed_None (name0 : string) (l : list Symbol) (k : nat) :
  findNamed name0 k l = None <-> hasNamed name0 l = false.
Proof.
  revert k. induction l as [|c l IH]; intros k; cbn; [tauto|].
  destruct (String.eqb (name c) name0); cbn; [split; discriminate | apply IH].
Qed.

Lemma answer_spec (table : Symbol) (name0 : string) (scope r : SymRef) :
  answer table name0 scope = Some r ->
  exists i symbol l,
    r = i :: scope /\ deref table r = Some symbol /\ name symbol = name0
    /\ location symbol = Some l /\ scopedAt table scope = true
    /\ selected table name0 scope = Some (i, symbol).
Proof.
  unfold answer, selected, scopedAt, isLocated.
  destruct (deref table scope) as [s|] eqn:Hs; [|discriminate].
  destruct (instanceofScopedSymbol (cls s)); [|discriminate].
  destruct (findNamed name0 0 (children s)) as [[i symbol]|] eqn:Hf; [|discriminate].
  destruct (location symbol) as [l|] eqn:Hl; [|discriminate].
  intros [= <-]. exists i, symbol, l.
  apply findNamed_spec in Hf as (_ & Hi & Hn & _).
  replace (i - 0)%nat with i in Hi by lia.
  cbn. rewrite Hs. repeat split; assumption.
Qed.

(** The lookup answers with the answer of some scope of the chain. *)
Lemma findDeclarationFrom_Some (table : Symbol) (name0 : string) (scope r : SymRef) :
  findDeclarationFrom table name0 scope = Some r ->
  exists skipped hit, scope = (skipped ++ hit)%list /\ answer table name0 hit = Some r.
Proof.
  induction scope as [|i up IH]; rewrite findDeclarationFrom_unfold;
    destruct (deref table _); try discriminate;
    destruct (answer table name0 _) as [a|] eqn:Ha.
  - intros [= <-]. exists [], []. auto.
  - discriminate.
  - intros [= <-]. exists [], (i :: up). auto.
  - intros H. apply IH in H as (skipped & hit & -> & H). exists (i :: skipped), hit. auto.
Qed.

Lemma findDeclarationFrom_None (table : Symbol) (name0 : string) (scope : SymRef) :
  is_Some (deref table scope) ->
  findDeclarationFrom table name0 scope = None <-> answeredInChain table name0 scope = false.
Proof.
  unfold answeredInChain.
  induction scope as [|i up IH]; intros Hv; rewrite findDeclarationFrom_unfold;
    destruct Hv as [s Hs]; rewrite Hs; cbn [anyInChain];
    destruct (answer table name0 _) as [a|] eqn:Ha.
  - rewrite bool_decide_eq_true_2 by eauto. cbn. split; discriminate.
  - rewrite bool_decide_eq_false_2 by (intros [? ?]; discriminate). cbn. tauto.
  - rewrite bool_decide_eq_true_2 by eauto. cbn. split; discriminate.
  - rewrite bool_decide_eq_false_2 by (intros [? ?]; discriminate). cbn.
    apply IH. apply (deref_up table i up). rewrite Hs. eauto.
Qed.

(** A chain without a symbol of that name has no answer. *)
Lemma findDeclarationFrom_unnamed (table : Symbol) (name0 : string) (scope : SymRef) :
  namedInChain table name0 scope = false ->
  findDeclarationFrom table name0 scope = None.
Proof.
  unfold namedInChain.
  induction scope as [|i up IH]; rewrite findDeclarationFrom_unfold;
    cbn [anyInChain]; intros H; apply orb_false_iff in H as [Hh Hup];
    unfold answer, selected, childrenAt in *;
    destruct (deref table _) as [s|]; try reflexivity;
    apply findNamed_None with (k := 0%nat) in Hh; rewrite Hh;
    destruct (instanceofScopedSymbol (cls s)); auto.
Qed.

(** With at most one symbol of the name in a scope, the scope answers
    exactly when it owns a located symbol of that name. *)
Lemma unique_selected_located (name0 : string) (l : list Symbol) (k i : nat) (s : Symbol) :
  atMostOneNamed name0 l = true ->
  findNamed name0 k l = Some (i, s) ->
  hasLocatedNamed name0 l = isLocated s.
Proof.
  unfold atMostOneNamed, hasLocatedNamed.
  revert k. induction l as [|c l IH]; intros k; cbn; [discriminate|].
  destruct (String.eqb (name c) name0) eqn:E; cbn.
  - intros Hone [= <- <-].
    assert (Hnil : List.filter (fun c0 => String.eqb (name c0) name0) l = []).
    { destruct (List.filter _ l); [reflexivity|]. cbn in Hone. discriminate. }
    assert (Hrest : existsb (fun c0 => String.eqb (name c0) name0 && isLocated c0) l = false).
    { clear -Hnil. induction l as [|d l IH]; cbn in *; [reflexivity|].
      destruct (String.eqb (name d) name0); [discriminate|]. cbn. auto. }
    rewrite Hrest. apply orb_false_r.
  - intros Hone Hf. eapply IH; eauto.
Qed.

Ltac none_is_not_some :=
  first [ reflexivity
        | apply bool_decide_eq_false_2; intros [? ?]; discriminate ].

Lemma answer_located (table : Symbol) (name0 : string) (scope : SymRef) :
  atMostOneNamed name0 (childrenAt table scope) = true ->
  bool_decide (is_Some (answer table name0 scope))
  = scopedAt table scope && hasLocatedNamed name0 (childrenAt table scope).
Proof.
  unfold answer, selected, scopedAt, childrenAt.
  destruct (deref table scope) as [s|]; [|intros _; none_is_not_some].
  intros Hone.
  destruct (instanceofScopedSymbol (cls s)); cbn [andb]; [|none_is_not_some].
  destruct (findNamed name0 0 (children s)) as [[i symbol]|] eqn:Hf.
  - rewrite (unique_selected_located _ _ _ _ _ Hone Hf).
    destruct (isLocated symbol).
    + apply bool_decide_eq_true_2. eauto.
    + none_is_not_some.
  - apply findNamed_None in Hf.
    assert (Hl : hasLocatedNamed name0 (children s) = false).
    { clear -Hf. unfold hasNamed, hasLocatedNamed in *.
      induction (children s) as [|d l IH]; cbn in *; [reflexivity|].
      apply orb_false_iff in Hf as [-> Hf]. cbn. auto. }
    rewrite Hl. none_is_not_some.
Qed.

Lemma answered_located_chain (table : Symbol) (name0 : string) (scope : SymRef) :
  uniqueInChain table name0 scope = true ->
  answeredInChain table name0 scope = locatedInChain table name0 scope.
Proof.
  unfold uniqueInChain, answeredInChain, locatedInChain.
  induction scope as [|i up IH]; cbn [anyInChain]; intros H;
    apply negb_true_iff, orb_false_iff in H as [Hone Hup];
    apply negb_false_iff in Hone; rewrite (answer_located _ _ _ Hone).
  - reflexivity.
  - f_equal. apply IH. apply negb_true_iff. exact Hup.
Qed.

(** ** The scope lookup: lemmas *)

Lemma Symbol_nested_ind (P : Symbol -> Prop) :
  (forall c n ctx loc ch, Forall P ch -> P (mkSymbol c n ctx loc ch)) ->
  forall s, P s.
Proof.
  intros H. fix IH 1. intros [c n ctx loc ch]. apply H.
  induction ch as [|a ch IHch]; constructor; [apply IH | exact IHch].
Qed.

Lemma findRecursive_unfold (context0 : NodeId) (ref : SymRef) (symbol : Symbol) :
  findRecursive context0 ref symbol =
    if bool_decide (context symbol = Some context0) then Some ref
    else if instanceofScopedSymbol (cls symbol)
         then eachChild context0 ref 0 (children symbol)
         else None.
Proof. destruct symbol. reflexivity. Qed.

(** A symbol found by context is a symbol of the table, anchored there. *)
Lemma findRecursive_valid (table : Symbol) (context0 : NodeId) (symbol : Symbol) :
  forall ref r,
    deref table ref = Some symbol ->
    findRecursive context0 ref symbol = Some r ->
    exists s, deref table r = Some s /\ context s = Some context0.
Proof.
  induction symbol as [c n ctx loc ch IH] using Symbol_nested_ind.
  intros ref r Href. rewrite findRecursive_unfold. cbn [context cls children].
  case_bool_decide as Hc.
  - intros [= <-]. eauto.
  - destruct (instanceofScopedSymbol c); [|discriminate].
    assert (Hgen : forall pre l k,
               ch = (pre ++ l)%list -> length pre = k -> Forall
                 (fun symbol => forall ref r, deref table ref = Some symbol ->
                    findRecursive context0 ref symbol = Some r ->
                    exists s, deref table r = Some s /\ context s = Some context0) l ->
               eachChild context0 ref k l = Some r ->
               exists s, deref table r = Some s /\ context s = Some context0).
    { intros pre l. revert pre. induction l as [|a l IHl]; intros pre k Hch Hk Hall; cbn.
      - discriminate.
      - inversion Hall as [|? ? Ha Hl]; subst.
        destruct (findRecursive context0 (length pre :: ref) a) as [r'|] eqn:Hfa.
        + intros [= <-]. apply (Ha (length pre :: ref)); [|exact Hfa].
          cbn. rewrite Href. cbn. rewrite lookup_app_r by lia.
          replace (length pre - length pre)%nat with 0%nat by lia. reflexivity.
        + apply (IHl (pre ++ [a])%list).
          * rewrite <- app_assoc. reflexivity.
          * rewrite length_app. cbn. lia.
          * exact Hl. }
    apply (Hgen [] ch); auto.
Qed.

Lemma symbolWithContext_valid (symbolTable : SymbolTable.t) (node : ParseTree) (r : SymRef) :
  symbolWithContext symbolTable node = Some r ->
  exists s, deref (SymbolTable.self symbolTable) r = Some s /\ context s = Some (nodeId node).
Proof.
  unfold symbolWithContext.
  set (table := SymbolTable.self symbolTable).
  assert (Hgen : forall l pre,
             children table = (pre ++ l)%list ->
             eachChild (nodeId node) [] (length pre) l = Some r ->
             exists s, deref table r = Some s /\ context s = Some (nodeId node)).
  { induction l as [|a l IHl]; intros pre Hch; cbn; [discriminate|].
    destruct (findRecursive (nodeId node) [length pre] a) as [r'|] eqn:Hfa.
    - intros [= <-]. apply (findRecursive_valid _ _ a [length pre]); [|exact Hfa].
      cbn. rewrite Hch, lookup_app_r by lia.
      replace (length pre - length pre)%nat with 0%nat by lia. reflexivity.
    - intros H. apply (IHl (pre ++ [a])%list).
      + rewrite <- app_assoc. exact Hch.
      + rewrite length_app. cbn. replace (length pre + 1)%nat with (S (length pre)) by lia.
        exact H. }
  apply (Hgen (children table) []). reflexivity.
Qed.

Lemma getScope_valid (symbolTable : SymbolTable.t) (context0 : Context) (r : SymRef) :
  getScope context0 symbolTable = Some r ->
  exists s node, deref (SymbolTable.self symbolTable) r = Some s
                 /\ In node context0 /\ context s = Some (nodeId node).
Proof.
  induction context0 as [|node up IH]; cbn; [discriminate|].
  destruct (symbolWithContext symbolTable node) as [r'|] eqn:Hs.
  - intros [= <-]. apply symbolWithContext_valid in Hs as (s & Hd & Hc). eauto 6.
  - intros H. apply IH in H as (s & n & Hd & Hin & Hc). eauto 6.
Qed.

Lemma getScope_unanchored_None (symbolTable : SymbolTable.t) (context0 : Context) :
  unanchored symbolTable context0 = true <-> getScope context0 symbolTable = None.
Proof.
  unfold unanchored. induction context0 as [|node up IH]; cbn; [tauto|].
  destruct (symbolWithContext symbolTable node) as [r|].
  - rewrite bool_decide_eq_false_2 by discriminate. cbn. split; discriminate.
  - rewrite bool_decide_eq_true_2 by reflexivity. cbn. exact IH.
Qed.

(** ** The declaration lookup: statements *)

Lemma onDefinition_of_declaration (v : SymbolTableVisitor) (idx : Z)
      (node : ParseTree) (ancestors : Context) :
  onDefinition v (Some (mkTokenPosition idx (node :: ancestors))) =
    match findDeclaration (symbolTable v) (nodeText node)
                          (getScope (node :: ancestors) (symbolTable v)) with
    | Some d =>
        match deref (SymbolTable.self (symbolTable v)) d with
        | Some symbol =>
            match location symbol with
            | Some l =>
                match getRange node with
                | Ok r => Ok (Some (LocationLink.mk (LocationLink.targetUri l)
                                                    (LocationLink.targetRange l)
                                                    (LocationLink.targetSelectionRange l)
                                                    (Some r)))
                | Throw e => Throw e
                end
            | None => Ok None
            end
        | None => Ok None
        end
    | None => Ok None
    end.
Proof.
  unfold onDefinition.
  destruct (findDeclaration _ _ _) as [d|]; [|reflexivity].
  destruct (deref _ d) as [[c n ctx [l|] ch]|]; reflexivity.
Qed.

(** C2, as the code has it. When no node of the identifier's chain (the
    node itself and its ancestors) anchors a scope, [getScope] returns
    undefined, [findDeclaration] on an undefined scope returns undefined for
    every name without looking into any scope, and the definition request
    returns nothing. *)
Theorem unanchored_lookup_is_undefined (v : SymbolTableVisitor) (idx : Z)
        (node : ParseTree) (ancestors : Context) :
  unanchored (symbolTable v) (node :: ancestors) = true ->
  getScope (node :: ancestors) (symbolTable v) = None
  /\ (forall name0,
        findDeclaration (symbolTable v) name0
                        (getScope (node :: ancestors) (symbolTable v)) = None)
  /\ onDefinition v (Some (mkTokenPosition idx (node :: ancestors))) = Ok None.
Proof.
  intros H. apply getScope_unanchored_None in H.
  split; [exact H|]. split.
  - intros name0. rewrite H. reflexivity.
  - rewrite onDefinition_of_declaration, H. reflexivity.
Qed.

Lemma unanchored_lookup_is_undefined_witness :
  getScope Sample.cursorAtTop (symbolTable (snd Sample.built)) = None
  /\ Sample.lookup (snd Sample.built) Sample.cursorAtTop = Ok None.
Proof.
  destruct (unanchored_lookup_is_undefined (snd Sample.built) 0
              (TerminalNode 78 (Sample.tok 7 8 "x")) (tl Sample.cursorAtTop))
    as (H1 & _ & H2); [reflexivity|].
  split; [exact H1 | exact H2].
Defined.

(** C2, as stated, fails: the use of [x] in [val y = x] of the sample program
    has no scope anchor among its ancestors; searching the root scope (the
    visitor's file scope) would find the declaration of [x], but the lookup
    does not search it and the request returns nothing. (An earlier
    [findDeclaration] of the repository has a branch for this case, marked
    "Global scope": it looks through the symbols of the table, but does not
    return what it finds.) *)
Lemma root_scope_not_searched :
  let v := snd Sample.built in
  unanchored (symbolTable v) Sample.cursorAtTop = true
  /\ scope v = Some [0]%nat
  /\ findDeclaration (symbolTable v) "x" (scope v) = Some [0; 0]%nat
  /\ findDeclaration (symbolTable v) "x" (getScope Sample.cursorAtTop (symbolTable v)) = None
  /\ Sample.lookup v Sample.cursorAtTop = Ok None.
Proof. repeat split; reflexivity. Qed.

(** C4. When no scope on the chain of the scope [getScope] finds owns a
    symbol with the identifier's text as its name (and also when [getScope]
    finds no scope), [findDeclaration] returns undefined and the definition
    request returns an absent result; nothing is thrown. *)
Theorem unmatched_identifier_is_absent (v : SymbolTableVisitor) (idx : Z)
        (node : ParseTree) (ancestors : Context) :
  (forall s, getScope (node :: ancestors) (symbolTable v) = Some s ->
             namedInChain (SymbolTable.self (symbolTable v)) (nodeText node) s = false) ->
  findDeclaration (symbolTable v) (nodeText node)
                  (getScope (node :: ancestors) (symbolTable v)) = None
  /\ onDefinition v (Some (mkTokenPosition idx (node :: ancestors))) = Ok None.
Proof.
  intros H.
  assert (Hfd : findDeclaration (symbolTable v) (nodeText node)
                  (getScope (node :: ancestors) (symbolTable v)) = None).
  { destruct (getScope (node :: ancestors) (symbolTable v)) as [s|]; [|reflexivity].
    cbn [findDeclaration]. apply findDeclarationFrom_unnamed. apply H. reflexivity. }
  split; [exact Hfd|].
  rewrite onDefinition_of_declaration, Hfd. reflexivity.
Qed.

Lemma unmatched_identifier_is_absent_witness :
  getScope Sample.cursorOnZ (symbolTable (snd Sample.built)) = Some [2; 0]%nat
  /\ Sample.lookup (snd Sample.built) Sample.cursorOnZ = Ok None.
Proof.
  split; [reflexivity|].
  apply (unmatched_identifier_is_absent (snd Sample.built) 0
           (TerminalNode 66 (Sample.tok 6 13 "z")) (tl Sample.cursorOnZ)).
  intros s Hs. vm_compute in Hs. injection Hs as <-. reflexivity.
Defined.

(** ** The symbol builder: duplicate names *)

Lemma visit_unfold (id : NodeId) (kind : RuleKind) (start : Token.t)
      (stop : option Token.t) (children : list ParseTree) :
  visit (ParserRuleContext id kind start stop children) =
    let tree := ParserRuleContext id kind start stop children in
    match kind with
    | VariableDeclaration =>
        declarationName <- accessor SimpleIdentifier tree ;;
        current <- gets scope ;;
        symbol <- addNew ClsVariableSymbol current (nodeText declarationName) ;;
        registerDeclaration symbol tree declarationName ;;;
        visitChildren children
    | FunctionDeclaration =>
        fname <- accessor Identifier tree ;;
        withDeclaration tree fname ClsRoutineSymbol (nodeText fname) (visitChildren children)
    | _ => visitChildren children
    end.
Proof. destruct kind; reflexivity. Qed.

Lemma addNew_duplicate (v : SymbolTableVisitor) (t : SymbolClass) (current : SymRef)
      (s : Symbol) (name0 : string) :
  truthy (SymbolTableOptions.allowDuplicateSymbols (SymbolTable.options (symbolTable v))) = false ->
  deref (SymbolTable.self (symbolTable v)) current = Some s ->
  instanceofScopedSymbol (cls s) = true ->
  name0 <> "" ->
  hasNamed name0 (children s) = true ->
  addNew t (Some current) name0 v
  = (Throw (DuplicateSymbolError ("Attempt to add duplicate symbol '" ++ name0 ++ "'")), v).
Proof.
  intros Hopt Hs Hscoped Hname Hdup.
  unfold addNew, addNewSymbolOfType, addSymbol. rewrite Hs, Hscoped, Hopt. cbn [negb andb].
  assert (Hd : duplicateOf (newSymbol t name0) (children s) = true).
  { unfold duplicateOf, hasNamed in *. cbn [name newSymbol].
    apply String.eqb_neq in Hname. rewrite Hname. cbn [negb andb]. exact Hdup. }
  rewrite Hd. cbn [name newSymbol]. destruct v; reflexivity.
Qed.

(** ** Steps that preserve a relation on the state *)

Section Preserves.
Context {S : Type} (R : S -> S -> Prop).
Context (R_refl : forall s, R s s).
Context (R_trans : forall s1 s2 s3, R s1 s2 -> R s2 s3 -> R s1 s3).

Lemma preserves_ret {A} (a : A) : preserves R (ret a).
Proof. intros s. apply R_refl. Qed.

Lemma preserves_throw {A} (e : JsError) : preserves R (@throw S A e).
Proof. intros s. apply R_refl. Qed.

Lemma preserves_lift {A} (o : Outcome A) : preserves R (lift o).
Proof. intros s. apply R_refl. Qed.

Lemma preserves_gets {A} (f : S -> A) : preserves R (gets f).
Proof. intros s. apply R_refl. Qed.

Lemma preserves_update (f : S -> S) : (forall s, R s (f s)) -> preserves R (update f).
Proof. intros H s. apply H. Qed.

Lemma preserves_bind {A B} (m : M S A) (k : A -> M S B) :
  preserves R m -> (forall a, preserves R (k a)) -> preserves R (bind m k).
Proof.
  intros Hm Hk s. unfold bind. specialize (Hm s).
  destruct (m s) as [[a|e] s']; cbn in *.
  - eapply R_trans; [exact Hm | apply Hk].
  - exact Hm.
Qed.

Lemma preserves_tryFinally {A} (body : M S A) (cleanup : S -> S) :
  preserves R body -> (forall s, R s (cleanup s)) -> preserves R (tryFinally body cleanup).
Proof.
  intros Hb Hc s. unfold tryFinally. specialize (Hb s).
  destruct (body s) as [r s']; cbn in *. eapply R_trans; [exact Hb | apply Hc].
Qed.

Lemma preserves_tryCatch {A} (body : M S A) (handler : JsError -> M S A) :
  preserves R body -> (forall e, preserves R (handler e)) ->
  preserves R (tryCatch body handler).
Proof.
  intros Hb Hh s. unfold tryCatch. specialize (Hb s).
  destruct (body s) as [[a|e] s']; cbn in *.
  - exact Hb.
  - eapply R_trans; [exact Hb | apply Hh].
Qed.
End Preserves.

(** ** Locations recorded by the visitor *)

Lemma locatedBy_refl (u : DocumentUri) (t : Symbol) : locatedBy u t t.
Proof. intros ref s' l Hd Hl. right. eauto. Qed.

Lemma locatedBy_trans (u : DocumentUri) (t1 t2 t3 : Symbol) :
  locatedBy u t1 t2 -> locatedBy u t2 t3 -> locatedBy u t1 t3.
Proof.
  intros H12 H23 ref s' l Hd Hl.
  destruct (H23 ref s' l Hd Hl) as [Hu | (s & Hd2 & Hl2)]; [left; exact Hu|].
  exact (H12 ref s l Hd2 Hl2).
Qed.

Lemma deref_snoc (table : Symbol) (r : SymRef) (j : nat) :
  deref table (r ++ [j]) =
    match children table !! j with
    | Some c => deref c r
    | None => None
    end.
Proof. rewrite deref_app. reflexivity. Qed.

Lemma ref_cases (ref : SymRef) : ref = [] \/ exists r j, ref = (r ++ [j])%list.
Proof.
  destruct ref as [|i r] using rev_ind; [left; reflexivity | right; eauto].
Qed.

Lemma locatedBy_children (u : DocumentUri) (s : Symbol) (ch : list Symbol) :
  (forall j c', ch !! j = Some c' ->
                exists c, children s !! j = Some c /\ locatedBy u c c'
                \/ children s !! j = None /\ locatedBy u (newSymbol ClsSymbol "") c') ->
  locatedBy u s (mkSymbol (cls s) (name s) (context s) (location s) ch).
Proof.
  intros H ref s' l Hd Hl.
  destruct (ref_cases ref) as [-> | (r & j & ->)].
  - cbn in Hd. injection Hd as <-. cbn in Hl. right. exists s. auto.
  - rewrite deref_snoc in Hd. cbn [children] in Hd.
    destruct (ch !! j) as [c'|] eqn:Hj; [|discriminate].
    destruct (H j c' Hj) as (c & [(Hc & Hloc) | (Hc & Hloc)]).
    + destruct (Hloc r s' l Hd Hl) as [Hu | (s0 & Hd0 & Hl0)]; [left; exact Hu|].
      right. exists s0. rewrite deref_snoc, Hc. auto.
    + destruct (Hloc r s' l Hd Hl) as [Hu | (s0 & Hd0 & Hl0)]; [left; exact Hu|].
      exfalso. clear -Hd0 Hl0.
      destruct (ref_cases r) as [-> | (r' & k & ->)].
      * cbn in Hd0. injection Hd0 as <-. discriminate Hl0.
      * rewrite deref_snoc in Hd0. cbn in Hd0. discriminate Hd0.
Qed.

Lemma locatedBy_alter (u : DocumentUri) (f : Symbol -> Symbol) (i : nat) (s : Symbol) :
  (forall c, locatedBy u c (f c)) ->
  locatedBy u s (mkSymbol (cls s) (name s) (context s) (location s)
                          (alter f i (children s))).
Proof.
  intros Hf. apply locatedBy_children. intros j c' Hj.
  destruct (decide (i = j)) as [<- | Hne].
  - rewrite list_lookup_alter_eq in Hj.
    destruct (children s !! i) as [c|] eqn:Hc; cbn in Hj; [|discriminate Hj].
    injection Hj as <-. exists c. left. auto.
  - rewrite list_lookup_alter_ne in Hj by exact Hne.
    exists c'. left. split; [exact Hj | apply locatedBy_refl].
Qed.

Lemma locatedBy_modify (u : DocumentUri) (ref : SymRef) (f : Symbol -> Symbol)
      (table : Symbol) :
  (forall s, locatedBy u s (f s)) -> locatedBy u table (modify ref f table).
Proof.
  revert f. induction ref as [|i up IH]; intros f Hf; cbn [modify].
  - apply Hf.
  - apply IH. intros s. apply locatedBy_alter. exact Hf.
Qed.

Lemma locatedBy_setLocation (u : DocumentUri) (l : LocationLink.t) (s : Symbol) :
  LocationLink.targetUri l = u -> locatedBy u s (setLocation l s).
Proof.
  intros Hu ref s' l' Hd Hl.
  destruct (ref_cases ref) as [-> | (r & j & ->)].
  - cbn in Hd. injection Hd as <-. cbn in Hl. injection Hl as <-. left. exact Hu.
  - right. exists s'. rewrite deref_snoc in *. auto.
Qed.

Lemma locatedBy_setContext (u : DocumentUri) (c : NodeId) (s : Symbol) :
  locatedBy u s (setContext c s).
Proof.
  intros ref s' l' Hd Hl.
  destruct (ref_cases ref) as [-> | (r & j & ->)].
  - cbn in Hd. injection Hd as <-. cbn in Hl. right. exists s. auto.
  - right. exists s'. rewrite deref_snoc in *. auto.
Qed.

Lemma locatedBy_pushChild (u : DocumentUri) (t : SymbolClass) (n : string) (s : Symbol) :
  locatedBy u s (pushChild (newSymbol t n) s).
Proof.
  unfold pushChild. apply locatedBy_children. intros j c' Hj.
  destruct (decide (j < length (children s))%nat) as [Hlt | Hge].
  - rewrite lookup_app_l in Hj by exact Hlt.
    exists c'. left. split; [exact Hj | apply locatedBy_refl].
  - exists c'. right. split; [apply lookup_ge_None; lia|].
    rewrite lookup_app_r in Hj by lia.
    destruct (j - length (children s))%nat; cbn in Hj; [|discriminate].
    injection Hj as <-.
    intros ref s' l Hd Hl. exfalso.
    destruct (ref_cases ref) as [-> | (r' & k & ->)].
    + cbn in Hd. injection Hd as <-. discriminate Hl.
    + rewrite deref_snoc in Hd. cbn in Hd. discriminate Hd.
Qed.

Lemma registersIn_refl (u : DocumentUri) (v : SymbolTableVisitor) : registersIn u v v.
Proof. intros Hu. split; [exact Hu | apply locatedBy_refl]. Qed.

Lemma registersIn_trans (u : DocumentUri) (v1 v2 v3 : SymbolTableVisitor) :
  registersIn u v1 v2 -> registersIn u v2 v3 -> registersIn u v1 v3.
Proof.
  intros H12 H23 Hu. destruct (H12 Hu) as [Hu2 L12]. destruct (H23 Hu2) as [Hu3 L23].
  split; [exact Hu3 | eapply locatedBy_trans; eauto].
Qed.

Ltac sequence u :=
  repeat
    match goal with
    | |- preserves _ (bind _ _) =>
        apply (preserves_bind (registersIn u) (registersIn_trans u)); [|intros ?]
    | |- preserves _ (ret _) => apply (preserves_ret (registersIn u) (registersIn_refl u))
    | |- preserves _ (throw _) => apply (preserves_throw (registersIn u) (registersIn_refl u))
    | |- preserves _ (lift _) => apply (preserves_lift (registersIn u) (registersIn_refl u))
    | |- preserves _ (gets _) => apply (preserves_gets (registersIn u) (registersIn_refl u))
    end.

Lemma registersIn_modifySymbol (u : DocumentUri) (ref : SymRef) (f : Symbol -> Symbol) :
  (forall s, locatedBy u s (f s)) ->
  preserves (registersIn u) (update (modifySymbol ref f)).
Proof.
  intros Hf v Hu. cbn. split; [exact Hu | apply locatedBy_modify; exact Hf].
Qed.

Lemma registersIn_setScope (u : DocumentUri) (s : option SymRef) :
  preserves (registersIn u) (update (setScope s)).
Proof. intros v Hu. cbn. split; [exact Hu | apply locatedBy_refl]. Qed.

Lemma registersIn_addNew (u : DocumentUri) (t : SymbolClass) (p : option SymRef)
      (n : string) :
  preserves (registersIn u) (addNew t p n).
Proof.
  intros v Hu. unfold addNew, addNewSymbolOfType.
  set (target := match p with None => [] | Some q => q end).
  assert (Hsame : (match p with
                   | None => addSymbol (symbolTable v) [] (newSymbol t n)
                   | Some q => addSymbol (symbolTable v) q (newSymbol t n)
                   end) = addSymbol (symbolTable v) target (newSymbol t n)).
  { destruct p; reflexivity. }
  rewrite Hsame. unfold addSymbol.
  destruct (deref (SymbolTable.self (symbolTable v)) target) as [s|];
    [|cbn; split; [exact Hu | apply locatedBy_refl]].
  destruct (negb (instanceofScopedSymbol (cls s)));
    [cbn; split; [exact Hu | apply locatedBy_refl]|].
  destruct (negb _ && duplicateOf _ _);
    cbn; (split; [exact Hu|]); [apply locatedBy_refl|].
  apply locatedBy_modify. intros s0. apply locatedBy_pushChild.
Qed.

Lemma registersIn_registerDeclaration (u : DocumentUri) (symbol : SymRef)
      (tree declarationName : ParseTree) :
  preserves (registersIn u) (registerDeclaration symbol tree declarationName).
Proof.
  intros v Hu. unfold registerDeclaration, bind, gets, lift, update.
  destruct (getRange tree) as [r1|e1]; [|cbn; split; [exact Hu | apply locatedBy_refl]].
  destruct (getRange declarationName) as [r2|e2];
    cbn; (split; [exact Hu|]); [|apply locatedBy_refl].
  apply locatedBy_modify. intros s. apply locatedBy_setLocation. exact Hu.
Qed.

Lemma registersIn_withDeclaration (u : DocumentUri) (declaration declarationName : ParseTree)
      (type : SymbolClass) (n : string) (action : M SymbolTableVisitor unit) :
  preserves (registersIn u) action ->
  preserves (registersIn u) (withDeclaration declaration declarationName type n action).
Proof.
  intros Ha. unfold withDeclaration, withScope. sequence u.
  - apply registersIn_addNew.
  - apply registersIn_modifySymbol. intros s0. apply locatedBy_setContext.
  - apply registersIn_setScope.
  - apply (preserves_tryFinally (registersIn u) (registersIn_trans u)).
    + sequence u.
      match goal with
      | |- preserves _ (match ?current with _ => _ end) => destruct current as [s|]
      end; sequence u; [apply registersIn_registerDeclaration | exact Ha].
    + intros v Hu. cbn. split; [exact Hu | apply locatedBy_refl].
Qed.

Lemma ParseTree_nested_ind (P : ParseTree -> Prop) :
  (forall id symbol, P (TerminalNode id symbol)) ->
  (forall id kind start stop children,
      Forall P children -> P (ParserRuleContext id kind start stop children)) ->
  forall tree, P tree.
Proof.
  intros Hterminal Hrule. fix IH 1. intros [id kind start stop children | id symbol].
  - apply Hrule. induction children as [|c children IHc]; constructor;
      [apply IH | exact IHc].
  - apply Hterminal.
Qed.

Lemma registersIn_visitChildren (u : DocumentUri) (l : list ParseTree) :
  Forall (fun tree => preserves (registersIn u) (visit tree)) l ->
  preserves (registersIn u) (visitChildren l).
Proof.
  induction 1 as [|c l Hc Hl IH]; cbn [visitChildren]; sequence u; assumption.
Qed.

(** Whatever happens during the walk over a tree, the visitor keeps its
    document, and every location the walk records points into it. *)
Lemma registersIn_visit (u : DocumentUri) (tree : ParseTree) :
  preserves (registersIn u) (visit tree).
Proof.
  induction tree as [id symbol | id kind start stop children IH] using ParseTree_nested_ind.
  - cbn. sequence u.
  - apply (registersIn_visitChildren u) in IH.
    rewrite visit_unfold. cbn zeta.
    destruct kind; try exact IH;
      unfold accessor; destruct (ruleChild _ _); sequence u;
      first [ apply registersIn_addNew
            | apply registersIn_registerDeclaration
            | exact IH
            | apply registersIn_withDeclaration; exact IH ].
Qed.

(** ** Names within a scope *)

Lemma duplicateFree_children (s : Symbol) (ch : list Symbol) :
  uniqueNames ch ->
  (forall j c', ch !! j = Some c' -> duplicateFree c') ->
  duplicateFree (mkSymbol (cls s) (name s) (context s) (location s) ch).
Proof.
  intros Hunique Hchildren ref s' Hd.
  destruct (ref_cases ref) as [-> | (r & j & ->)].
  - cbn in Hd. injection Hd as <-. exact Hunique.
  - rewrite deref_snoc in Hd. cbn [children] in Hd.
    destruct (ch !! j) as [c'|] eqn:Hj; [|discriminate].
    exact (Hchildren j c' Hj r s' Hd).
Qed.

Lemma duplicateFree_child (s c : Symbol) (j : nat) :
  duplicateFree s -> children s !! j = Some c -> duplicateFree c.
Proof.
  intros Hs Hj ref s' Hd. apply (Hs (ref ++ [j])%list). rewrite deref_snoc, Hj. exact Hd.
Qed.

Lemma duplicateFree_alter (f : Symbol -> Symbol) (i : nat) (s : Symbol) :
  (forall c, name (f c) = name c) ->
  (forall c, children s !! i = Some c -> duplicateFree c -> duplicateFree (f c)) ->
  duplicateFree s ->
  duplicateFree (mkSymbol (cls s) (name s) (context s) (location s)
                          (alter f i (children s))).
Proof.
  intros Hname Hf Hs. apply duplicateFree_children.
  - intros a b ca cb Ha Hb Heq Hne.
    assert (Hold : forall k c', alter f i (children s) !! k = Some c' ->
                                exists c, children s !! k = Some c /\ name c' = name c).
    { intros k c' Hk. destruct (decide (i = k)) as [<- | Hik].
      - rewrite list_lookup_alter_eq in Hk.
        destruct (children s !! i) as [c|]; cbn in Hk; [|discriminate Hk].
        injection Hk as <-. eauto.
      - rewrite list_lookup_alter_ne in Hk by exact Hik. eauto. }
    destruct (Hold a ca Ha) as (ca0 & Ha0 & Hna). destruct (Hold b cb Hb) as (cb0 & Hb0 & Hnb).
    apply (Hs [] s eq_refl a b ca0 cb0); congruence.
  - intros j c' Hj. destruct (decide (i = j)) as [<- | Hij].
    + rewrite list_lookup_alter_eq in Hj.
      destruct (children s !! i) as [c|] eqn:Hc; cbn in Hj; [|discriminate Hj].
      injection Hj as <-. apply Hf; [reflexivity|]. eapply duplicateFree_child; eauto.
    + rewrite list_lookup_alter_ne in Hj by exact Hij. eapply duplicateFree_child; eauto.
Qed.

Lemma duplicateFree_modify (ref : SymRef) (f : Symbol -> Symbol) (table : Symbol) :
  (forall s, name (f s) = name s) ->
  (forall s, deref table ref = Some s -> duplicateFree s -> duplicateFree (f s)) ->
  duplicateFree table -> duplicateFree (modify ref f table).
Proof.
  revert f. induction ref as [|i up IH]; intros f Hname Hf Htable; cbn [modify].
  - apply Hf; [reflexivity | exact Htable].
  - apply IH; [reflexivity | | exact Htable].
    intros s Hs Hfree. apply duplicateFree_alter; auto.
    intros c Hc. apply Hf. cbn. rewrite Hs. exact Hc.
Qed.

Lemma duplicateFree_same_children (s s' : Symbol) :
  children s' = children s -> duplicateFree s -> duplicateFree s'.
Proof.
  intros Hch Hs ref x Hd. destruct (ref_cases ref) as [-> | (r & j & ->)].
  - cbn in Hd. injection Hd as <-. rewrite Hch. apply (Hs [] s). reflexivity.
  - apply (Hs (r ++ [j])%list). rewrite deref_snoc in *. rewrite <- Hch. exact Hd.
Qed.

Lemma duplicateFree_pushChild (t : SymbolClass) (n : string) (s : Symbol) :
  duplicateOf (newSymbol t n) (children s) = false ->
  duplicateFree s -> duplicateFree (pushChild (newSymbol t n) s).
Proof.
  intros Hdup Hs. unfold pushChild. apply duplicateFree_children.
  - assert (Hfresh : forall k c, children s !! k = Some c -> n <> "" -> name c <> n).
    { intros k c Hk Hne Heq. unfold duplicateOf in Hdup. cbn [name newSymbol] in Hdup.
      apply String.eqb_neq in Hne. rewrite Hne in Hdup. cbn [negb andb] in Hdup.
      assert (Hex : existsb (fun child => String.eqb (name child) n) (children s) = true).
      { apply existsb_exists. exists c. split.
        - apply list_elem_of_In. apply list_elem_of_lookup. eauto.
        - apply String.eqb_eq. exact Heq. }
      congruence. }
    intros a b ca cb Ha Hb Heq Hne.
    destruct (decide (a < length (children s))%nat) as [Hla | Hla];
      destruct (decide (b < length (children s))%nat) as [Hlb | Hlb].
    + rewrite lookup_app_l in Ha, Hb by assumption. apply (Hs [] s eq_refl a b ca cb); auto.
    + rewrite lookup_app_l in Ha by assumption. rewrite lookup_app_r in Hb by lia.
      destruct (b - length (children s))%nat; cbn in Hb; [|discriminate Hb].
      injection Hb as <-. cbn [name newSymbol] in Heq. exfalso.
      apply (Hfresh a ca Ha); congruence.
    + rewrite lookup_app_l in Hb by assumption. rewrite lookup_app_r in Ha by lia.
      destruct (a - length (children s))%nat; cbn in Ha; [|discriminate Ha].
      injection Ha as <-. cbn [name newSymbol] in Heq, Hne. exfalso.
      apply (Hfresh b cb Hb); congruence.
    + rewrite lookup_app_r in Ha, Hb by lia.
      destruct (a - length (children s))%nat eqn:Ea; cbn in Ha; [|discriminate Ha].
      destruct (b - length (children s))%nat eqn:Eb; cbn in Hb; [|discriminate Hb].
      lia.
  - intros j c' Hj. destruct (decide (j < length (children s))%nat) as [Hlt | Hge].
    + rewrite lookup_app_l in Hj by exact Hlt. eapply duplicateFree_child; eauto.
    + rewrite lookup_app_r in Hj by lia.
      destruct (j - length (children s))%nat; cbn in Hj; [|discriminate Hj].
      injection Hj as <-. intros ref x Hd.
      destruct (ref_cases ref) as [-> | (r & k & ->)].
      * cbn in Hd. injection Hd as <-. cbn. intros a b ca cb Ha. discriminate Ha.
      * rewrite deref_snoc in Hd. cbn in Hd. discriminate Hd.
Qed.

Lemma refusesDuplicates_refl (v : SymbolTableVisitor) : refusesDuplicates v v.
Proof. intros Ho Hf. auto. Qed.

Lemma refusesDuplicates_trans (v1 v2 v3 : SymbolTableVisitor) :
  refusesDuplicates v1 v2 -> refusesDuplicates v2 v3 -> refusesDuplicates v1 v3.
Proof. intros H12 H23 Ho Hf. destruct (H12 Ho Hf) as [Ho2 Hf2]. exact (H23 Ho2 Hf2). Qed.

Ltac steps :=
  repeat
    match goal with
    | |- preserves _ (bind _ _) =>
        apply (preserves_bind refusesDuplicates refusesDuplicates_trans); [|intros ?]
    | |- preserves _ (ret _) => apply (preserves_ret refusesDuplicates refusesDuplicates_refl)
    | |- preserves _ (throw _) => apply (preserves_throw refusesDuplicates refusesDuplicates_refl)
    | |- preserves _ (lift _) => apply (preserves_lift refusesDuplicates refusesDuplicates_refl)
    | |- preserves _ (gets _) => apply (preserves_gets refusesDuplicates refusesDuplicates_refl)
    end.

Lemma refusesDuplicates_relocate (ref : SymRef) (f : Symbol -> Symbol) :
  (forall s, name (f s) = name s) -> (forall s, children (f s) = children s) ->
  preserves refusesDuplicates (update (modifySymbol ref f)).
Proof.
  intros Hname Hch v Ho Hfree. cbn. split; [exact Ho|].
  apply duplicateFree_modify; auto.
  intros s _. apply duplicateFree_same_children. apply Hch.
Qed.

Lemma refusesDuplicates_setScope (s : option SymRef) :
  preserves refusesDuplicates (update (setScope s)).
Proof. intros v Ho Hfree. cbn. auto. Qed.

Lemma refusesDuplicates_addNew (t : SymbolClass) (p : option SymRef) (n : string) :
  preserves refusesDuplicates (addNew t p n).
Proof.
  intros v Ho Hfree. unfold addNew, addNewSymbolOfType.
  set (target := match p with None => [] | Some q => q end).
  assert (Hsame : (match p with
                   | None => addSymbol (symbolTable v) [] (newSymbol t n)
                   | Some q => addSymbol (symbolTable v) q (newSymbol t n)
                   end) = addSymbol (symbolTable v) target (newSymbol t n)).
  { destruct p; reflexivity. }
  rewrite Hsame. unfold addSymbol. rewrite Ho. cbn [negb andb].
  destruct (deref (SymbolTable.self (symbolTable v)) target) as [s|] eqn:Hs; [|cbn; auto].
  destruct (negb (instanceofScopedSymbol (cls s))); [cbn; auto|].
  destruct (duplicateOf (newSymbol t n) (children s)) eqn:Hdup; cbn; [auto|].
  split; [exact Ho|].
  apply duplicateFree_modify; [reflexivity | | exact Hfree].
  intros s0 Hs0 Hfree0. rewrite Hs in Hs0. injection Hs0 as <-.
  apply duplicateFree_pushChild; assumption.
Qed.

Lemma refusesDuplicates_registerDeclaration (symbol : SymRef)
      (tree declarationName : ParseTree) :
  preserves refusesDuplicates (registerDeclaration symbol tree declarationName).
Proof.
  unfold registerDeclaration. steps.
  apply refusesDuplicates_relocate; reflexivity.
Qed.

Lemma refusesDuplicates_withDeclaration (declaration declarationName : ParseTree)
      (type : SymbolClass) (n : string) (action : M SymbolTableVisitor unit) :
  preserves refusesDuplicates action ->
  preserves refusesDuplicates (withDeclaration declaration declarationName type n action).
Proof.
  intros Ha. unfold withDeclaration, withScope. steps.
  - apply refusesDuplicates_addNew.
  - apply refusesDuplicates_relocate; reflexivity.
  - apply refusesDuplicates_setScope.
  - apply (preserves_tryFinally refusesDuplicates refusesDuplicates_trans).
    + steps.
      match goal with
      | |- preserves _ (match ?current with _ => _ end) => destruct current as [s|]
      end; steps; [apply refusesDuplicates_registerDeclaration | exact Ha].
    + intros v Ho Hfree. cbn. auto.
Qed.

Lemma refusesDuplicates_visitChildren (l : list ParseTree) :
  Forall (fun tree => preserves refusesDuplicates (visit tree)) l ->
  preserves refusesDuplicates (visitChildren l).
Proof.
  induction 1 as [|c l Hc Hl IH]; cbn [visitChildren]; steps; assumption.
Qed.

(** However the walk over a tree ends, a table that refuses duplicates and
    was free of them is still free of them. *)
Lemma refusesDuplicates_visit (tree : ParseTree) :
  preserves refusesDuplicates (visit tree).
Proof.
  induction tree as [id symbol | id kind start stop kids IH] using ParseTree_nested_ind.
  - cbn. steps.
  - apply refusesDuplicates_visitChildren in IH.
    rewrite visit_unfold. cbn zeta.
    destruct kind; try exact IH;
      unfold accessor; destruct (ruleChild _ _); steps;
      first [ apply refusesDuplicates_addNew
            | apply refusesDuplicates_registerDeclaration
            | exact IH
            | apply refusesDuplicates_withDeclaration; exact IH ].
Qed.

Lemma duplicateFree_new (uri0 : DocumentUri) (options : SymbolTableOptions.t) :
  duplicateFree (SymbolTable.self (symbolTable (atFileScope uri0 options []))).
Proof.
  apply (duplicateFree_children (mkSymbol ClsSymbolTable "" None None [])).
  - intros [|i] [|j] ci cj Hi Hj; cbn in Hi, Hj; try discriminate; reflexivity.
  - intros [|j] c' Hj; cbn in Hj; [|discriminate Hj]. injection Hj as <-.
    apply (duplicateFree_children (mkSymbol ClsScopedSymbol "" None None [])).
    + intros i j ci cj Hi. discriminate Hi.
    + intros j c' Hj. discriminate Hj.
Qed.

(** C3, as the code has it. The visitor's table is created with the options
    [{}], which do not allow duplicate symbols: registering a symbol whose
    non-empty name a symbol of the current scope already has throws a
    [DuplicateSymbolError], for a variable declaration before anything of it
    is recorded, and the visitor with its table stays as it was. So however
    a walk that started from a new visitor ends, no scope of its table owns
    two symbols of one non-empty name. In a scope that does own several
    symbols of one name, the lookup picks the one that was added first: no
    symbol before the picked one has that name. *)
Theorem duplicate_name_is_rejected_first_is_picked :
  (forall (v : SymbolTableVisitor) (current : SymRef) (s : Symbol) (name0 : string),
      truthy (SymbolTableOptions.allowDuplicateSymbols
                (SymbolTable.options (symbolTable v))) = false ->
      scope v = Some current ->
      deref (SymbolTable.self (symbolTable v)) current = Some s ->
      instanceofScopedSymbol (cls s) = true ->
      name0 <> "" ->
      hasNamed name0 (children s) = true ->
      (forall t, addNew t (scope v) name0 v
                 = (Throw (DuplicateSymbolError
                             ("Attempt to add duplicate symbol '" ++ name0 ++ "'")), v))
      /\ forall id start stop children declarationName,
           ruleChild SimpleIdentifier children = Some declarationName ->
           nodeText declarationName = name0 ->
           visit (ParserRuleContext id VariableDeclaration start stop children) v
           = (Throw (DuplicateSymbolError
                       ("Attempt to add duplicate symbol '" ++ name0 ++ "'")), v))
  /\ (forall (uri0 : DocumentUri) (file : ParseTree),
         duplicateFree
           (SymbolTable.self
              (symbolTable (snd (visit file (atFileScope uri0 SymbolTableOptions.empty []))))))
  /\ (forall (table : Symbol) (name0 : string) (scope0 : SymRef) (i : nat) (symbol : Symbol),
         selected table name0 scope0 = Some (i, symbol) ->
         childrenAt table scope0 !! i = Some symbol
         /\ name symbol = name0
         /\ forall j c, (j < i)%nat -> childrenAt table scope0 !! j = Some c -> name c <> name0).
Proof.
  split.
  - intros v current s name0 Hopt Hscope Hs Hscoped Hname Hdup.
    assert (Hadd : forall t, addNew t (scope v) name0 v
                 = (Throw (DuplicateSymbolError
                             ("Attempt to add duplicate symbol '" ++ name0 ++ "'")), v)).
    { intros t. rewrite Hscope. eapply addNew_duplicate; eauto. }
    split; [exact Hadd|].
    intros id start stop children declarationName Hchild Htext.
    rewrite visit_unfold. cbn zeta.
    unfold accessor. cbn [childrenOf]. rewrite Hchild.
    unfold bind at 1. unfold ret at 1. unfold bind at 1. unfold gets at 1.
    unfold bind at 1. rewrite Htext, Hadd. reflexivity.
  - split.
    + intros uri0 file.
      apply (refusesDuplicates_visit file (atFileScope uri0 SymbolTableOptions.empty []));
        [reflexivity | apply duplicateFree_new].
    + intros table name0 scope0 i symbol. unfold selected, childrenAt.
      destruct (deref table scope0) as [s|]; [|discriminate].
      destruct (instanceofScopedSymbol (cls s)); [|discriminate].
      intros H. apply findNamed_spec in H as (_ & Hi & Hn & Hbefore).
      replace (i - 0)%nat with i in * by lia. auto.
Qed.

Lemma duplicate_name_is_rejected_first_is_picked_witness :
  let inside :=
    setScope (Some [0; 0]%nat)
             (snd (Sample.build (SymbolTable.new "" SymbolTableOptions.empty) Sample.twice)) in
  visit (ParserRuleContext 122 VariableDeclaration (Sample.tok 3 6 "x")
           (Some (Sample.tok 3 6 "x"))
           [Sample.ident SimpleIdentifier 123 (Sample.tok 3 6 "x")]) inside
  = (Throw (DuplicateSymbolError "Attempt to add duplicate symbol 'x'"), inside).
Proof.
  intros inside.
  destruct duplicate_name_is_rejected_first_is_picked as [Hreject _].
  destruct (Hreject inside [0; 0]%nat
              (mkSymbol ClsRoutineSymbol "h" (Some 100%nat)
                 (Some (LocationLink.create "file:///main.mykt"
                          (Range.mk (Position.mk 0 0) (Position.mk 4 1)) (Sample.span 0 4)))
                 [mkSymbol ClsVariableSymbol "x" None
                    (Some (LocationLink.create "file:///main.mykt"
                             (Sample.span 1 6) (Sample.span 1 6))) []])
              "x") as [_ Hvisit];
    [reflexivity | reflexivity | reflexivity | reflexivity | discriminate | reflexivity |].
  exact (Hvisit 122%nat (Sample.tok 3 6 "x") (Some (Sample.tok 3 6 "x"))
           [Sample.ident SimpleIdentifier 123 (Sample.tok 3 6 "x")]
           (Sample.ident SimpleIdentifier 123 (Sample.tok 3 6 "x"))
           eq_refl eq_refl).
Defined.

(** C3, as stated, fails. With the table the visitor creates, the walk over
    a routine that declares [x] twice throws at the second declaration. With
    a table created to allow duplicates the walk completes, and a use of [x]
    resolves to the first declaration (line 1), not to the last (line 2). *)
Lemma second_declaration_does_not_win :
  fst (Sample.build (SymbolTable.new "" SymbolTableOptions.empty) Sample.twice)
  = Throw (DuplicateSymbolError "Attempt to add duplicate symbol 'x'")
  /\ fst (Sample.build Sample.permissive Sample.twice) = Ok tt
  /\ Sample.lookup (snd (Sample.build Sample.permissive Sample.twice)) Sample.cursorInH
     = Ok (Some (LocationLink.mk "file:///main.mykt" (Sample.span 1 6) (Sample.span 1 6)
                                 (Some (Sample.span 3 2)))).
Proof. repeat split; reflexivity. Qed.

Lemma uniqueNames_atMostOne (name0 : string) (l : list Symbol) :
  name0 <> "" -> uniqueNames l -> atMostOneNamed name0 l = true.
Proof.
  intros Hne. unfold atMostOneNamed. induction l as [|c l IH]; intros Hu; [reflexivity|].
  assert (Hl : uniqueNames l).
  { intros i j ci cj Hi Hj Heq Hn. assert (S i = S j) by (eapply Hu; eauto). lia. }
  cbn [List.filter]. destruct (String.eqb (name c) name0) eqn:E.
  - apply String.eqb_eq in E.
    assert (Hnone : List.filter (fun c0 => String.eqb (name c0) name0) l = []).
    { clear IH Hl. destruct (List.filter _ l) as [|d rest] eqn:Hf; [reflexivity|]. exfalso.
      assert (Hd : In d (List.filter (fun c0 => String.eqb (name c0) name0) l))
        by (rewrite Hf; left; reflexivity).
      apply List.filter_In in Hd as [Hin Hname]. apply String.eqb_eq in Hname.
      apply list_elem_of_In, list_elem_of_lookup in Hin as [k Hk].
      assert (0%nat = S k); [|lia].
      apply (Hu 0%nat (S k) c d); cbn; auto; congruence. }
    rewrite Hnone. reflexivity.
  - apply IH. exact Hl.
Qed.

Lemma duplicateFree_uniqueInChain (table : Symbol) (name0 : string) (scope : SymRef) :
  name0 <> "" -> duplicateFree table -> uniqueInChain table name0 scope = true.
Proof.
  intros Hne Hfree. unfold uniqueInChain. apply negb_true_iff.
  assert (Hone : forall p, negb (atMostOneNamed name0 (childrenAt table p)) = false).
  { intros p. apply negb_false_iff. unfold childrenAt.
    destruct (deref table p) as [s|] eqn:Hs; [|reflexivity].
    apply uniqueNames_atMostOne; [exact Hne | exact (Hfree p s Hs)]. }
  induction scope as [|i up IH]; cbn [anyInChain]; rewrite Hone; [reflexivity | exact IH].
Qed.

(** C10. On a scope of the table, [findDeclaration] returns only symbols
    that have a location and the wanted name. When the symbol it picks in a
    scope (the first one of that name) has no location, it continues with the
    parent scope. It returns undefined exactly when no scope of the chain
    answers with a located pick; and, names being unique within each scope of
    the chain, exactly when no scope of the chain owns a located symbol of
    that name. Names are unique in this way for every non-empty name in a
    table without duplicates, as the visitor's are. *)
Theorem findDeclaration_only_located (symbolTable : SymbolTable.t) (name0 : string)
        (scope : SymRef) :
  let table := SymbolTable.self symbolTable in
  is_Some (deref table scope) ->
  (forall r, findDeclaration symbolTable name0 (Some scope) = Some r ->
             exists symbol l, deref table r = Some symbol
                              /\ name symbol = name0 /\ location symbol = Some l)
  /\ (forall i symbol,
        selected table name0 scope = Some (i, symbol) -> location symbol = None ->
        findDeclaration symbolTable name0 (Some scope)
        = findDeclaration symbolTable name0 (parent scope))
  /\ (findDeclaration symbolTable name0 (Some scope) = None
      <-> answeredInChain table name0 scope = false)
  /\ (uniqueInChain table name0 scope = true ->
      (findDeclaration symbolTable name0 (Some scope) = None
       <-> locatedInChain table name0 scope = false))
  /\ (name0 <> "" -> duplicateFree table -> uniqueInChain table name0 scope = true).
Proof.
  intros table Hv. cbn [findDeclaration]. fold table. repeat split.
  - intros r H. apply findDeclarationFrom_Some in H as (skipped & hit & _ & H).
    apply answer_spec in H as (i & symbol & l & _ & Hd & Hn & Hl & _). eauto.
  - intros i symbol Hsel Hloc. rewrite findDeclarationFrom_unfold.
    destruct Hv as [s Hs]. rewrite Hs. unfold answer, isLocated. rewrite Hsel, Hloc.
    destruct scope; reflexivity.
  - apply findDeclarationFrom_None. exact Hv.
  - apply findDeclarationFrom_None. exact Hv.
  - rewrite <- (answered_located_chain table name0 scope) by assumption.
    apply findDeclarationFrom_None. exact Hv.
  - rewrite <- (answered_located_chain table name0 scope) by assumption.
    apply findDeclarationFrom_None. exact Hv.
  - apply duplicateFree_uniqueInChain.
Qed.

Lemma findDeclaration_only_located_witness :
  findDeclaration Sample.halfRegistered "x" (Some [1; 0]%nat)
  = findDeclaration Sample.halfRegistered "x" (Some [0]%nat)
  /\ findDeclaration Sample.halfRegistered "x" (Some [1; 0]%nat) = Some [0; 0]%nat.
Proof.
  destruct (findDeclaration_only_located Sample.halfRegistered "x" [1; 0]%nat)
    as (_ & Hcontinue & _); [vm_compute; eauto|].
  split; [|reflexivity].
  apply (Hcontinue 0%nat (mkSymbol ClsVariableSymbol "x" None None [])); reflexivity.
Defined.

(** ** Import processing: statements *)

Lemma forEachImport_app (host : Host) (baseUri basePath : string)
      (before rest : list ParseTree) (w : World) :
  forEachImport host baseUri basePath (before ++ rest) w =
    match forEachImport host baseUri basePath before w with
    | (Ok _, w1) => forEachImport host baseUri basePath rest w1
    | (Throw e, w1) => (Throw e, w1)
    end.
Proof.
  revert w. induction before as [|i before IH]; intros w; cbn [forEachImport app].
  - reflexivity.
  - unfold bind.
    destruct (processImportHeader host baseUri basePath i w) as [[[]|e] w1]; [apply IH | reflexivity].
Qed.

Lemma processImport_completes (host : Host) (path : string) (w : World) :
  fst (processImport host path w) = Ok tt.
Proof.
  unfold processImport, tryCatch.
  destruct (bind _ _ w) as [[[]|e] w1]; reflexivity.
Qed.

Lemma processImportHeader_completes (host : Host) (baseUri basePath : string)
      (import : ParseTree) (w : World) :
  is_Some (ruleChild Identifier (childrenOf import)) ->
  fst (processImportHeader host baseUri basePath import w) = Ok tt.
Proof.
  intros [identifier Hid]. unfold processImportHeader, accessor. rewrite Hid.
  unfold bind at 1. unfold ret at 1.
  destruct (existsSync host _); [|reflexivity].
  unfold bind, onVisitor, update. cbn. apply processImport_completes.
Qed.

Lemma forEachImport_completes (host : Host) (baseUri basePath : string)
      (imports : list ParseTree) (w : World) :
  Forall (fun import => is_Some (ruleChild Identifier (childrenOf import))) imports ->
  fst (forEachImport host baseUri basePath imports w) = Ok tt.
Proof.
  intros Hall. revert w. induction Hall as [|i imports Hi Hall IH]; intros w; cbn [forEachImport].
  - reflexivity.
  - unfold bind. pose proof (processImportHeader_completes host baseUri basePath i w Hi) as H.
    destruct (processImportHeader host baseUri basePath i w) as [[[]|e] w1]; cbn in H;
      [apply IH | discriminate H].
Qed.

(** C5. When the file an import resolves to does not exist, the turn of
    the loop for that import shows the message "Imported file not found:"
    with the path (through [showErrorMessage]), leaves the visitor and its
    symbol table untouched and completes normally; [processImports] then goes
    on with the remaining imports from that state. When every import header
    has its identifier, [processImports] as a whole completes normally. *)
Theorem missing_import_is_reported_and_skipped (host : Host)
        (before rest : list ParseTree) (import identifier : ParseTree)
        (basePath : string) (w : World) :
  let uri0 := documentUri (visitor w) in
  let baseUri := computeBaseUri uri0 in
  let filepath := basePath ++ nodeText identifier ++ ".mykt" in
  let report := fun w0 : World =>
    mkWorld (visitor w0) (shown w0 ++ ["Imported file not found: " ++ filepath]) (logged w0) in
  ensurePath host baseUri = Ok basePath ->
  ruleChild Identifier (childrenOf import) = Some identifier ->
  existsSync host filepath = false ->
  (forall w0, processImportHeader host baseUri basePath import w0 = (Ok tt, report w0))
  /\ processImports host (before ++ import :: rest) w
     = match forEachImport host baseUri basePath before w with
       | (Ok _, w1) =>
           (forEachImport host baseUri basePath rest ;;;
            onVisitor (update (setDocumentUri uri0))) (report w1)
       | (Throw e, w1) => (Throw e, w1)
       end
  /\ (Forall (fun i => is_Some (ruleChild Identifier (childrenOf i))) (before ++ rest) ->
      fst (processImports host (before ++ import :: rest) w) = Ok tt).
Proof.
  intros uri0 baseUri filepath report Hpath Hid Hmissing.
  assert (Hstep : forall w0,
             processImportHeader host baseUri basePath import w0 = (Ok tt, report w0)).
  { intros w0. unfold processImportHeader, accessor. rewrite Hid.
    unfold bind at 1. unfold ret at 1. fold filepath. rewrite Hmissing. reflexivity. }
  assert (Hall : processImports host (before ++ import :: rest) w
     = match forEachImport host baseUri basePath before w with
       | (Ok _, w1) =>
           (forEachImport host baseUri basePath rest ;;;
            onVisitor (update (setDocumentUri uri0))) (report w1)
       | (Throw e, w1) => (Throw e, w1)
       end).
  { unfold processImports. unfold bind at 1. unfold gets at 1. fold uri0 baseUri.
    unfold bind at 1. unfold lift at 1. rewrite Hpath.
    unfold bind at 1. rewrite forEachImport_app.
    destruct (forEachImport host baseUri basePath before w) as [[[]|e] w1]; [|reflexivity].
    cbn [forEachImport]. unfold bind at 1. rewrite Hstep. reflexivity. }
  split; [exact Hstep|]. split; [exact Hall|].
  intros Hids. rewrite Hall.
  apply Forall_app in Hids as [Hbefore Hrest].
  pose proof (forEachImport_completes host baseUri basePath before w Hbefore) as Hb.
  destruct (forEachImport host baseUri basePath before w) as [[[]|e] w1]; cbn in Hb;
    [|discriminate Hb].
  unfold bind.
  pose proof (forEachImport_completes host baseUri basePath rest (report w1) Hrest) as Hr.
  destruct (forEachImport host baseUri basePath rest (report w1)) as [[[]|e] w2]; cbn in Hr;
    [reflexivity | discriminate Hr].
Qed.

Lemma missing_import_is_reported_and_skipped_witness :
  processImports Sample.host [Sample.importMissing; Sample.importLib] Sample.importing
  = (forEachImport Sample.host "file:///ws/" "/ws/" [Sample.importLib] ;;;
     onVisitor (update (setDocumentUri Sample.mainUri)))
      (mkWorld (visitor Sample.importing)
               ["Imported file not found: /ws/missing.mykt"] []).
Proof.
  destruct (missing_import_is_reported_and_skipped Sample.host [] [Sample.importLib]
              Sample.importMissing
              (Sample.ident Identifier 304 (Sample.tok 1 7 "missing"))
              "/ws/" Sample.importing) as (_ & H & _);
    [reflexivity | reflexivity | reflexivity |].
  exact H.
Defined.

Lemma registersIn_processImport (host : Host) (path : string) (u : DocumentUri) (w : World) :
  registersIn u (visitor w) (visitor (snd (processImport host path w))).
Proof.
  unfold processImport, tryCatch, bind, lift.
  destruct (readFileSync host path) as [data|e]; [|cbn; apply registersIn_refl].
  unfold onVisitor.
  pose proof (registersIn_visit u (kotlinFile host data) (visitor w)) as Hv.
  destruct (visit (kotlinFile host data) (visitor w)) as [[[]|e] v']; cbn in *; exact Hv.
Qed.

(** ** The symbol builder: what a completed walk builds *)

Lemma bind_Ok {S A B} (m : M S A) (k : A -> M S B) (s s' : S) (b : B) :
  bind m k s = (Ok b, s') ->
  exists a s1, m s = (Ok a, s1) /\ k a s1 = (Ok b, s').
Proof.
  unfold bind. destruct (m s) as [[a|e] s1]; [eauto | discriminate].
Qed.

Lemma modify_ext (ref : SymRef) (f g : Symbol -> Symbol) (table : Symbol) :
  (forall s, deref table ref = Some s -> f s = g s) ->
  modify ref f table = modify ref g table.
Proof.
  revert f g. induction ref as [|i up IH]; intros f g H; cbn [modify].
  - apply H. reflexivity.
  - apply IH. intros s Hs. f_equal. apply list_alter_ext; [|reflexivity].
    intros c Hc. apply H. cbn. rewrite Hs. exact Hc.
Qed.

Lemma modify_id (ref : SymRef) (f : Symbol -> Symbol) (table : Symbol) :
  (forall s, f s = s) -> modify ref f table = table.
Proof.
  revert f. induction ref as [|i up IH]; intros f H; cbn [modify].
  - apply H.
  - apply IH. intros [c n x lo ch]. cbn. f_equal. apply list_alter_id. exact H.
Qed.

Lemma modify_modify (ref : SymRef) (f g : Symbol -> Symbol) (table : Symbol) :
  modify ref g (modify ref f table) = modify ref (fun s => g (f s)) table.
Proof.
  revert f g. induction ref as [|i up IH]; intros f g; cbn [modify].
  - reflexivity.
  - rewrite IH. apply modify_ext. intros s _. cbn. f_equal.
    apply list_alter_alter_eq.
Qed.

Lemma deref_modify (ref : SymRef) (f : Symbol -> Symbol) (table : Symbol) :
  deref (modify ref f table) ref = f <$> deref table ref.
Proof.
  revert f. induction ref as [|i up IH]; intros f; cbn [modify deref].
  - reflexivity.
  - rewrite IH. destruct (deref table up) as [s|]; cbn; [|reflexivity].
    apply list_lookup_alter_eq.
Qed.

Lemma modify_child (i : nat) (up : SymRef) (f : Symbol -> Symbol) (table : Symbol) :
  modify (i :: up) f table
  = modify up (fun s => mkSymbol (cls s) (name s) (context s) (location s)
                                 (alter f i (children s))) table.
Proof. reflexivity. Qed.

(** Updating the child a scope was just given is giving it the updated child. *)
Lemma modify_pushed (up : SymRef) (g : Symbol -> Symbol) (c s : Symbol) (table : Symbol) :
  deref table up = Some s ->
  modify (length (children s) :: up) g (modify up (pushChild c) table)
  = modify up (pushChild (g c)) table.
Proof.
  intros Hs. rewrite modify_child, modify_modify. apply modify_ext.
  intros s0 Hs0. rewrite Hs in Hs0. injection Hs0 as <-.
  unfold pushChild. cbn. f_equal.
  rewrite alter_app_r_alt by lia. replace (length (children s) - length (children s))%nat
    with 0%nat by lia. reflexivity.
Qed.

Lemma appendChildren_nil (s : Symbol) : appendChildren [] s = s.
Proof. destruct s. unfold appendChildren. cbn. rewrite app_nil_r. reflexivity. Qed.

Lemma appendChildren_app (l1 l2 : list Symbol) (s : Symbol) :
  appendChildren l2 (appendChildren l1 s) = appendChildren (l1 ++ l2) s.
Proof. unfold appendChildren. cbn. rewrite app_assoc. reflexivity. Qed.

Lemma modifySymbol_modifySymbol (ref : SymRef) (f g : Symbol -> Symbol)
      (v : SymbolTableVisitor) :
  modifySymbol ref g (modifySymbol ref f v) = modifySymbol ref (fun s => g (f s)) v.
Proof. unfold modifySymbol, setSymbolTable. cbn. rewrite modify_modify. reflexivity. Qed.

Lemma modifySymbol_ext (ref : SymRef) (f g : Symbol -> Symbol) (v : SymbolTableVisitor) :
  (forall s, deref (SymbolTable.self (symbolTable v)) ref = Some s -> f s = g s) ->
  modifySymbol ref f v = modifySymbol ref g v.
Proof.
  intros H. unfold modifySymbol. rewrite (modify_ext ref f g) by exact H. reflexivity.
Qed.

Lemma addNew_Ok (t : SymbolClass) (cur : SymRef) (n : string)
      (v v' : SymbolTableVisitor) (r : SymRef) (s : Symbol) :
  deref (SymbolTable.self (symbolTable v)) cur = Some s ->
  addNew t (Some cur) n v = (Ok r, v') ->
  r = length (children s) :: cur
  /\ v' = modifySymbol cur (pushChild (newSymbol t n)) v
  /\ (truthy (SymbolTableOptions.allowDuplicateSymbols (SymbolTable.options (symbolTable v)))
      || negb (duplicateOf (newSymbol t n) (children s))) = true.
Proof.
  intros Hs. unfold addNew, addNewSymbolOfType, addSymbol. rewrite Hs.
  destruct (negb (instanceofScopedSymbol (cls s))); [discriminate|].
  destruct (truthy _); cbn [negb andb orb].
  - intros [= <- <-]. auto.
  - destruct (duplicateOf _ _); [discriminate|]. intros [= <- <-]. auto.
Qed.

Lemma subtrees_unfold (tree : ParseTree) :
  subtrees tree = tree :: subtreesAll (childrenOf tree).
Proof. destruct tree; reflexivity. Qed.

Lemma visitChildren_builds (l : list ParseTree) :
  Forall (fun tree => forall cur, builds cur tree) l ->
  forall cur v v' s,
    visitChildren l v = (Ok tt, v') ->
    scope v = Some cur ->
    deref (SymbolTable.self (symbolTable v)) cur = Some s ->
    v' = modifySymbol cur (appendChildren (symbolsOfAll (documentUri v) l)) v
    /\ routinesDeclared (documentUri v) (subtreesAll l).
Proof.
  induction 1 as [|c l Hc Hl IH]; intros cur v v' s Hrun Hscope Hs.
  - cbn in Hrun. injection Hrun as <-. cbn [symbolsOfAll]. split.
    + unfold modifySymbol. rewrite modify_id by apply appendChildren_nil.
      destruct v as [u [o t] sc]. reflexivity.
    + intros node Hin. apply elem_of_nil in Hin. contradiction.
  - cbn [visitChildren] in Hrun. apply bind_Ok in Hrun as ([] & v1 & Hvisit & Hrest).
    destruct (Hc cur v v1 s Hvisit Hscope Hs) as [-> Hdc].
    assert (Hs1 : deref (SymbolTable.self (symbolTable
                     (modifySymbol cur (appendChildren (symbolsOf (documentUri v) c)) v))) cur
                  = Some (appendChildren (symbolsOf (documentUri v) c) s)).
    { cbn. rewrite deref_modify, Hs. reflexivity. }
    destruct (IH cur _ v' _ Hrest Hscope Hs1) as [-> Hdl].
    change (documentUri (modifySymbol cur _ v)) with (documentUri v) in *.
    split.
    + rewrite modifySymbol_modifySymbol. cbn [symbolsOfAll].
      apply modifySymbol_ext. intros s0 _. apply appendChildren_app.
    + intros node Hin. cbn [subtreesAll] in Hin. apply elem_of_app in Hin as [Hin | Hin];
        [apply Hdc | apply Hdl]; exact Hin.
Qed.

Lemma symbolsOf_unfold (uri0 : DocumentUri) (id : NodeId) (kind : RuleKind)
      (start : Token.t) (stop : option Token.t) (children : list ParseTree) :
  symbolsOf uri0 (ParserRuleContext id kind start stop children) =
    let tree := ParserRuleContext id kind start stop children in
    let inner := symbolsOfAll uri0 children in
    match kind with
    | VariableDeclaration =>
        match ruleChild SimpleIdentifier children with
        | Some declarationName =>
            match getRange tree, getRange declarationName with
            | Ok range, Ok selection =>
                mkSymbol ClsVariableSymbol (nodeText declarationName) None
                         (Some (LocationLink.create uri0 range selection)) []
                :: inner
            | _, _ => inner
            end
        | None => inner
        end
    | FunctionDeclaration =>
        match ruleChild Identifier children with
        | Some fname =>
            match getRange tree, getRange fname with
            | Ok range, Ok selection =>
                [mkSymbol ClsRoutineSymbol (nodeText fname) (Some id)
                          (Some (LocationLink.create uri0 range selection)) inner]
            | _, _ => []
            end
        | None => []
        end
    | _ => inner
    end.
Proof. destruct kind; reflexivity. Qed.

Lemma registerDeclaration_Ok (symbol : SymRef) (tree declarationName : ParseTree)
      (v v' : SymbolTableVisitor) :
  registerDeclaration symbol tree declarationName v = (Ok tt, v') ->
  exists range selection,
    getRange tree = Ok range /\ getRange declarationName = Ok selection
    /\ v' = modifySymbol symbol
              (setLocation (LocationLink.create (documentUri v) range selection)) v.
Proof.
  unfold registerDeclaration, bind, gets, lift, update.
  destruct (getRange tree) as [range|e]; [|discriminate].
  destruct (getRange declarationName) as [selection|e]; [|discriminate].
  intros [= <-]. eauto.
Qed.

Lemma accessor_Ok {S} (k : RuleKind) (ctx c : ParseTree) (s s' : S) :
  accessor k ctx s = (Ok c, s') -> ruleChild k (childrenOf ctx) = Some c /\ s' = s.
Proof.
  unfold accessor. destruct (ruleChild k (childrenOf ctx)); [|discriminate].
  intros [= <- <-]. auto.
Qed.

Lemma modifySymbol_pushed (cur : SymRef) (g : Symbol -> Symbol) (c s : Symbol)
      (v : SymbolTableVisitor) :
  deref (SymbolTable.self (symbolTable v)) cur = Some s ->
  modifySymbol (length (children s) :: cur) g (modifySymbol cur (pushChild c) v)
  = modifySymbol cur (pushChild (g c)) v.
Proof.
  intros Hs. unfold modifySymbol, setSymbolTable.
  cbn [symbolTable SymbolTable.self SymbolTable.options documentUri scope].
  rewrite (modify_pushed _ _ _ s) by exact Hs. reflexivity.
Qed.

Lemma deref_pushed (cur : SymRef) (c s : Symbol) (v : SymbolTableVisitor) :
  deref (SymbolTable.self (symbolTable v)) cur = Some s ->
  deref (SymbolTable.self (symbolTable (modifySymbol cur (pushChild c) v))) cur
  = Some (pushChild c s)
  /\ deref (SymbolTable.self (symbolTable (modifySymbol cur (pushChild c) v)))
           (length (children s) :: cur) = Some c.
Proof.
  intros Hs. unfold modifySymbol, setSymbolTable.
  cbn [symbolTable SymbolTable.self deref]. rewrite deref_modify, Hs. cbn.
  split; [reflexivity|]. rewrite lookup_app_r by lia.
  replace (length (children s) - length (children s))%nat with 0%nat by lia. reflexivity.
Qed.

Lemma routinesDeclared_node (uri0 : DocumentUri) (tree : ParseTree) :
  (isFunctionDeclaration tree = true -> symbolsOf uri0 tree <> []) ->
  routinesDeclared uri0 (subtreesAll (childrenOf tree)) ->
  routinesDeclared uri0 (subtrees tree).
Proof.
  intros Htree Hkids node Hin. rewrite subtrees_unfold in Hin.
  apply elem_of_cons in Hin as [-> | Hin]; [exact Htree | apply Hkids; exact Hin].
Qed.

(** The builder refines [symbolsOf]: a walk that completes has appended
    exactly the declared symbols to the scope it started in, and has restored
    the current scope. *)
Lemma visit_builds (tree : ParseTree) : forall cur, builds cur tree.
Proof.
  induction tree as [id symbol | id kind start stop kids IH] using ParseTree_nested_ind;
    intros cur v v' s Hrun Hscope Hs.
  - cbn in Hrun. injection Hrun as <-. cbn [symbolsOf]. split.
    + unfold modifySymbol. rewrite modify_id by apply appendChildren_nil.
      destruct v as [u [o t] sc]. reflexivity.
    + apply routinesDeclared_node; [discriminate|].
      intros node Hin. apply elem_of_nil in Hin. contradiction.
  - pose proof (visitChildren_builds kids IH) as Hchildren.
    rewrite visit_unfold in Hrun. cbn zeta in Hrun.
    destruct kind;
      try (destruct (Hchildren cur v v' s Hrun Hscope Hs) as [-> Hd];
           split; [reflexivity | apply routinesDeclared_node; [discriminate | exact Hd]]).
    + (* variable declaration *)
      apply bind_Ok in Hrun as (declarationName & v0 & Hacc & Hrun).
      apply accessor_Ok in Hacc as [Hname ->]. cbn [childrenOf] in Hname.
      apply bind_Ok in Hrun as (current & v0 & Hget & Hrun).
      injection Hget as <- <-. rewrite Hscope in Hrun.
      apply bind_Ok in Hrun as (symbol & v1 & Hadd & Hrun).
      apply (addNew_Ok _ _ _ _ _ _ s Hs) in Hadd as (-> & -> & _).
      apply bind_Ok in Hrun as ([] & v2 & Hreg & Hrun).
      apply registerDeclaration_Ok in Hreg as (range & selection & Hr1 & Hr2 & ->).
      change (documentUri (modifySymbol cur _ v)) with (documentUri v) in Hrun.
      rewrite (modifySymbol_pushed _ _ _ s) in Hrun by exact Hs.
      destruct (deref_pushed cur
                  (setLocation (LocationLink.create (documentUri v) range selection)
                     (newSymbol ClsVariableSymbol (nodeText declarationName))) s v Hs)
        as [Hs2 _].
      destruct (Hchildren cur _ v' _ Hrun Hscope Hs2) as [-> Hd].
      change (documentUri (modifySymbol cur _ v)) with (documentUri v) in *.
      split; [|apply routinesDeclared_node; [discriminate | exact Hd]].
      rewrite symbolsOf_unfold. cbn zeta. rewrite Hname, Hr1, Hr2.
      rewrite modifySymbol_modifySymbol.
      apply modifySymbol_ext. intros s0 _. unfold appendChildren, pushChild. cbn.
      rewrite <- app_assoc. reflexivity.
    + (* function declaration *)
      apply bind_Ok in Hrun as (fname & v0 & Hacc & Hrun).
      apply accessor_Ok in Hacc as [Hname ->]. cbn [childrenOf] in Hname.
      unfold withDeclaration, withScope in Hrun.
      apply bind_Ok in Hrun as (current & v0 & Hget & Hrun).
      injection Hget as <- <-. rewrite Hscope in Hrun.
      apply bind_Ok in Hrun as (opened & v1 & Hadd & Hrun).
      apply (addNew_Ok _ _ _ _ _ _ s Hs) in Hadd as (-> & -> & _).
      apply bind_Ok in Hrun as ([] & v2 & Hctx & Hrun). injection Hctx as <-.
      apply bind_Ok in Hrun as ([] & v3 & Hsc & Hrun). injection Hsc as <-.
      unfold tryFinally in Hrun.
      match type of Hrun with
      | (let '(_, _) := ?body ?st in _) = _ => destruct (body st) as [r v4] eqn:Hbody
      end.
      injection Hrun as -> <-.
      apply bind_Ok in Hbody as (current & v0 & Hget & Hbody).
      injection Hget as <- <-. cbn [scope setScope] in Hbody.
      apply bind_Ok in Hbody as ([] & v5 & Hreg & Hbody).
      apply registerDeclaration_Ok in Hreg as (range & selection & Hr1 & Hr2 & ->).
      rewrite (modifySymbol_pushed _ _ _ s) in Hbody by exact Hs.
      change (documentUri (setScope _ (modifySymbol cur _ v))) with (documentUri v) in Hbody.
      set (u := documentUri v) in *.
      set (opened := (length (children s) :: cur)) in *.
      set (anchored := setContext id (newSymbol ClsRoutineSymbol (nodeText fname))) in *.
      change (modifySymbol opened (setLocation (LocationLink.create u range selection))
                (setScope (Some opened) (modifySymbol cur (pushChild anchored) v)))
        with (setScope (Some opened)
                (modifySymbol opened (setLocation (LocationLink.create u range selection))
                   (modifySymbol cur (pushChild anchored) v))) in Hbody.
      unfold opened in Hbody at 2.
      rewrite (modifySymbol_pushed _ _ _ s) in Hbody by exact Hs.
      set (routine := setLocation (LocationLink.create u range selection) anchored) in *.
      destruct (deref_pushed cur routine s v Hs) as [_ Hs5].
      destruct (Hchildren opened _ v4 routine Hbody eq_refl Hs5) as [-> Hd].
      change (documentUri (setScope _ (modifySymbol cur _ v))) with u in *.
      assert (Hshape : symbolsOf u (ParserRuleContext id FunctionDeclaration start stop kids)
                       = [mkSymbol ClsRoutineSymbol (nodeText fname) (Some id)
                                   (Some (LocationLink.create u range selection))
                                   (symbolsOfAll u kids)]).
      { rewrite symbolsOf_unfold. cbn zeta. rewrite Hname, Hr1, Hr2. reflexivity. }
      split; [|apply routinesDeclared_node; [rewrite Hshape; discriminate | exact Hd]].
      rewrite Hshape.
      cbn [parent opened]. unfold opened.
      change (setScope (Some cur)
                (modifySymbol (length (children s) :: cur)
                   (appendChildren (symbolsOfAll u kids))
                   (setScope (Some (length (children s) :: cur))
                      (modifySymbol cur (pushChild routine) v))))
        with (setScope (Some cur)
                (modifySymbol (length (children s) :: cur)
                   (appendChildren (symbolsOfAll u kids))
                   (modifySymbol cur (pushChild routine) v))).
      rewrite (modifySymbol_pushed _ _ _ s) by exact Hs.
      destruct v as [u0 [o t] sc]. cbn in Hscope. subst sc. reflexivity.
Qed.

(** ** Searching the table by context *)

Lemma anchorsOf_unfold (s : Symbol) :
  anchorsOf s =
    ((match context s with Some n => [n] | None => [] end)
     ++ (if instanceofScopedSymbol (cls s) then anchorsOfAll (children s) else []))%list.
Proof. destruct s. reflexivity. Qed.

Lemma eachChild_None_of (context0 : NodeId) (ref : SymRef) (l : list Symbol) :
  Forall (fun s => forall r, context0 ∉ anchorsOf s -> findRecursive context0 r s = None) l ->
  forall k, context0 ∉ anchorsOfAll l -> eachChild context0 ref k l = None.
Proof.
  induction 1 as [|a l Ha Hl IH]; intros k Hnot; cbn; [reflexivity|].
  cbn [anchorsOfAll] in Hnot. rewrite elem_of_app in Hnot.
  rewrite Ha by tauto. apply IH. tauto.
Qed.

(** A node that anchors nothing below a symbol is not found there. *)
Lemma findRecursive_None (context0 : NodeId) (s : Symbol) :
  forall ref, context0 ∉ anchorsOf s -> findRecursive context0 ref s = None.
Proof.
  induction s as [c n ctx loc ch IH] using Symbol_nested_ind. intros ref.
  rewrite anchorsOf_unfold, findRecursive_unfold. cbn [context cls children].
  rewrite elem_of_app. intros Hnot.
  case_bool_decide as Hc.
  - subst ctx. exfalso. apply Hnot. left. apply list_elem_of_singleton. reflexivity.
  - destruct (instanceofScopedSymbol c); [|reflexivity].
    apply eachChild_None_of; [exact IH | tauto].
Qed.

Lemma eachChild_None (context0 : NodeId) (ref : SymRef) (l : list Symbol) (k : nat) :
  context0 ∉ anchorsOfAll l -> eachChild context0 ref k l = None.
Proof.
  apply eachChild_None_of. apply Forall_forall. intros s _ r. apply findRecursive_None.
Qed.

Lemma scopedAbove_snoc (s child : Symbol) (q : SymRef) (j : nat) :
  children s !! j = Some child ->
  scopedAbove s (q ++ [j]) = instanceofScopedSymbol (cls s) && scopedAbove child q.
Proof.
  intros Hj. induction q as [|i q IH]; cbn [app scopedAbove].
  - unfold scopedAt. cbn. rewrite andb_true_r. reflexivity.
  - rewrite IH. unfold scopedAt. rewrite deref_snoc, Hj.
    destruct (instanceofScopedSymbol (cls s)), (deref child q) as [x|];
      cbn; try reflexivity; try (rewrite ?andb_false_r; reflexivity).
Qed.

Lemma anchorsOfAll_lookup (l : list Symbol) (j : nat) (child : Symbol) (c : NodeId) :
  l !! j = Some child -> c ∈ anchorsOf child -> c ∈ anchorsOfAll l.
Proof.
  revert j. induction l as [|a l IH]; intros [|j]; cbn; try discriminate.
  - intros [= ->] H. apply elem_of_app. auto.
  - intros Hj H. apply elem_of_app. right. eauto.
Qed.

(** A symbol reached through scopes is among the anchors. *)
Lemma anchorsOf_deref (s : Symbol) :
  forall q s' c,
    deref s q = Some s' -> context s' = Some c -> scopedAbove s q = true ->
    c ∈ anchorsOf s.
Proof.
  induction s as [k n ctx loc ch IH] using Symbol_nested_ind. intros q s' c Hd Hc Hsc.
  rewrite anchorsOf_unfold. cbn [context cls children]. apply elem_of_app.
  destruct (ref_cases q) as [-> | (q' & j & ->)].
  - cbn in Hd. injection Hd as <-. cbn in Hc. subst ctx. left.
    apply list_elem_of_singleton. reflexivity.
  - right. rewrite deref_snoc in Hd. cbn [children] in Hd.
    destruct (ch !! j) as [child|] eqn:Hj; [|discriminate].
    rewrite (scopedAbove_snoc _ child) in Hsc by exact Hj. cbn [cls] in Hsc.
    apply andb_true_iff in Hsc as [Hk Hsc]. rewrite Hk.
    apply (anchorsOfAll_lookup ch j child); [exact Hj|].
    rewrite Forall_forall in IH. apply (IH child) with (q := q') (s' := s'); auto.
    apply list_elem_of_lookup. eauto.
Qed.

Lemma eachChild_finds (context0 : NodeId) (ref : SymRef) (l : list Symbol) :
  forall k j child r,
    NoDup (anchorsOfAll l) ->
    l !! j = Some child ->
    context0 ∈ anchorsOf child ->
    findRecursive context0 ((k + j)%nat :: ref) child = Some r ->
    eachChild context0 ref k l = Some r.
Proof.
  induction l as [|a l IH]; intros k [|j] child r Hnd Hj Hin Hfound; cbn in Hj;
    try discriminate; cbn [anchorsOfAll] in Hnd; apply NoDup_app in Hnd as (Ha & Hdisj & Hl);
    cbn [eachChild].
  - injection Hj as ->. replace (k + 0)%nat with k in Hfound by lia.
    rewrite Hfound. reflexivity.
  - rewrite findRecursive_None.
    + apply (IH (S k) j child r); auto.
      replace (S k + j)%nat with (k + S j)%nat by lia. exact Hfound.
    + intros Hina. apply (Hdisj _ Hina). eapply anchorsOfAll_lookup; eauto.
Qed.

(** With distinct anchors, the search by context finds the anchored symbol
    wherever it is. *)
Lemma findRecursive_finds (s : Symbol) :
  forall q ref s' c,
    NoDup (anchorsOf s) ->
    deref s q = Some s' -> context s' = Some c -> scopedAbove s q = true ->
    findRecursive c ref s = Some (q ++ ref)%list.
Proof.
  induction s as [k n ctx loc ch IH] using Symbol_nested_ind.
  intros q ref s' c Hnd Hd Hc Hsc.
  rewrite findRecursive_unfold. cbn [context cls children].
  rewrite anchorsOf_unfold in Hnd. cbn [context cls children] in Hnd.
  destruct (ref_cases q) as [-> | (q' & j & ->)].
  - cbn in Hd. injection Hd as <-. cbn in Hc. subst ctx.
    rewrite bool_decide_eq_true_2 by reflexivity. reflexivity.
  - rewrite deref_snoc in Hd. cbn [children] in Hd.
    destruct (ch !! j) as [child|] eqn:Hj; [|discriminate].
    rewrite (scopedAbove_snoc _ child) in Hsc by exact Hj. cbn [cls] in Hsc.
    apply andb_true_iff in Hsc as [Hk Hsc]. rewrite Hk in *.
    assert (Hin : c ∈ anchorsOf child) by (eapply anchorsOf_deref; eauto).
    apply NoDup_app in Hnd as (_ & Hdisj & Hch).
    rewrite bool_decide_eq_false_2.
    + rewrite <- app_assoc. cbn [app].
      apply (eachChild_finds c ref ch 0%nat j child); auto.
      rewrite Forall_forall in IH. apply (IH child) with (s' := s'); auto.
      * apply list_elem_of_lookup. eauto.
      * clear -Hch Hj. revert j Hj. induction ch as [|a ch IHch]; intros [|j]; cbn;
          try discriminate; cbn [anchorsOfAll] in Hch; apply NoDup_app in Hch as (Ha & _ & Hl).
        -- intros [= ->]. exact Ha.
        -- intros Hj. eauto.
    + intros ->. apply (Hdisj c).
      * apply list_elem_of_singleton. reflexivity.
      * eapply anchorsOfAll_lookup; eauto.
Qed.

Lemma symbolWithContext_finds (symbolTable : SymbolTable.t) (node : ParseTree)
      (ref : SymRef) (s' : Symbol) :
  NoDup (anchorsOfAll (children (SymbolTable.self symbolTable))) ->
  ref <> [] ->
  deref (SymbolTable.self symbolTable) ref = Some s' ->
  context s' = Some (nodeId node) ->
  scopedAbove (SymbolTable.self symbolTable) ref = true ->
  symbolWithContext symbolTable node = Some ref.
Proof.
  intros Hnd Hne Hd Hc Hsc. unfold symbolWithContext.
  set (table := SymbolTable.self symbolTable) in *.
  destruct (ref_cases ref) as [-> | (q & j & ->)]; [contradiction|].
  rewrite deref_snoc in Hd.
  destruct (children table !! j) as [child|] eqn:Hj; [|discriminate].
  rewrite (scopedAbove_snoc _ child) in Hsc by exact Hj.
  apply andb_true_iff in Hsc as [_ Hsc].
  apply (eachChild_finds _ [] _ 0%nat j child); auto.
  - eapply anchorsOf_deref; eauto.
  - cbn [Nat.add]. apply (findRecursive_finds child q [j] s'); auto.
    clear -Hnd Hj. revert j Hj. induction (children table) as [|a ch IHch]; intros [|j]; cbn;
      try discriminate; cbn [anchorsOfAll] in Hnd; apply NoDup_app in Hnd as (Ha & _ & Hl).
    + intros [= ->]. exact Ha.
    + intros Hj. eauto.
Qed.

Lemma symbolWithContext_None (symbolTable : SymbolTable.t) (node : ParseTree) :
  nodeId node ∉ anchorsOfAll (children (SymbolTable.self symbolTable)) ->
  symbolWithContext symbolTable node = None.
Proof. intros H. unfold symbolWithContext. apply eachChild_None. exact H. Qed.

(** ** The anchors of the declared symbols *)

Lemma anchorsOfAll_app (l1 l2 : list Symbol) :
  anchorsOfAll (l1 ++ l2) = (anchorsOfAll l1 ++ anchorsOfAll l2)%list.
Proof.
  induction l1 as [|a l1 IH]; cbn; [reflexivity|]. rewrite IH, app_assoc. reflexivity.
Qed.

Lemma symbolsOf_shape (uri0 : DocumentUri) (tree : ParseTree) :
  let inner := symbolsOfAll uri0 (childrenOf tree) in
  symbolsOf uri0 tree = inner
  \/ (exists variable, symbolsOf uri0 tree = variable :: inner
                       /\ cls variable = ClsVariableSymbol /\ context variable = None)
  \/ (exists n l, isFunctionDeclaration tree = true
                  /\ symbolsOf uri0 tree
                     = [mkSymbol ClsRoutineSymbol n (Some (nodeId tree)) (Some l) inner])
  \/ (isFunctionDeclaration tree = true /\ symbolsOf uri0 tree = []).
Proof.
  destruct tree as [id kind start stop kids | id symbol]; [|left; reflexivity].
  cbn zeta. rewrite symbolsOf_unfold. cbn zeta. cbn [childrenOf nodeId].
  destruct kind; try (left; reflexivity).
  - destruct (ruleChild SimpleIdentifier kids) as [n|]; [|left; reflexivity].
    destruct (getRange _) as [r|e]; [|left; reflexivity].
    destruct (getRange n) as [r'|e]; [|left; reflexivity].
    right. left. eexists. eauto.
  - destruct (ruleChild Identifier kids) as [n|]; [|right; right; right; auto].
    destruct (getRange _) as [r|e]; [|right; right; right; auto].
    destruct (getRange n) as [r'|e]; [|right; right; right; auto].
    right. right. left. eexists _, _. eauto.
Qed.

(** The anchors of what a tree declares are nodes of the tree, in order. *)
Lemma anchors_sublist (uri0 : DocumentUri) (tree : ParseTree) :
  anchorsOfAll (symbolsOf uri0 tree) `sublist_of` (nodeId <$> subtrees tree).
Proof.
  induction tree as [id symbol | id kind start stop kids IH] using ParseTree_nested_ind.
  - cbn. apply sublist_nil_l.
  - assert (Hkids : anchorsOfAll (symbolsOfAll uri0 kids)
                    `sublist_of` (nodeId <$> subtreesAll kids)).
    { induction IH as [|c kids Hc _ IHkids]; cbn [symbolsOfAll subtreesAll].
      - apply sublist_nil_l.
      - rewrite anchorsOfAll_app, fmap_app. apply sublist_app; assumption. }
    rewrite subtrees_unfold. cbn [childrenOf fmap list_fmap].
    destruct (symbolsOf_shape uri0 (ParserRuleContext id kind start stop kids))
      as [-> | [(variable & -> & Hcls & Hctx) | [(n & l & _ & ->) | [_ ->]]]];
      cbn [childrenOf nodeId].
    + apply sublist_cons. exact Hkids.
    + cbn [anchorsOfAll]. rewrite anchorsOf_unfold, Hcls, Hctx. cbn.
      apply sublist_cons. exact Hkids.
    + cbn [anchorsOfAll]. rewrite anchorsOf_unfold. cbn. rewrite app_nil_r.
      apply sublist_skip. exact Hkids.
    + apply sublist_nil_l.
Qed.

(** Every anchor of what a tree declares is a function declaration of it. *)
Lemma anchors_function (uri0 : DocumentUri) (tree : ParseTree) (c : NodeId) :
  c ∈ anchorsOfAll (symbolsOf uri0 tree) ->
  exists routine, routine ∈ subtrees tree
                  /\ isFunctionDeclaration routine = true /\ nodeId routine = c.
Proof.
  induction tree as [id symbol | id kind start stop kids IH] using ParseTree_nested_ind.
  - cbn. intros H. apply elem_of_nil in H. contradiction.
  - assert (Hkids : c ∈ anchorsOfAll (symbolsOfAll uri0 kids) ->
                    exists routine, routine ∈ subtreesAll kids
                                    /\ isFunctionDeclaration routine = true
                                    /\ nodeId routine = c).
    { induction IH as [|k kids Hk _ IHkids]; cbn [symbolsOfAll subtreesAll].
      - intros H. apply elem_of_nil in H. contradiction.
      - rewrite anchorsOfAll_app, elem_of_app. intros [H | H].
        + destruct (Hk H) as (r & Hr & ?). exists r. rewrite elem_of_app. auto.
        + destruct (IHkids H) as (r & Hr & ?). exists r. rewrite elem_of_app. auto. }
    rewrite subtrees_unfold. cbn [childrenOf].
    destruct (symbolsOf_shape uri0 (ParserRuleContext id kind start stop kids))
      as [-> | [(variable & -> & Hcls & Hctx) | [(n & l & Hfun & ->) | [_ ->]]]];
      cbn [childrenOf nodeId].
    + intros H. destruct (Hkids H) as (r & Hr & ?). exists r. rewrite elem_of_cons. auto.
    + cbn [anchorsOfAll]. rewrite anchorsOf_unfold, Hcls, Hctx. cbn.
      intros H. destruct (Hkids H) as (r & Hr & ?). exists r. rewrite elem_of_cons. auto.
    + cbn [anchorsOfAll]. rewrite anchorsOf_unfold. cbn. rewrite app_nil_r.
      rewrite elem_of_cons. intros [-> | H].
      * eexists. rewrite elem_of_cons. split; [left; reflexivity|]. auto.
      * destruct (Hkids H) as (r & Hr & ?). exists r. rewrite elem_of_cons. auto.
    + cbn. intros H. apply elem_of_nil in H. contradiction.
Qed.

Lemma NoDup_fmap_inj {A B} (f : A -> B) (l : list A) (x y : A) :
  NoDup (f <$> l) -> x ∈ l -> y ∈ l -> f x = f y -> x = y.
Proof.
  induction l as [|a l IH]; cbn; intros Hnd Hx Hy Hf.
  - apply elem_of_nil in Hx. contradiction.
  - apply NoDup_cons in Hnd as [Ha Hnd].
    apply elem_of_cons in Hx as [-> | Hx]; apply elem_of_cons in Hy as [-> | Hy]; auto.
    + exfalso. apply Ha. rewrite Hf. apply list_elem_of_fmap_2. exact Hy.
    + exfalso. apply Ha. rewrite <- Hf. apply list_elem_of_fmap_2. exact Hx.
Qed.

(** With distinct nodes, a node that is no function declaration anchors
    nothing of what the tree declares. *)
Lemma other_node_not_anchor (uri0 : DocumentUri) (tree node : ParseTree) :
  distinctNodes tree ->
  node ∈ subtrees tree ->
  isFunctionDeclaration node = false ->
  nodeId node ∉ anchorsOfAll (symbolsOf uri0 tree).
Proof.
  intros Hnd Hin Hnot Hanchor.
  apply anchors_function in Hanchor as (routine & Hr & Hfun & Hid).
  assert (routine = node) by (eapply NoDup_fmap_inj; eauto).
  subst routine. congruence.
Qed.

(** ** From the cursor to its scope *)

Lemma contextAt_ancestors (path : list nat) :
  forall tree ancestors,
    contextAt tree path ancestors =
      match contextAt tree path [] with
      | [] => []
      | below => (below ++ ancestors)%list
      end.
Proof.
  induction path as [|i rest IH]; intros tree ancestors; cbn [contextAt].
  - reflexivity.
  - destruct (childrenOf tree !! i) as [c|]; [|reflexivity].
    rewrite (IH c (tree :: ancestors)), (IH c [tree]).
    destruct (contextAt c rest []) as [|node below]; [reflexivity|].
    cbn. rewrite <- app_assoc. reflexivity.
Qed.

Lemma symbolsOfAll_lookup (uri0 : DocumentUri) (l : list ParseTree) (i : nat) (c : ParseTree) :
  l !! i = Some c ->
  (exists pre post, symbolsOfAll uri0 l = (pre ++ symbolsOf uri0 c ++ post)%list)
  /\ forall node, node ∈ subtrees c -> node ∈ subtreesAll l.
Proof.
  revert i. induction l as [|a l IH]; intros [|i]; cbn [lookup list_lookup]; try discriminate.
  - intros [= ->]. split.
    + exists [], (symbolsOfAll uri0 l). reflexivity.
    + intros node Hin. cbn [subtreesAll]. apply elem_of_app. auto.
  - intros Hi. destruct (IH i Hi) as [(pre & post & Heq) Hsub]. split.
    + exists (symbolsOf uri0 a ++ pre)%list, post. cbn [symbolsOfAll].
      rewrite Heq, <- app_assoc. reflexivity.
    + intros node Hin. cbn [subtreesAll]. apply elem_of_app. auto.
Qed.

Lemma symbolsOf_routine (uri0 : DocumentUri) (tree : ParseTree) :
  isFunctionDeclaration tree = true -> symbolsOf uri0 tree <> [] ->
  exists n l, symbolsOf uri0 tree
              = [mkSymbol ClsRoutineSymbol n (Some (nodeId tree)) (Some l)
                          (declaredIn uri0 tree)].
Proof.
  destruct tree as [id kind start stop kids | id symbol]; [|discriminate].
  destruct kind; try discriminate. intros _. rewrite symbolsOf_unfold. cbn zeta.
  destruct (ruleChild Identifier kids) as [n|]; [|contradiction].
  destruct (getRange _) as [r|e]; [|contradiction].
  destruct (getRange n) as [r'|e]; [|contradiction].
  intros _. eexists _, _. reflexivity.
Qed.

Lemma symbolsOf_other (uri0 : DocumentUri) (tree : ParseTree) :
  isFunctionDeclaration tree = false ->
  exists pre, symbolsOf uri0 tree = (pre ++ symbolsOfAll uri0 (childrenOf tree))%list.
Proof.
  intros Hnot.
  destruct (symbolsOf_shape uri0 tree)
    as [-> | [(variable & -> & _) | [(n & l & Hfun & _) | [Hfun _]]]]; try congruence.
  - exists []. reflexivity.
  - exists [variable]. reflexivity.
Qed.

Lemma scopedAll_above (table : Symbol) (ref : SymRef) :
  scopedAll table ref = true -> scopedAt table ref = true /\ scopedAbove table ref = true.
Proof.
  induction ref as [|i up IH]; cbn [scopedAll scopedAbove]; intros H;
    apply andb_true_iff in H as [Hat Hup].
  - auto.
  - destruct (IH Hup) as [Hat' Habove]. rewrite Hat', Habove. auto.
Qed.

Lemma locates_through (table : Symbol) (uri0 : DocumentUri) (routines : list ParseTree)
      (routine : ParseTree) (ref : SymRef) (outerChain : list (list Symbol))
      (result : option SymRef) :
  scopedAll table ref = true ->
  scopeChain table ref = declaredIn uri0 routine :: outerChain ->
  locates table uri0 routines (Some ref) (declaredIn uri0 routine :: outerChain) result ->
  exists ref', result = Some ref'
               /\ scopedAll table ref' = true
               /\ scopeChain table ref'
                  = (map (declaredIn uri0) (routines ++ [routine]) ++ outerChain)%list.
Proof.
  intros Hsc Hchain Hloc. destruct routines as [|r routines]; cbn in Hloc.
  - subst result. exists ref. auto.
  - destruct Hloc as (ref' & -> & Hsc' & Hchain'). exists ref'. split; [reflexivity|].
    split; [exact Hsc'|]. rewrite Hchain', map_app. cbn. rewrite <- !app_assoc. reflexivity.
Qed.

Section Locate.
Variable symbolTable : SymbolTable.t.
Variable uri0 : DocumentUri.
Let table := SymbolTable.self symbolTable.
Hypothesis distinctAnchors : NoDup (anchorsOfAll (children table)).

(** The scope of a function declaration whose routine symbol is in the table. *)
Lemma getScope_routine (routine : ParseTree) (ancestors : Context)
      (cur : SymRef) (s : Symbol) (pre post : list Symbol) :
  deref table cur = Some s ->
  scopedAll table cur = true ->
  children s = (pre ++ symbolsOf uri0 routine ++ post)%list ->
  isFunctionDeclaration routine = true ->
  symbolsOf uri0 routine <> [] ->
  exists ref r,
    ref = length pre :: cur
    /\ deref table ref = Some r
    /\ children r = declaredIn uri0 routine
    /\ getScope (routine :: ancestors) symbolTable = Some ref
    /\ scopedAll table ref = true
    /\ scopeChain table ref = declaredIn uri0 routine :: scopeChain table cur.
Proof.
  intros Hs Hsc Hch Hfun Hdecl.
  destruct (symbolsOf_routine uri0 routine Hfun Hdecl) as (n & l & Hshape).
  rewrite Hshape in Hch.
  set (r := mkSymbol ClsRoutineSymbol n (Some (nodeId routine)) (Some l)
                     (declaredIn uri0 routine)) in *.
  assert (Hr : deref table (length pre :: cur) = Some r).
  { cbn [deref]. rewrite Hs, Hch, lookup_app_r by lia.
    replace (length pre - length pre)%nat with 0%nat by lia. reflexivity. }
  exists (length pre :: cur), r. repeat split; auto.
  - assert (Hfind : symbolWithContext symbolTable routine = Some (length pre :: cur)).
    { apply (symbolWithContext_finds symbolTable routine (length pre :: cur) r).
      - exact distinctAnchors.
      - discriminate.
      - exact Hr.
      - reflexivity.
      - cbn [scopedAbove]. fold table.
        destruct (scopedAll_above table cur Hsc) as [-> ->]. reflexivity. }
    cbn [getScope]. rewrite Hfind. reflexivity.
  - cbn [scopedAll]. unfold scopedAt at 1. rewrite Hr. cbn. exact Hsc.
  - cbn [scopeChain]. unfold childrenAt at 1. rewrite Hr. reflexivity.
Qed.

Lemma getScope_located (path : list nat) :
  forall (tree : ParseTree) (ancestors : Context) (cur : SymRef) (s : Symbol)
         (pre post : list Symbol),
    deref table cur = Some s ->
    scopedAll table cur = true ->
    children s = (pre ++ symbolsOf uri0 tree ++ post)%list ->
    routinesDeclared uri0 (subtrees tree) ->
    (forall node, node ∈ subtrees tree -> isFunctionDeclaration node = false ->
                  symbolWithContext symbolTable node = None) ->
    contextAt tree path [] <> [] ->
    locates table uri0 (enclosingRoutines (contextAt tree path []))
            (getScope ancestors symbolTable) (scopeChain table cur)
            (getScope (contextAt tree path [] ++ ancestors) symbolTable).
Proof.
  induction path as [|i rest IH];
    intros tree ancestors cur s pre post Hs Hsc Hch Hdecl Hother Hvalid.
  - cbn [contextAt enclosingRoutines List.filter app].
    destruct (isFunctionDeclaration tree) eqn:Hfun.
    + destruct (getScope_routine tree ancestors cur s pre post Hs Hsc Hch Hfun)
        as (ref & r & _ & _ & _ & Hget & Hsc' & Hchain).
      { apply Hdecl; [rewrite subtrees_unfold; apply elem_of_cons; auto | exact Hfun]. }
      cbn. exists ref. auto.
    + cbn. rewrite Hother; [reflexivity | | exact Hfun].
      rewrite subtrees_unfold. apply elem_of_cons. auto.
  - cbn [contextAt] in *.
    destruct (childrenOf tree !! i) as [c|] eqn:Hc; [|contradiction].
    rewrite (contextAt_ancestors rest c [tree]) in *.
    destruct (contextAt c rest []) as [|node below] eqn:Hbelow; [contradiction|].
    rewrite <- Hbelow in *. clear Hvalid.
    destruct (symbolsOfAll_lookup uri0 (childrenOf tree) i c Hc) as [(pre' & post' & Hsplit) Hsub].
    assert (Hsubtree : forall n, n ∈ subtrees c -> n ∈ subtrees tree).
    { intros n Hn. rewrite subtrees_unfold. apply elem_of_cons. right. apply Hsub. exact Hn. }
    assert (Hvalid : contextAt c rest [] <> []) by (rewrite Hbelow; discriminate).
    unfold enclosingRoutines. rewrite List.filter_app. cbn [List.filter].
    rewrite <- app_assoc. cbn [app].
    destruct (isFunctionDeclaration tree) eqn:Hfun.
    + destruct (getScope_routine tree ancestors cur s pre post Hs Hsc Hch Hfun)
        as (ref & r & _ & Hr & Hkids & Hget & Hsc' & Hchain).
      { apply Hdecl; [rewrite subtrees_unfold; apply elem_of_cons; auto | exact Hfun]. }
      assert (Hin : locates table uri0 (enclosingRoutines (contextAt c rest []))
                      (getScope (tree :: ancestors) symbolTable) (scopeChain table ref)
                      (getScope (contextAt c rest [] ++ tree :: ancestors) symbolTable)).
      { apply (IH c (tree :: ancestors) ref r pre' post'); auto.
        - rewrite Hkids. exact Hsplit.
        - intros n Hn. apply Hdecl. apply Hsubtree. exact Hn. }
      rewrite Hget, Hchain in Hin.
      destruct (locates_through _ _ _ _ _ _ _ Hsc' Hchain Hin) as (ref' & Hres & Hsc2 & Hch2).
      unfold locates. fold (enclosingRoutines (contextAt c rest [])).
      destruct (enclosingRoutines (contextAt c rest []) ++ [tree])%list eqn:Hnil.
      * destruct (enclosingRoutines (contextAt c rest [])); discriminate.
      * exists ref'. auto.
    + destruct (symbolsOf_other uri0 tree Hfun) as (var & Hshape).
      assert (Hin : locates table uri0 (enclosingRoutines (contextAt c rest []))
                      (getScope (tree :: ancestors) symbolTable) (scopeChain table cur)
                      (getScope (contextAt c rest [] ++ tree :: ancestors) symbolTable)).
      { apply (IH c (tree :: ancestors) cur s (pre ++ var ++ pre')%list (post' ++ post)%list);
          auto.
        - rewrite Hch, Hshape, Hsplit. rewrite <- !app_assoc. reflexivity.
        - intros n Hn. apply Hdecl. apply Hsubtree. exact Hn. }
      cbn [getScope] in Hin. rewrite Hother in Hin; [| |exact Hfun].
      * rewrite app_nil_r. exact Hin.
      * rewrite subtrees_unfold. apply elem_of_cons. auto.
Qed.

End Locate.

(** ** The definition request on a built table *)

Lemma locationOf_answer (table : Symbol) (name0 : string) (ref : SymRef) :
  scopedAt table ref = true ->
  match findNamed name0 0 (childrenAt table ref) with
  | Some (_, mkSymbol _ _ _ (Some loc) _) =>
      exists r, answer table name0 ref = Some r /\ locationOf table (Some r) = Some loc
  | _ => answer table name0 ref = None
  end.
Proof.
  unfold scopedAt, answer, selected, childrenAt, isLocated, locationOf.
  destruct (deref table ref) as [s|] eqn:Hs; [|discriminate]. intros ->.
  destruct (findNamed name0 0 (children s)) as [[j [c n ctx [l|] ch]]|] eqn:Hf;
    cbn [location]; try reflexivity.
  apply findNamed_spec in Hf as (_ & Hj & _). replace (j - 0)%nat with j in Hj by lia.
  eexists. split; [reflexivity|]. cbn [deref]. rewrite Hs, Hj. reflexivity.
Qed.

Lemma resolve_chain (table : Symbol) (name0 : string) (ref : SymRef) :
  scopedAll table ref = true ->
  locationOf table (findDeclarationFrom table name0 ref)
  = resolve name0 (scopeChain table ref).
Proof.
  induction ref as [|i up IH]; cbn [scopedAll scopeChain resolve]; intros Hsc;
    apply andb_true_iff in Hsc as [Hat Hup];
    rewrite findDeclarationFrom_unfold;
    pose proof (locationOf_answer table name0 _ Hat) as Hans;
    unfold scopedAt in Hat; destruct (deref table _) as [s|] eqn:Hs; try discriminate;
    destruct (findNamed name0 0 (childrenAt table _)) as [[j [c n ctx [l|] ch]]|];
    try (destruct Hans as (r & -> & Hloc); exact Hloc);
    rewrite Hans; first [reflexivity | apply IH; exact Hup].
Qed.

Lemma resolve_app (name0 : string) (scopes rest : list (list Symbol)) :
  resolve name0 (scopes ++ rest) =
    match resolve name0 scopes with
    | Some l => Some l
    | None => resolve name0 rest
    end.
Proof.
  induction scopes as [|l scopes IH]; cbn [app resolve]; [reflexivity|].
  destruct (findNamed name0 0 l) as [[j [c n ctx [loc|] ch]]|]; auto.
Qed.

Lemma onDefinition_of_location (v : SymbolTableVisitor) (idx : Z)
      (node : ParseTree) (ancestors : Context) :
  onDefinition v (Some (mkTokenPosition idx (node :: ancestors))) =
    match locationOf (SymbolTable.self (symbolTable v))
            (findDeclaration (symbolTable v) (nodeText node)
                             (getScope (node :: ancestors) (symbolTable v))) with
    | Some l =>
        match getRange node with
        | Ok r => Ok (Some (LocationLink.mk (LocationLink.targetUri l)
                                            (LocationLink.targetRange l)
                                            (LocationLink.targetSelectionRange l)
                                            (Some r)))
        | Throw e => Throw e
        end
    | None => Ok None
    end.
Proof.
  rewrite onDefinition_of_declaration. unfold locationOf.
  destruct (findDeclaration _ _ _) as [d|]; [|reflexivity].
  destruct (deref _ d) as [symbol|]; reflexivity.
Qed.

(** The table a completed walk over a file builds, from the file scope. *)
Lemma built_table (uri0 : DocumentUri) (options : SymbolTableOptions.t)
      (imported : list Symbol) (file : ParseTree) (v : SymbolTableVisitor) :
  visit file (atFileScope uri0 options imported) = (Ok tt, v) ->
  v = atFileScope uri0 options (imported ++ symbolsOf uri0 file)%list
  /\ routinesDeclared uri0 (subtrees file).
Proof.
  intros Hrun.
  destruct (visit_builds file [0%nat] _ v (mkSymbol ClsScopedSymbol "" None None imported)
              Hrun eq_refl eq_refl) as [-> Hdecl].
  split; [reflexivity | exact Hdecl].
Qed.

Lemma newSymbolTableVisitor_atFileScope (uri0 : DocumentUri) :
  newSymbolTableVisitor uri0 = Ok (atFileScope uri0 SymbolTableOptions.empty []).
Proof. reflexivity. Qed.

(** C1, as the code has it. Take a visitor at its file scope, which owns
    the symbols [imported] (none when the visitor is new), and a file whose
    walk completes from there, the nodes of the file being distinct objects
    that anchor none of the imported symbols. The definition request on a node
    of the file resolves the node's text lexically: in what the innermost
    enclosing function declaration declares, then in what each further
    enclosing one declares, then in the file scope (the imported symbols, then
    what the file declares outside its routines), taking in each scope the
    first symbol of that name and answering with its location as soon as it
    has one. So a use of [x] inside a routine that declares [x] gets the inner
    declaration, and a use inside a routine that does not gets the declaration
    of the nearest enclosing scope that does, the file scope at last. A node
    that no function declaration encloses gets no result, whatever the file
    declares. *)
Theorem definition_is_lexical (uri0 : DocumentUri) (options : SymbolTableOptions.t)
        (imported : list Symbol) (file : ParseTree)
        (v : SymbolTableVisitor) (path : list nat) (idx : Z)
        (node : ParseTree) (ancestors : Context) :
  visit file (atFileScope uri0 options imported) = (Ok tt, v) ->
  NoDup (anchorsOfAll imported ++ (nodeId <$> subtrees file)) ->
  contextAt file path [] = node :: ancestors ->
  onDefinition v (Some (mkTokenPosition idx (node :: ancestors))) =
    match enclosingRoutines (node :: ancestors) with
    | [] => Ok None
    | routines =>
        match resolve (nodeText node)
                      (map (declaredIn uri0) routines
                       ++ [(imported ++ symbolsOf uri0 file)%list]) with
        | Some l =>
            match getRange node with
            | Ok r => Ok (Some (LocationLink.mk (LocationLink.targetUri l)
                                                (LocationLink.targetRange l)
                                                (LocationLink.targetSelectionRange l)
                                                (Some r)))
            | Throw e => Throw e
            end
        | None => Ok None
        end
    end.
Proof.
  intros Hrun Hdistinct Hpath.
  destruct (built_table uri0 options imported file v Hrun) as [-> Hdecl].
  apply NoDup_app in Hdistinct as (Himported & Hdisjoint & Hnodes).
  unfold atFileScope.
  set (root := mkSymbol ClsScopedSymbol "" None None (imported ++ symbolsOf uri0 file)).
  set (table := mkSymbol ClsSymbolTable "" None None [root]).
  set (symbolTable0 := SymbolTable.mk options table).
  assert (Hanchors : anchorsOfAll (children table)
                     = (anchorsOfAll imported ++ anchorsOfAll (symbolsOf uri0 file))%list).
  { cbn. rewrite !app_nil_r. apply anchorsOfAll_app. }
  assert (Hlocated :
            locates table uri0 (enclosingRoutines (contextAt file path []))
                    (getScope [] symbolTable0) (scopeChain table [0%nat])
                    (getScope (contextAt file path [] ++ []) symbolTable0)).
  { apply (getScope_located symbolTable0 uri0) with (s := root) (pre := imported) (post := []).
    - change (SymbolTable.self symbolTable0) with table. rewrite Hanchors.
      apply NoDup_app. split; [exact Himported|]. split.
      + intros c Hc Hanchor. apply (Hdisjoint c Hc).
        eapply elem_of_sublist; [exact Hanchor | apply anchors_sublist].
      + eapply sublist_NoDup; [exact Hnodes | apply anchors_sublist].
    - reflexivity.
    - reflexivity.
    - cbn. rewrite app_nil_r. reflexivity.
    - exact Hdecl.
    - intros n Hn Hfun. apply symbolWithContext_None.
      change (SymbolTable.self symbolTable0) with table. rewrite Hanchors.
      intros Hin. apply elem_of_app in Hin as [Hin | Hin].
      + apply (Hdisjoint _ Hin). apply list_elem_of_fmap_2. exact Hn.
      + revert Hin. apply other_node_not_anchor; assumption.
    - rewrite Hpath. discriminate. }
  rewrite app_nil_r, Hpath in Hlocated.
  rewrite onDefinition_of_location.
  cbn [symbolTable]. fold root table symbolTable0.
  change (SymbolTable.self symbolTable0) with table.
  unfold locates in Hlocated.
  destruct (enclosingRoutines (node :: ancestors)) as [|routine routines].
  - rewrite Hlocated. reflexivity.
  - destruct Hlocated as (ref & -> & Hsc & Hchain).
    cbn [findDeclaration]. change (SymbolTable.self symbolTable0) with table.
    rewrite (resolve_chain table _ ref Hsc), Hchain.
    change (scopeChain table [0%nat])
      with ([imported ++ symbolsOf uri0 file] ++ [[root]])%list.
    rewrite app_assoc, (resolve_app _ _ [[root]]).
    destruct (resolve (nodeText node) _) as [l|]; [reflexivity|].
    cbn. destruct (nodeText node); reflexivity.
Qed.

Lemma definition_is_lexical_witness :
  Sample.lookup (snd Sample.built) Sample.cursorInF
  = Ok (Some (LocationLink.mk "file:///main.mykt" (Sample.span 2 6) (Sample.span 2 6)
                              (Some (Sample.span 3 2))))
  /\ Sample.lookup (snd Sample.built) Sample.cursorInG
     = Ok (Some (LocationLink.mk "file:///main.mykt" (Sample.span 0 4) (Sample.span 0 4)
                                 (Some (Sample.span 5 10))))
  /\ Sample.lookup (snd Sample.built) Sample.cursorAtTop = Ok None.
Proof.
  assert (Hrun : visit Sample.file
                   (atFileScope "file:///main.mykt" SymbolTableOptions.empty [])
                 = (Ok tt, snd Sample.built)) by (vm_compute; reflexivity).
  assert (Hdistinct : NoDup (anchorsOfAll [] ++ (nodeId <$> subtrees Sample.file))).
  { apply (bool_decide_unpack _). vm_compute. exact I. }
  pose proof (fun path node ancestors =>
                definition_is_lexical "file:///main.mykt" SymbolTableOptions.empty []
                                      Sample.file _ path 0 node ancestors Hrun Hdistinct) as H.
  split; [|split].
  - exact (H [1; 2; 1; 0; 0]%nat (TerminalNode 42 (Sample.tok 4 2 "x"))
             (tl Sample.cursorInF) eq_refl).
  - exact (H [2; 2; 0; 0; 0]%nat (TerminalNode 62 (Sample.tok 6 10 "x"))
             (tl Sample.cursorInG) eq_refl).
  - exact (H [3; 3; 0; 0]%nat (TerminalNode 78 (Sample.tok 7 8 "x"))
             (tl Sample.cursorAtTop) eq_refl).
Defined.

(** C1, as stated, fails: in the sample program the use of [x] in [val y = x]
    lies outside the routine [f], the file scope owns a located [x], and the
    lookup returns nothing: the file scope has no anchor node, and the lookup
    has no step that falls back to it. *)
Lemma use_at_file_scope_unresolved :
  fst Sample.built = Ok tt
  /\ (exists outer l,
        deref (SymbolTable.self (symbolTable (snd Sample.built))) [0; 0]%nat = Some outer
        /\ name outer = "x" /\ location outer = Some l)
  /\ ~ In Sample.f Sample.cursorAtTop
  /\ Sample.lookup (snd Sample.built) Sample.cursorAtTop = Ok None.
Proof.
  split; [reflexivity|]. split; [|split].
  - eexists _, _. vm_compute. repeat split; reflexivity.
  - vm_compute. intros H.
    repeat (destruct H as [H|H]; [discriminate H|]). exact H.
  - reflexivity.
Qed.

(** * Further properties of the code *)

(** ** The base URI and the path of a document *)

Lemma lastIndexOf_bounds (c : ascii) (s : string) :
  -1 <= lastIndexOf c s < Z.of_nat (String.length s).
Proof.
  induction s as [|a rest IH]; cbn [lastIndexOf String.length].
  - lia.
  - destruct (Z.leb_spec 0 (lastIndexOf c rest)); [lia|].
    destruct (Ascii.eqb a c); lia.
Qed.

Lemma substring_0_0 (s : string) : substring 0 0 s = "".
Proof. destruct s; reflexivity. Qed.

Lemma computeBaseUri_empty (s : string) :
  computeBaseUri s = "" <-> hasSlash s = false.
Proof.
  induction s as [|a rest IH]; cbn [computeBaseUri hasSlash].
  - tauto.
  - destruct (computeBaseUri rest) as [|b r] eqn:Hrest.
    + destruct (Ascii.eqb a "/"); cbn; [split; discriminate | tauto].
    + split; [discriminate|]. intros H. apply orb_false_elim in H as [_ H].
      apply IH in H. discriminate H.
Qed.

(** X1. [computeBaseUri] is the source's
    [uri.substring(0, uri.lastIndexOf("/") + 1)] when the URI has a ["/"], and
    the empty string when it has none. *)
Theorem computeBaseUri_is_substring (uri : string) :
  computeBaseUri uri =
    let lastSep := lastIndexOf "/" uri in
    if (0 <=? lastSep)%Z then substring 0 (Z.to_nat (lastSep + 1)) uri else "".
Proof.
  cbv zeta. induction uri as [|a rest IH]; [reflexivity|].
  cbn [computeBaseUri lastIndexOf]. rewrite IH.
  pose proof (lastIndexOf_bounds "/" rest) as Hb.
  destruct (Z.leb_spec 0 (lastIndexOf "/" rest)) as [Hin|Hout].
  - destruct (Z.leb_spec 0 (lastIndexOf "/" rest + 1)); [|lia].
    replace (Z.to_nat (lastIndexOf "/" rest + 1 + 1))
      with (S (Z.to_nat (lastIndexOf "/" rest + 1))) by lia.
    destruct rest as [|b r]; [cbn in Hin; lia|].
    replace (Z.to_nat (lastIndexOf "/" (String b r) + 1))
      with (S (Z.to_nat (lastIndexOf "/" (String b r)))) by lia.
    reflexivity.
  - destruct (Ascii.eqb a "/"); [|reflexivity].
    change (Z.to_nat (0 + 1)) with 1%nat. cbn [substring].
    rewrite substring_0_0. reflexivity.
Qed.

Lemma computeBaseUri_slash (dir file : string) :
  hasSlash file = false ->
  computeBaseUri (dir ++ "/" ++ file) = dir ++ "/".
Proof.
  intros Hfile. apply computeBaseUri_empty in Hfile.
  change ("/" ++ file) with (String "/"%char file).
  induction dir as [|a dir IH].
  - cbn. rewrite Hfile. reflexivity.
  - cbn [append computeBaseUri]. rewrite IH.
    destruct dir; reflexivity.
Qed.

(** X2. The base URI of a file in a directory is the directory with its
    closing ["/"]: for a file name without ["/"], [computeBaseUri] maps
    [dir/file] to [dir/], and the bare file name to the empty string. *)
Theorem computeBaseUri_of_file_in_directory (dir file : string) :
  hasSlash file = false ->
  computeBaseUri (dir ++ "/" ++ file) = dir ++ "/"
  /\ computeBaseUri file = "".
Proof.
  intros Hfile. split; [apply computeBaseUri_slash; exact Hfile|].
  apply computeBaseUri_empty. exact Hfile.
Qed.

Lemma computeBaseUri_of_file_in_directory_witness :
  computeBaseUri ("file:///ws" ++ "/" ++ "main.mykt") = "file:///ws" ++ "/"
  /\ computeBaseUri "main.mykt" = "".
Proof. apply (computeBaseUri_of_file_in_directory "file:///ws" "main.mykt"). reflexivity. Defined.

Lemma append_assoc (a b c : string) : (a ++ b) ++ c = a ++ b ++ c.
Proof. induction a as [|x a IH]; cbn; congruence. Qed.

Lemma append_empty_r (a : string) : a ++ "" = a.
Proof. induction a as [|x a IH]; cbn; congruence. Qed.

Lemma hasSlash_append (a b : string) :
  hasSlash (a ++ b) = hasSlash a || hasSlash b.
Proof. induction a as [|x a IH]; cbn; [reflexivity|]. rewrite IH. apply orb_assoc. Qed.

Lemma computeBaseUri_split (uri : string) :
  exists file, uri = computeBaseUri uri ++ file /\ hasSlash file = false
               /\ (computeBaseUri uri = "" \/ exists dir, computeBaseUri uri = dir ++ "/").
Proof.
  induction uri as [|a rest (file & Heq & Hfile & Hshape)].
  - exists "". cbn. auto.
  - cbn [computeBaseUri].
    destruct (computeBaseUri rest) as [|b r] eqn:Hrest.
    + cbn in Heq. subst file.
      destruct (Ascii.eqb_spec a "/") as [->|Hne].
      * exists rest. split; [reflexivity|]. split; [exact Hfile|]. right. exists "". reflexivity.
      * exists (String a rest). split; [reflexivity|]. split; [|left; reflexivity].
        cbn. rewrite Hfile. apply Ascii.eqb_neq in Hne. rewrite Hne. reflexivity.
    + exists file. split; [cbn; f_equal; exact Heq|]. split; [exact Hfile|].
      right. destruct Hshape as [H|[dir Hdir]]; [discriminate H|].
      exists (String a dir). cbn. rewrite Hdir. reflexivity.
Qed.

(** X3. [computeBaseUri] splits a URI into the base and a rest without
    ["/"]; the base is empty or ends with ["/"]; taking the base of a base
    changes nothing; and the URI an import is bound to, the base followed by
    the imported name and [.mykt], has the base of the importing document
    again. *)
Theorem computeBaseUri_splits_uri (uri : string) :
  (exists file, uri = computeBaseUri uri ++ file /\ hasSlash file = false)
  /\ (computeBaseUri uri = "" \/ exists dir, computeBaseUri uri = dir ++ "/")
  /\ computeBaseUri (computeBaseUri uri) = computeBaseUri uri
  /\ forall name0, hasSlash name0 = false ->
       computeBaseUri (computeBaseUri uri ++ name0 ++ ".mykt") = computeBaseUri uri.
Proof.
  destruct (computeBaseUri_split uri) as (file & Heq & Hfile & Hshape).
  split; [eauto|]. split; [exact Hshape|].
  assert (Hdir : forall name0, hasSlash name0 = false ->
                   computeBaseUri (computeBaseUri uri ++ name0) = computeBaseUri uri).
  { intros name0 Hname. destruct Hshape as [->|[dir ->]].
    - apply computeBaseUri_empty. exact Hname.
    - rewrite append_assoc. apply computeBaseUri_slash. exact Hname. }
  split.
  - rewrite <- (Hdir "" eq_refl) at 2. rewrite append_empty_r. reflexivity.
  - intros name0 Hname. apply Hdir.
    rewrite hasSlash_append, Hname. reflexivity.
Qed.

Lemma computeBaseUri_splits_uri_witness :
  computeBaseUri (computeBaseUri Sample.mainUri ++ "lib" ++ ".mykt")
  = computeBaseUri Sample.mainUri.
Proof.
  destruct (computeBaseUri_splits_uri Sample.mainUri) as (_ & _ & _ & Himport).
  apply (Himport "lib"). reflexivity.
Defined.

Lemma startsWith_backslash (s : string) :
  startsWith backslash s = true -> exists rest, s = backslash ++ rest.
Proof.
  unfold backslash. destruct s as [|a rest]; cbn [startsWith]; [discriminate|].
  destruct (Ascii.eqb_spec "092" a) as [<-|]; [|discriminate].
  intros _. exists rest. reflexivity.
Qed.

(** X4. For a [file:] URI, the path [ensurePath] returns never starts with
    a single backslash: a converted path such as [\C:\ws] loses its first
    character, a path that starts with two backslashes (a network share) is
    returned as it is, and so is a path that starts with anything else. *)
Theorem ensurePath_no_lone_backslash (lib : Paths.Lib) (path result : string) :
  startsWith "file:" path = true ->
  Paths.ensurePath lib path = Ok result ->
  startsWith backslash result = true ->
  startsWith (backslash ++ backslash) result = true.
Proof.
  unfold Paths.ensurePath. intros -> Hrun.
  destruct (Paths.fileUriToPath lib path) as [converted|e]; [|discriminate Hrun].
  destruct (Paths.decodeURIComponent lib converted) as [decoded|e]; [|discriminate Hrun].
  destruct (startsWith (backslash ++ backslash) decoded) eqn:Hunc.
  - cbn [negb andb] in Hrun. injection Hrun as <-. intros _. exact Hunc.
  - cbn [negb andb] in Hrun.
    destruct (startsWith backslash decoded) eqn:Hone; injection Hrun as <-.
    + apply startsWith_backslash in Hone as [rest ->].
      intros Hrest. exfalso.
      change (substring 1 (String.length (backslash ++ rest) - 1) (backslash ++ rest))
        with (substring 0 (String.length rest - 0) rest) in Hrest.
      rewrite Nat.sub_0_r in Hrest.
      assert (Hsub : substring 0 (String.length rest) rest = rest).
      { clear. induction rest as [|a r IH]; cbn; congruence. }
      rewrite Hsub in Hrest.
      apply startsWith_backslash in Hrest as [rest' ->].
      revert Hunc. unfold backslash. cbn.
      destruct rest'; discriminate.
    + intros Hrest. rewrite Hone in Hrest. discriminate Hrest.
Qed.

Lemma ensurePath_no_lone_backslash_witness :
  Paths.ensurePath Examples.windows "file:////host/share/"
  = Ok (backslash ++ backslash ++ "host" ++ backslash ++ "share" ++ backslash)
  /\ Paths.ensurePath Examples.windows "file:///C:/ws/" = Ok ("C:" ++ backslash ++ "ws" ++ backslash)
  /\ startsWith (backslash ++ backslash)
       (backslash ++ backslash ++ "host" ++ backslash ++ "share" ++ backslash) = true.
Proof.
  split; [reflexivity|]. split; [reflexivity|].
  apply (ensurePath_no_lone_backslash Examples.windows "file:////host/share/");
    reflexivity.
Defined.

(** ** The walk leaves what it finds *)

Lemma sameSymbol_refl (s : Symbol) : sameSymbol s s.
Proof. repeat split. Qed.

Lemma keeps_refl (t : Symbol) : keeps t t.
Proof. intros ref s Hd. exists s. split; [exact Hd | apply sameSymbol_refl]. Qed.

Lemma keeps_trans (t1 t2 t3 : Symbol) : keeps t1 t2 -> keeps t2 t3 -> keeps t1 t3.
Proof.
  intros H12 H23 ref s Hd.
  destruct (H12 ref s Hd) as (s2 & Hd2 & Hc2 & Hn2 & Hx2 & Hl2).
  destruct (H23 ref s2 Hd2) as (s3 & Hd3 & Hc3 & Hn3 & Hx3 & Hl3).
  exists s3. split; [exact Hd3|]. repeat split; congruence.
Qed.

Lemma keeps_children (s : Symbol) (ch : list Symbol) :
  (forall j c, children s !! j = Some c -> exists c', ch !! j = Some c' /\ keeps c c') ->
  keeps s (mkSymbol (cls s) (name s) (context s) (location s) ch).
Proof.
  intros H ref x Hd.
  destruct (ref_cases ref) as [-> | (r & j & ->)].
  - cbn in Hd. injection Hd as <-. eexists. split; [reflexivity | repeat split].
  - rewrite deref_snoc in Hd. rewrite deref_snoc. cbn [children].
    destruct (children s !! j) as [c|] eqn:Hj; [|discriminate].
    destruct (H j c Hj) as (c' & -> & Hkeep). exact (Hkeep r x Hd).
Qed.

Lemma keeps_alter (f : Symbol -> Symbol) (i : nat) (s : Symbol) :
  (forall c, keeps c (f c)) ->
  keeps s (mkSymbol (cls s) (name s) (context s) (location s) (alter f i (children s))).
Proof.
  intros Hf. apply keeps_children. intros j c Hj.
  destruct (decide (i = j)) as [<- | Hne].
  - exists (f c). rewrite list_lookup_alter_eq, Hj. split; [reflexivity | apply Hf].
  - exists c. rewrite list_lookup_alter_ne by exact Hne. split; [exact Hj | apply keeps_refl].
Qed.

Lemma keeps_modify (ref : SymRef) (f : Symbol -> Symbol) (table : Symbol) :
  (forall s, keeps s (f s)) -> keeps table (modify ref f table).
Proof.
  revert f. induction ref as [|i up IH]; intros f Hf; cbn [modify].
  - apply Hf.
  - apply IH. intros s. apply keeps_alter. exact Hf.
Qed.

Lemma keeps_pushChild (c s : Symbol) : keeps s (pushChild c s).
Proof.
  unfold pushChild. apply keeps_children. intros j x Hj.
  exists x. split; [|apply keeps_refl].
  apply lookup_app_l_Some. exact Hj.
Qed.

Lemma undisturbed_refl (v : SymbolTableVisitor) : undisturbed v v.
Proof. repeat split. apply keeps_refl. Qed.

Lemma undisturbed_trans (v1 v2 v3 : SymbolTableVisitor) :
  undisturbed v1 v2 -> undisturbed v2 v3 -> undisturbed v1 v3.
Proof.
  intros (Ho & Hs & Hk) (Ho' & Hs' & Hk').
  split; [congruence|]. split.
  - intros Hsome. rewrite Hs', (Hs Hsome); [reflexivity|].
    rewrite (Hs Hsome). exact Hsome.
  - eapply keeps_trans; eassumption.
Qed.

(** What [addNewSymbolOfType] does to the visitor: it throws and changes
    nothing, or it pushes the new symbol at the end of the target scope and
    returns its place. *)
Lemma addNew_cases (t : SymbolClass) (p : option SymRef) (n : string)
      (v : SymbolTableVisitor) :
  (exists e, addNew t p n v = (Throw e, v))
  \/ exists s,
       deref (SymbolTable.self (symbolTable v)) (targetOf p) = Some s
       /\ instanceofScopedSymbol (cls s) = true
       /\ addNew t p n v
          = (Ok (length (children s) :: targetOf p),
             modifySymbol (targetOf p) (pushChild (newSymbol t n)) v).
Proof.
  destruct v as [u [options table] sc].
  unfold addNew, addNewSymbolOfType, modifySymbol, setSymbolTable.
  cbn [symbolTable documentUri scope SymbolTable.self SymbolTable.options].
  assert (Hsame : (match p with
                   | None => addSymbol (SymbolTable.mk options table) [] (newSymbol t n)
                   | Some q => addSymbol (SymbolTable.mk options table) q (newSymbol t n)
                   end) = addSymbol (SymbolTable.mk options table) (targetOf p) (newSymbol t n)).
  { destruct p; reflexivity. }
  rewrite Hsame. unfold addSymbol.
  cbn [SymbolTable.self SymbolTable.options].
  destruct (deref table (targetOf p)) as [s|]; [|left; eexists; reflexivity].
  destruct (instanceofScopedSymbol (cls s)) eqn:Hscoped; cbn [negb];
    [|left; eexists; reflexivity].
  destruct (negb _ && duplicateOf _ _); [left; eexists; reflexivity|].
  right. exists s. split; [reflexivity|]. split; [exact Hscoped | reflexivity].
Qed.

Lemma registerDeclaration_cases (symbol : SymRef) (tree declarationName : ParseTree)
      (v : SymbolTableVisitor) :
  (exists e, registerDeclaration symbol tree declarationName v = (Throw e, v))
  \/ exists range selection,
       getRange tree = Ok range /\ getRange declarationName = Ok selection
       /\ registerDeclaration symbol tree declarationName v
          = (Ok tt, modifySymbol symbol
                      (setLocation (LocationLink.create (documentUri v) range selection)) v).
Proof.
  unfold registerDeclaration, bind, gets, lift, update.
  destruct (getRange tree) as [range|e]; [|left; eexists; reflexivity].
  destruct (getRange declarationName) as [selection|e]; [|left; eexists; reflexivity].
  right. eexists _, _. repeat split; reflexivity.
Qed.

Lemma undisturbed_pushed (target : SymRef) (c : Symbol) (v : SymbolTableVisitor) :
  undisturbed v (modifySymbol target (pushChild c) v).
Proof.
  repeat split. cbn. apply keeps_modify. intros s. apply keeps_pushChild.
Qed.

Lemma undisturbed_declare (t : SymbolClass) (p : option SymRef) (n : string)
      (tree declarationName : ParseTree) (rest : M SymbolTableVisitor unit) :
  preserves undisturbed rest ->
  preserves undisturbed
    (symbol <- addNew t p n ;; registerDeclaration symbol tree declarationName ;;; rest).
Proof.
  intros Hrest v. unfold bind at 1.
  destruct (addNew_cases t p n v) as [[e ->] | (s & Hs & _ & ->)];
    [apply undisturbed_refl|].
  set (v1 := modifySymbol (targetOf p) (pushChild (newSymbol t n)) v).
  unfold bind.
  destruct (registerDeclaration_cases (length (children s) :: targetOf p)
              tree declarationName v1) as [[e ->] | (range & selection & _ & _ & ->)].
  - apply undisturbed_pushed.
  - subst v1. rewrite (modifySymbol_pushed _ _ _ s) by exact Hs.
    eapply undisturbed_trans; [apply undisturbed_pushed | apply Hrest].
Qed.

Lemma withDeclaration_run {T} (declaration declarationName : ParseTree)
      (type : SymbolClass) (n : string) (action : M SymbolTableVisitor T)
      (v : SymbolTableVisitor) :
  withDeclaration declaration declarationName type n action v =
    match addNew type (scope v) n v with
    | (Throw e, v1) => (Throw e, v1)
    | (Ok opened, v1) =>
        let v3 := setScope (Some opened)
                           (modifySymbol opened (setContext (nodeId declaration)) v1) in
        match registerDeclaration opened declaration declarationName v3 with
        | (Throw e, v4) => (Throw e, setScope (parent opened) v4)
        | (Ok _, v4) => let '(r, v5) := action v4 in (r, setScope (parent opened) v5)
        end
    end.
Proof.
  unfold withDeclaration, withScope. unfold bind at 1. unfold gets at 1. unfold bind at 1.
  destruct (addNew type (scope v) n v) as [[opened|e] v1]; [|reflexivity].
  unfold tryFinally, bind, update, gets.
  cbn -[registerDeclaration modifySymbol setContext parent].
  match goal with
  | |- context [registerDeclaration opened declaration declarationName ?x] =>
      destruct (registerDeclaration opened declaration declarationName x) as [[[]|e] v4]
  end; reflexivity.
Qed.

Lemma undisturbed_withDeclaration (declaration declarationName : ParseTree)
      (type : SymbolClass) (n : string) (action : M SymbolTableVisitor unit) :
  preserves undisturbed action ->
  preserves undisturbed (withDeclaration declaration declarationName type n action).
Proof.
  intros Haction v. rewrite withDeclaration_run.
  destruct (addNew_cases type (scope v) n v) as [[e ->] | (s & Hs & _ & ->)];
    [apply undisturbed_refl|].
  rewrite (modifySymbol_pushed _ _ _ s) by exact Hs.
  set (opened := (length (children s) :: targetOf (scope v))).
  set (anchored := setContext (nodeId declaration) (newSymbol type n)).
  cbv zeta.
  match goal with
  | |- context [registerDeclaration opened declaration declarationName ?x] => set (v3 := x)
  end.
  assert (Hback : forall v', undisturbed v3 v' ->
                    keeps (SymbolTable.self (symbolTable v)) (SymbolTable.self (symbolTable v3)) ->
                    undisturbed v (setScope (parent opened) v')).
  { intros v' (Ho & _ & Hk) Hk3. split; [exact Ho|]. split.
    - intros [cur Hcur]. cbn. rewrite Hcur. reflexivity.
    - cbn. eapply keeps_trans; [exact Hk3 | exact Hk]. }
  assert (Hk3 : keeps (SymbolTable.self (symbolTable v)) (SymbolTable.self (symbolTable v3))).
  { cbn. apply keeps_modify. intros s0. apply keeps_pushChild. }
  destruct (registerDeclaration_cases opened declaration declarationName v3)
    as [[e ->] | (range & selection & _ & _ & ->)].
  - apply Hback; [apply undisturbed_refl | exact Hk3].
  - set (l := LocationLink.create (documentUri v3) range selection).
    assert (Hv4 : modifySymbol opened (setLocation l) v3
                  = setScope (Some opened)
                      (modifySymbol (targetOf (scope v)) (pushChild (setLocation l anchored)) v)).
    { subst v3. unfold setScope, modifySymbol, setSymbolTable.
      cbn [documentUri symbolTable scope SymbolTable.self SymbolTable.options].
      f_equal. f_equal. subst opened. apply modify_pushed. exact Hs. }
    rewrite Hv4.
    set (v4 := setScope (Some opened) _).
    pose proof (Haction v4) as (Ho & _ & Hk).
    destruct (action v4) as [r v5]. cbn [snd] in *.
    split; [exact Ho|]. split.
    + intros [cur Hcur]. cbn. rewrite Hcur. reflexivity.
    + cbn [symbolTable setScope]. eapply keeps_trans; [|exact Hk].
      cbn. apply keeps_modify. intros s0. apply keeps_pushChild.
Qed.

Ltac quietly :=
  repeat
    match goal with
    | |- preserves _ (bind _ _) =>
        apply (preserves_bind undisturbed undisturbed_trans); [|intros ?]
    | |- preserves _ (ret _) => apply (preserves_ret undisturbed undisturbed_refl)
    | |- preserves _ (throw _) => apply (preserves_throw undisturbed undisturbed_refl)
    | |- preserves _ (lift _) => apply (preserves_lift undisturbed undisturbed_refl)
    | |- preserves _ (gets _) => apply (preserves_gets undisturbed undisturbed_refl)
    end.

Lemma undisturbed_visitChildren (l : list ParseTree) :
  Forall (fun tree => preserves undisturbed (visit tree)) l ->
  preserves undisturbed (visitChildren l).
Proof.
  induction 1 as [|c l Hc Hl IH]; cbn [visitChildren]; quietly; assumption.
Qed.

Lemma undisturbed_visit (tree : ParseTree) : preserves undisturbed (visit tree).
Proof.
  induction tree as [id symbol | id kind start stop children IH] using ParseTree_nested_ind.
  - cbn. quietly.
  - apply undisturbed_visitChildren in IH.
    rewrite visit_unfold. cbn zeta.
    destruct kind; try exact IH; unfold accessor; destruct (ruleChild _ _).
    + apply (preserves_bind undisturbed undisturbed_trans); [quietly|]. intros declarationName.
      apply (preserves_bind undisturbed undisturbed_trans); [quietly|]. intros current.
      apply undisturbed_declare. exact IH.
    + intros v. apply undisturbed_refl.
    + quietly. apply undisturbed_withDeclaration. exact IH.
    + intros v. apply undisturbed_refl.
Qed.

(** X5. A walk of the visitor over a tree that completes ends in the scope
    it started in: every scope a function declaration opened on the way has
    been left again. And whether the walk completes or throws, the visitor
    stays bound to the document it was bound to, and the table keeps its
    options. *)
Theorem visit_restores_scope (tree : ParseTree) (v : SymbolTableVisitor) (cur : SymRef) :
  scope v = Some cur ->
  (fst (visit tree v) = Ok tt -> scope (snd (visit tree v)) = Some cur)
  /\ documentUri (snd (visit tree v)) = documentUri v
  /\ SymbolTable.options (symbolTable (snd (visit tree v)))
     = SymbolTable.options (symbolTable v).
Proof.
  intros Hcur.
  destruct (undisturbed_visit tree v) as (Ho & Hs & _).
  destruct (registersIn_visit (documentUri v) tree v eq_refl) as [Hu _].
  split; [|split; assumption].
  intros _. rewrite Hs; [exact Hcur | rewrite Hcur; eauto].
Qed.

Lemma visit_restores_scope_witness :
  let v := atFileScope "file:///main.mykt" SymbolTableOptions.empty [] in
  scope (snd (visit Sample.file v)) = Some [0%nat]
  /\ documentUri (snd (visit Sample.file v)) = "file:///main.mykt"
  /\ SymbolTable.options (symbolTable (snd (visit Sample.file v))) = SymbolTableOptions.empty.
Proof.
  destruct (visit_restores_scope Sample.file
              (atFileScope "file:///main.mykt" SymbolTableOptions.empty []) [0%nat] eq_refl)
    as (Hscope & Hdoc & Hoptions).
  split; [apply Hscope; reflexivity | split; [exact Hdoc | exact Hoptions]].
Defined.

(** X6. The walk over a tree never removes, moves, renames, re-anchors or
    relocates a symbol that was in the table when it started: every such
    symbol is found at the same place afterwards with the class, name,
    anchor and location it had, whether the walk completes or throws. *)
Theorem visit_keeps_symbols (tree : ParseTree) (v : SymbolTableVisitor)
        (ref : SymRef) (s : Symbol) :
  deref (SymbolTable.self (symbolTable v)) ref = Some s ->
  exists s', deref (SymbolTable.self (symbolTable (snd (visit tree v)))) ref = Some s'
             /\ cls s' = cls s /\ name s' = name s
             /\ context s' = context s /\ location s' = location s.
Proof.
  intros Hd. destruct (undisturbed_visit tree v) as (_ & _ & Hk). exact (Hk ref s Hd).
Qed.

Lemma visit_keeps_symbols_witness :
  exists s',
    deref (SymbolTable.self (symbolTable (snd (visit Sample.twice (snd Sample.built)))))
          [1; 0]%nat = Some s'
    /\ cls s' = ClsRoutineSymbol /\ name s' = "f" /\ context s' = Some 20%nat
    /\ location s' = Some (LocationLink.create "file:///main.mykt"
                             (Range.mk (Position.mk 1 0) (Position.mk 4 1)) (Sample.span 1 4)).
Proof.
  exact (visit_keeps_symbols Sample.twice (snd Sample.built) [1; 0]%nat
           (mkSymbol ClsRoutineSymbol "f" (Some 20%nat)
              (Some (LocationLink.create "file:///main.mykt"
                       (Range.mk (Position.mk 1 0) (Position.mk 4 1)) (Sample.span 1 4)))
              (children (default (newSymbol ClsSymbol "")
                           (deref (SymbolTable.self (symbolTable (snd Sample.built)))
                                  [1; 0]%nat))))
           eq_refl).
Defined.

(** ** The walk completes on what can be declared *)

Lemma getRange_stop (parseTree : ParseTree) (stop : Token.t) :
  stopToken parseTree = Some stop ->
  getRange parseTree =
    Ok (Range.mk
          (Position.mk (Token.line (startToken parseTree) - 1)
                       (Token.charPositionInLine (startToken parseTree)))
          (Position.mk (Token.line stop - 1)
                       (Token.charPositionInLine stop
                        + Z.of_nat (String.length (Token.text stop))))).
Proof.
  destruct parseTree as [id k st sp ch | id sym]; cbn; intros H.
  - subst sp. reflexivity.
  - injection H as <-. reflexivity.
Qed.

Lemma bind_run {S A B} (m : M S A) (k : A -> M S B) (s s1 : S) (a : A) (r : Outcome B * S) :
  m s = (Ok a, s1) -> k a s1 = r -> bind m k s = r.
Proof. intros Hm Hk. unfold bind. rewrite Hm. exact Hk. Qed.

Lemma uniqueNames_prefix (l1 l2 : list Symbol) : uniqueNames (l1 ++ l2) -> uniqueNames l1.
Proof.
  intros H i j ci cj Hi Hj. apply (H i j ci cj); apply lookup_app_l_Some; assumption.
Qed.

Lemma uniqueNames_fresh (t : SymbolClass) (owned rest : list Symbol) (c : Symbol) :
  uniqueNames (owned ++ c :: rest) -> duplicateOf (newSymbol t (name c)) owned = false.
Proof.
  intros Hunique. unfold duplicateOf. cbn [name newSymbol].
  apply not_true_is_false. intros Hdup.
  apply existsb_exists in Hdup as (child & Hin & Hsame).
  apply andb_prop in Hsame as [Hnamed Hsame].
  apply String.eqb_eq in Hsame. apply negb_true_iff, String.eqb_neq in Hnamed.
  apply list_elem_of_In, list_elem_of_lookup in Hin as [i Hi].
  assert (Hlt : (i < length owned)%nat) by (eapply lookup_lt_Some; exact Hi).
  assert (i = length owned); [|lia].
  apply (Hunique i (length owned) child c).
  - apply lookup_app_l_Some. exact Hi.
  - rewrite lookup_app_r by lia. rewrite Nat.sub_diag. reflexivity.
  - exact Hsame.
  - rewrite Hsame. exact Hnamed.
Qed.

Lemma admits_first (options : SymbolTableOptions.t) (owned l1 l2 : list Symbol) :
  admits options owned (l1 ++ l2) -> admits options owned l1.
Proof.
  intros [Hallow | [Hunique Hfree]]; [left; exact Hallow | right].
  split.
  - rewrite app_assoc in Hunique. eapply uniqueNames_prefix. exact Hunique.
  - apply Forall_app in Hfree as [H _]. exact H.
Qed.

Lemma admits_rest (options : SymbolTableOptions.t) (owned l1 l2 : list Symbol) :
  admits options owned (l1 ++ l2) -> admits options (owned ++ l1) l2.
Proof.
  intros [Hallow | [Hunique Hfree]]; [left; exact Hallow | right].
  split.
  - rewrite <- app_assoc. exact Hunique.
  - apply Forall_app in Hfree as [_ H]. exact H.
Qed.

Lemma admits_inside (options : SymbolTableOptions.t) (owned : list Symbol) (c : Symbol) :
  admits options owned [c] -> admits options [] (children c).
Proof.
  intros [Hallow | [_ Hfree]]; [left; exact Hallow | right].
  apply Forall_inv in Hfree. split.
  - apply (Hfree [] c). reflexivity.
  - apply Forall_forall. intros x Hx.
    apply list_elem_of_lookup in Hx as [j Hj].
    eapply duplicateFree_child; eassumption.
Qed.

Lemma addNew_admitted (t : SymbolClass) (cur : SymRef) (c : Symbol) (rest : list Symbol)
      (s : Symbol) (v : SymbolTableVisitor) :
  deref (SymbolTable.self (symbolTable v)) cur = Some s ->
  instanceofScopedSymbol (cls s) = true ->
  admits (SymbolTable.options (symbolTable v)) (children s) (c :: rest) ->
  addNew t (Some cur) (name c) v
  = (Ok (length (children s) :: cur), modifySymbol cur (pushChild (newSymbol t (name c))) v).
Proof.
  intros Hs Hscoped Hadmits.
  destruct v as [u [options table] sc].
  unfold addNew, addNewSymbolOfType, addSymbol, modifySymbol, setSymbolTable.
  cbn [symbolTable documentUri scope SymbolTable.self SymbolTable.options] in *.
  rewrite Hs, Hscoped. cbn [negb].
  assert (Hpass : negb (truthy (SymbolTableOptions.allowDuplicateSymbols options))
                  && duplicateOf (newSymbol t (name c)) (children s) = false).
  { destruct Hadmits as [-> | [Hunique _]]; [reflexivity|].
    rewrite (uniqueNames_fresh t _ rest c Hunique). apply andb_false_r. }
  rewrite Hpass. reflexivity.
Qed.

Lemma registerDeclaration_run (symbol : SymRef) (tree declarationName : ParseTree)
      (range selection : Range.t) (v : SymbolTableVisitor) :
  getRange tree = Ok range -> getRange declarationName = Ok selection ->
  registerDeclaration symbol tree declarationName v
  = (Ok tt, modifySymbol symbol
              (setLocation (LocationLink.create (documentUri v) range selection)) v).
Proof.
  intros Hr Hs. unfold registerDeclaration, bind, gets, lift, update. rewrite Hr, Hs.
  reflexivity.
Qed.

Lemma hasStop_getRange (tree : ParseTree) :
  hasStop tree = true -> exists range, getRange tree = Ok range.
Proof.
  unfold hasStop. destruct (stopToken tree) as [stop|] eqn:Hstop; [|discriminate].
  intros _. rewrite (getRange_stop tree stop Hstop). eauto.
Qed.

Lemma modifySymbol_nothing (cur : SymRef) (v : SymbolTableVisitor) :
  modifySymbol cur (appendChildren []) v = v.
Proof.
  unfold modifySymbol. rewrite modify_id by apply appendChildren_nil.
  destruct v as [u [o t] sc]. reflexivity.
Qed.

Lemma visitChildren_completes (l : list ParseTree) :
  Forall completes l ->
  forall cur v s,
    forallb declarable l = true ->
    scope v = Some cur ->
    deref (SymbolTable.self (symbolTable v)) cur = Some s ->
    instanceofScopedSymbol (cls s) = true ->
    admits (SymbolTable.options (symbolTable v)) (children s)
           (symbolsOfAll (documentUri v) l) ->
    visitChildren l v
    = (Ok tt, modifySymbol cur (appendChildren (symbolsOfAll (documentUri v) l)) v).
Proof.
  induction 1 as [|c l Hc Hl IH]; intros cur v s Hdecl Hscope Hs Hscoped Hadmits.
  - cbn. rewrite modifySymbol_nothing. reflexivity.
  - cbn [forallb] in Hdecl. apply andb_prop in Hdecl as [Hdc Hdl].
    cbn [symbolsOfAll] in Hadmits |- *. cbn [visitChildren].
    eapply bind_run.
    + apply (Hc cur v s Hdc Hscope Hs Hscoped). eapply admits_first. exact Hadmits.
    + set (v1 := modifySymbol cur (appendChildren (symbolsOf (documentUri v) c)) v).
      rewrite (IH cur v1 (appendChildren (symbolsOf (documentUri v) c) s)).
      * subst v1. change (documentUri (modifySymbol cur _ v)) with (documentUri v).
        rewrite modifySymbol_modifySymbol. f_equal.
        apply modifySymbol_ext. intros s0 _. apply appendChildren_app.
      * exact Hdl.
      * exact Hscope.
      * subst v1. cbn. rewrite deref_modify, Hs. reflexivity.
      * exact Hscoped.
      * subst v1. cbn. apply admits_rest. exact Hadmits.
Qed.

Lemma visit_completes_all (tree : ParseTree) : completes tree.
Proof.
  induction tree as [id symbol | id kind start stop kids IH] using ParseTree_nested_ind;
    intros cur v s Hdecl Hscope Hs Hscoped Hadmits.
  - cbn. rewrite modifySymbol_nothing. reflexivity.
  - pose proof (visitChildren_completes kids IH) as Hchildren.
    rewrite visit_unfold. rewrite symbolsOf_unfold in Hadmits |- *. cbn zeta in *.
    cbn [declarable] in Hdecl. apply andb_prop in Hdecl as [Hnamed Hkids].
    set (tree := ParserRuleContext id kind start stop kids) in *.
    set (u := documentUri v) in *.
    destruct kind; try (apply (Hchildren cur v s); assumption).
    + (* variable declaration *)
      destruct (ruleChild SimpleIdentifier kids) as [declarationName|] eqn:Hname;
        [|discriminate Hnamed].
      apply andb_prop in Hnamed as [Hstop Hnstop].
      apply hasStop_getRange in Hstop as [range Hrange].
      apply hasStop_getRange in Hnstop as [selection Hselection].
      rewrite Hrange, Hselection in Hadmits |- *.
      set (variable := mkSymbol ClsVariableSymbol (nodeText declarationName) None
                                (Some (LocationLink.create u range selection)) []) in *.
      eapply bind_run; [unfold accessor; cbn [childrenOf tree]; rewrite Hname; reflexivity|].
      eapply bind_run; [reflexivity|]. rewrite Hscope.
      eapply bind_run;
        [exact (addNew_admitted ClsVariableSymbol cur variable _ s v Hs Hscoped Hadmits)|].
      eapply bind_run; [apply registerDeclaration_run; eassumption|].
      rewrite (modifySymbol_pushed _ _ _ s) by exact Hs.
      change (documentUri (modifySymbol cur _ v)) with u.
      change (setLocation (LocationLink.create u range selection)
                (newSymbol ClsVariableSymbol (name variable))) with variable.
      rewrite (Hchildren cur _ (pushChild variable s)).
      * change (documentUri (modifySymbol cur _ v)) with u.
        rewrite modifySymbol_modifySymbol. f_equal.
        apply modifySymbol_ext. intros s0 _. unfold appendChildren, pushChild. cbn.
        rewrite <- app_assoc. reflexivity.
      * exact Hkids.
      * exact Hscope.
      * apply (deref_pushed cur variable s v Hs).
      * exact Hscoped.
      * cbn [symbolTable modifySymbol setSymbolTable SymbolTable.options pushChild children].
        change (documentUri (modifySymbol cur _ v)) with u.
        apply (admits_rest _ _ [variable]). exact Hadmits.
    + (* function declaration *)
      destruct (ruleChild Identifier kids) as [fname|] eqn:Hname; [|discriminate Hnamed].
      apply andb_prop in Hnamed as [Hstop Hnstop].
      apply hasStop_getRange in Hstop as [range Hrange].
      apply hasStop_getRange in Hnstop as [selection Hselection].
      rewrite Hrange, Hselection in Hadmits |- *.
      set (routine := mkSymbol ClsRoutineSymbol (nodeText fname) (Some id)
                               (Some (LocationLink.create u range selection))
                               (symbolsOfAll u kids)) in *.
      eapply bind_run; [unfold accessor; cbn [childrenOf tree]; rewrite Hname; reflexivity|].
      rewrite withDeclaration_run, Hscope.
      pose proof (addNew_admitted ClsRoutineSymbol cur routine [] s v Hs Hscoped Hadmits)
        as Hadd.
      change (name routine) with (nodeText fname) in Hadd. rewrite Hadd. clear Hadd.
      cbv zeta. rewrite (modifySymbol_pushed _ _ _ s) by exact Hs.
      set (opened := length (children s) :: cur).
      rewrite (registerDeclaration_run opened tree fname range selection) by assumption.
      change (documentUri (setScope _ (modifySymbol cur _ v))) with u.
      set (located := setLocation (LocationLink.create u range selection)
                        (setContext (nodeId tree)
                           (newSymbol ClsRoutineSymbol (nodeText fname)))).
      match goal with
      | |- context [visitChildren kids ?x] =>
          assert (Hv4 : x = setScope (Some opened) (modifySymbol cur (pushChild located) v))
      end.
      { unfold setScope, modifySymbol, setSymbolTable.
        cbn [documentUri symbolTable scope SymbolTable.self SymbolTable.options].
        f_equal. f_equal. apply modify_pushed. exact Hs. }
      rewrite Hv4.
      rewrite (Hchildren opened _ located).
      * change (documentUri (setScope _ (modifySymbol cur _ v))) with u.
        cbn [parent opened]. f_equal.
        unfold setScope, modifySymbol, setSymbolTable.
        cbn [documentUri symbolTable scope SymbolTable.self SymbolTable.options].
        unfold opened. rewrite (modify_pushed _ _ _ s) by exact Hs.
        rewrite Hscope. reflexivity.
      * exact Hkids.
      * reflexivity.
      * apply (deref_pushed cur located s v Hs).
      * reflexivity.
      * change (documentUri (setScope _ (modifySymbol cur _ v))) with u.
        exact (admits_inside _ _ routine Hadmits).
Qed.

(** X7. The walk completes on every tree it can declare. Take a visitor
    whose current scope is a scoped symbol of its table, and a tree in which
    every variable declaration has its simple identifier, every function
    declaration its identifier, and each of them and its name a stop token.
    If the table allows duplicate symbols, or if adding what the tree declares
    puts no two symbols of one non-empty name into one scope, the walk does
    not throw and leaves the visitor as it was but for the scope, which has
    been given the symbols the tree declares, in source order. *)
Theorem declarable_tree_is_walked (tree : ParseTree) (v : SymbolTableVisitor)
        (cur : SymRef) (s : Symbol) :
  declarable tree = true ->
  scope v = Some cur ->
  deref (SymbolTable.self (symbolTable v)) cur = Some s ->
  instanceofScopedSymbol (cls s) = true ->
  admits (SymbolTable.options (symbolTable v)) (children s)
         (symbolsOf (documentUri v) tree) ->
  visit tree v
  = (Ok tt, modifySymbol cur (appendChildren (symbolsOf (documentUri v) tree)) v).
Proof. apply visit_completes_all. Qed.

Lemma declarable_tree_is_walked_witness :
  visit Sample.file (atFileScope "file:///main.mykt" SymbolTableOptions.empty [])
  = (Ok tt,
     modifySymbol [0%nat] (appendChildren (symbolsOf "file:///main.mykt" Sample.file))
                  (atFileScope "file:///main.mykt" SymbolTableOptions.empty [])).
Proof.
  set (declared := symbolsOf "file:///main.mykt" Sample.file).
  set (root := mkSymbol ClsScopedSymbol "" None None declared).
  assert (Htable : SymbolTable.self
                     (symbolTable
                        (snd (visit Sample.file
                                (atFileScope "file:///main.mykt" SymbolTableOptions.empty []))))
                   = mkSymbol ClsSymbolTable "" None None [root])
    by (vm_compute; reflexivity).
  destruct (refusesDuplicates_visit Sample.file
              (atFileScope "file:///main.mykt" SymbolTableOptions.empty []) eq_refl
              (duplicateFree_new _ _)) as [_ Hfree].
  rewrite Htable in Hfree.
  apply (declarable_tree_is_walked Sample.file
           (atFileScope "file:///main.mykt" SymbolTableOptions.empty []) [0%nat]
           (mkSymbol ClsScopedSymbol "" None None []));
    [vm_compute; reflexivity | reflexivity | reflexivity | reflexivity |].
  right. change (symbolsOf (documentUri _) Sample.file) with declared. split.
  - exact (Hfree [0%nat] root eq_refl).
  - apply Forall_forall. intros c Hc. apply list_elem_of_lookup in Hc as [j Hj].
    intros ref x Hd. apply (Hfree (ref ++ [j; 0%nat])%list x).
    rewrite deref_app. cbn [deref children lookup list_lookup]. fold declared.
    change (children root) with declared. rewrite Hj. exact Hd.
Defined.

Lemma symbolsOfAll_located (u : DocumentUri) (l : list ParseTree) :
  Forall (fun tree => Forall (locatedIn u) (symbolsOf u tree)) l ->
  Forall (locatedIn u) (symbolsOfAll u l).
Proof.
  induction 1 as [|c l Hc Hl IH]; cbn [symbolsOfAll]; [constructor|].
  apply Forall_app. split; assumption.
Qed.

Lemma locatedIn_declared (u : DocumentUri) (c : SymbolClass) (n : string)
      (ctx : option NodeId) (l : LocationLink.t) (inner : list Symbol) :
  LocationLink.targetUri l = u -> Forall (locatedIn u) inner ->
  locatedIn u (mkSymbol c n ctx (Some l) inner).
Proof.
  intros Hu Hinner q x.
  destruct (ref_cases q) as [-> | (r & j & ->)].
  - cbn. intros [= <-]. exists l. split; [reflexivity | exact Hu].
  - rewrite deref_snoc. cbn [children].
    destruct (inner !! j) as [child|] eqn:Hj; [|discriminate].
    apply (proj1 (Forall_lookup _ _) Hinner j child Hj).
Qed.

Lemma symbolsOf_located (u : DocumentUri) (tree : ParseTree) :
  Forall (locatedIn u) (symbolsOf u tree).
Proof.
  induction tree as [id symbol | id kind start stop kids IH] using ParseTree_nested_ind.
  - constructor.
  - apply symbolsOfAll_located in IH. rewrite symbolsOf_unfold. cbn zeta.
    destruct kind; try exact IH.
    + destruct (ruleChild SimpleIdentifier kids) as [declarationName|]; [|exact IH].
      destruct (getRange _) as [range|]; [|exact IH].
      destruct (getRange declarationName) as [selection|]; [|exact IH].
      constructor; [|exact IH]. apply locatedIn_declared; [reflexivity | constructor].
    + destruct (ruleChild Identifier kids) as [fname|]; [|constructor].
      destruct (getRange _) as [range|]; [|constructor].
      destruct (getRange fname) as [selection|]; constructor; [|constructor].
      apply locatedIn_declared; [reflexivity | exact IH].
Qed.

(** X8. When the walk over a tree completes, everything it declared can be
    found: every symbol it added to the scope it started in, and every symbol
    below one of those, has a location, and that location is in the document
    the visitor is bound to. (A walk that throws can leave its last symbol
    without a location.) The symbols the scope owned before keep their
    places, so the added ones are those from the old number of children on. *)
Theorem completed_walk_locates_declarations (tree : ParseTree) (v v' : SymbolTableVisitor)
        (cur : SymRef) (s : Symbol) :
  visit tree v = (Ok tt, v') ->
  scope v = Some cur ->
  deref (SymbolTable.self (symbolTable v)) cur = Some s ->
  forall j below x,
    (length (children s) <= j)%nat ->
    deref (SymbolTable.self (symbolTable v')) (below ++ j :: cur)%list = Some x ->
    exists l, location x = Some l /\ LocationLink.targetUri l = documentUri v.
Proof.
  intros Hrun Hscope Hs j below x Hj.
  destruct (visit_builds tree cur v v' s Hrun Hscope Hs) as [-> _].
  rewrite deref_app. cbn [deref symbolTable modifySymbol setSymbolTable SymbolTable.self].
  rewrite deref_modify, Hs. cbn [fmap option_fmap option_map appendChildren children].
  rewrite lookup_app_r by exact Hj.
  destruct (symbolsOf (documentUri v) tree !! (j - length (children s))%nat) as [c|] eqn:Hc;
    [|discriminate].
  apply (proj1 (Forall_lookup _ _) (symbolsOf_located (documentUri v) tree) _ c Hc).
Qed.

Lemma completed_walk_locates_declarations_witness :
  exists l,
    location (mkSymbol ClsVariableSymbol "x" None
                (Some (LocationLink.create "file:///main.mykt" (Sample.span 2 6)
                         (Sample.span 2 6))) [])
    = Some l
    /\ LocationLink.targetUri l = "file:///main.mykt".
Proof.
  assert (Hrun : visit Sample.file
                   (atFileScope "file:///main.mykt" SymbolTableOptions.empty [])
                 = (Ok tt, snd Sample.built)) by (vm_compute; reflexivity).
  apply (completed_walk_locates_declarations Sample.file
           (atFileScope "file:///main.mykt" SymbolTableOptions.empty [])
           (snd Sample.built) [0%nat] (mkSymbol ClsScopedSymbol "" None None [])
           Hrun eq_refl eq_refl 1%nat [0%nat]
           (mkSymbol ClsVariableSymbol "x" None
              (Some (LocationLink.create "file:///main.mykt" (Sample.span 2 6)
                       (Sample.span 2 6))) []));
    [cbn; lia | vm_compute; reflexivity].
Defined.

(** ** The constructor *)

(** X9. The constructor of the visitor does not throw on any symbol table,
    also one that refuses duplicate symbols and already owns anonymous scopes
    (a table that is shared by several visitors): anonymous symbols are exempt
    from the duplicate test. The new visitor is bound to the given document;
    its scope is a new anonymous [ScopedSymbol] without anchor or location,
    appended after the symbols the table already owned, which stay as they
    were. *)
Theorem constructor_opens_file_scope (uri0 : DocumentUri) (symbolTable0 : SymbolTable.t) :
  cls (SymbolTable.self symbolTable0) = ClsSymbolTable ->
  exists v,
    construct uri0 symbolTable0 = Ok v
    /\ documentUri v = uri0
    /\ SymbolTable.options (symbolTable v) = SymbolTable.options symbolTable0
    /\ scope v = Some [length (children (SymbolTable.self symbolTable0))]
    /\ deref (SymbolTable.self (symbolTable v))
             [length (children (SymbolTable.self symbolTable0))]
       = Some (mkSymbol ClsScopedSymbol "" None None [])
    /\ keeps (SymbolTable.self symbolTable0) (SymbolTable.self (symbolTable v)).
Proof.
  intros Hcls. unfold construct, addNewSymbolOfType, addSymbol.
  cbn [deref]. rewrite Hcls. cbn [instanceofScopedSymbol negb].
  assert (Hanonymous : duplicateOf (newSymbol ClsScopedSymbol "")
                         (children (SymbolTable.self symbolTable0)) = false).
  { unfold duplicateOf. induction (children _) as [|c l IH]; [reflexivity | exact IH]. }
  rewrite Hanonymous, andb_false_r. eexists. split; [reflexivity|].
  cbn [documentUri symbolTable scope SymbolTable.options SymbolTable.self modify].
  repeat split.
  - cbn [deref pushChild children]. rewrite lookup_app_r by lia.
    rewrite Nat.sub_diag. reflexivity.
  - apply keeps_pushChild.
Qed.

Lemma constructor_opens_file_scope_witness :
  exists v,
    construct "file:///b.mykt" (symbolTable (snd Sample.built)) = Ok v
    /\ documentUri v = "file:///b.mykt"
    /\ SymbolTable.options (symbolTable v) = SymbolTableOptions.empty
    /\ scope v = Some [1%nat]
    /\ deref (SymbolTable.self (symbolTable v)) [1%nat]
       = Some (mkSymbol ClsScopedSymbol "" None None [])
    /\ keeps (SymbolTable.self (symbolTable (snd Sample.built)))
             (SymbolTable.self (symbolTable v)).
Proof.
  apply (constructor_opens_file_scope "file:///b.mykt" (symbolTable (snd Sample.built))).
  reflexivity.
Defined.

(** ** Invariants of the visitor, through the imports *)

Lemma preserves_ret_bind {S A B} (R : S -> S -> Prop) (a : A) (k : A -> M S B) :
  preserves R (k a) -> preserves R (bind (ret a) k).
Proof. intros H s. exact (H s). Qed.

Section ThroughImports.
Context (R : SymbolTableVisitor -> SymbolTableVisitor -> Prop).
Context (allowed : DocumentUri -> Prop).
Context (R_refl : forall v, R v v).
Context (R_trans : forall v1 v2 v3, R v1 v2 -> R v2 v3 -> R v1 v3).
Context (R_visit : forall tree, preserves R (visit tree)).
Context (R_rebind : forall u v, allowed u -> R v (setDocumentUri u v)).

Lemma onWorlds_refl (w : World) : onWorlds R w w.
Proof. apply R_refl. Qed.

Lemma onWorlds_trans (w1 w2 w3 : World) :
  onWorlds R w1 w2 -> onWorlds R w2 w3 -> onWorlds R w1 w3.
Proof. apply R_trans. Qed.

Lemma onWorlds_onVisitor {A} (m : M SymbolTableVisitor A) :
  preserves R m -> preserves (onWorlds R) (onVisitor m).
Proof.
  intros Hm w. unfold onVisitor, onWorlds. pose proof (Hm (visitor w)) as H.
  destruct (m (visitor w)) as [r v']. exact H.
Qed.

Lemma onWorlds_showErrorMessage (msg : string) :
  preserves (onWorlds R) (showErrorMessage msg).
Proof. intros w. apply R_refl. Qed.

Lemma onWorlds_consoleError (e : JsError) : preserves (onWorlds R) (consoleError e).
Proof. intros w. apply R_refl. Qed.

Lemma onWorlds_processImport (host : Host) (path : string) :
  preserves (onWorlds R) (processImport host path).
Proof.
  unfold processImport.
  apply (preserves_tryCatch (onWorlds R) onWorlds_trans).
  - apply (preserves_bind (onWorlds R) onWorlds_trans).
    + apply (preserves_lift (onWorlds R) onWorlds_refl).
    + intros data. apply onWorlds_onVisitor. apply R_visit.
  - intros e. apply (preserves_bind (onWorlds R) onWorlds_trans).
    + apply onWorlds_showErrorMessage.
    + intros _. apply onWorlds_consoleError.
Qed.

Lemma onWorlds_processImportHeader (host : Host) (baseUri basePath : string)
      (import : ParseTree) :
  (forall u, importUri baseUri import = Some u -> allowed u) ->
  preserves (onWorlds R) (processImportHeader host baseUri basePath import).
Proof.
  intros Hallowed. unfold processImportHeader, accessor. unfold importUri in Hallowed.
  destruct (ruleChild Identifier (childrenOf import)) as [identifier|];
    [|intros w; apply R_refl].
  apply preserves_ret_bind. cbv zeta.
  destruct (existsSync host _); [|apply onWorlds_showErrorMessage].
  apply (preserves_bind (onWorlds R) onWorlds_trans).
  - apply onWorlds_onVisitor. intros v. apply R_rebind. apply Hallowed. reflexivity.
  - intros _. apply onWorlds_processImport.
Qed.

Lemma onWorlds_forEachImport (host : Host) (baseUri basePath : string)
      (imports : list ParseTree) :
  (forall import u, In import imports -> importUri baseUri import = Some u -> allowed u) ->
  preserves (onWorlds R) (forEachImport host baseUri basePath imports).
Proof.
  induction imports as [|import rest IH]; intros Hallowed; cbn [forEachImport].
  - apply (preserves_ret (onWorlds R) onWorlds_refl).
  - apply (preserves_bind (onWorlds R) onWorlds_trans).
    + apply onWorlds_processImportHeader. intros u. apply Hallowed. left. reflexivity.
    + intros _. apply IH. intros i u Hi. apply Hallowed. right. exact Hi.
Qed.

Lemma onWorlds_processImports (host : Host) (imports : list ParseTree) (w : World) :
  allowed (documentUri (visitor w)) ->
  (forall import u, In import imports ->
                    importUri (computeBaseUri (documentUri (visitor w))) import = Some u ->
                    allowed u) ->
  onWorlds R w (snd (processImports host imports w)).
Proof.
  intros Hdoc Hallowed. unfold processImports.
  unfold bind at 1. unfold gets at 1.
  set (uri0 := documentUri (visitor w)) in *.
  assert (H : preserves (onWorlds R)
                (basePath <- lift (ensurePath host (computeBaseUri uri0)) ;;
                 forEachImport host (computeBaseUri uri0) basePath imports ;;;
                 onVisitor (update (setDocumentUri uri0)))).
  { apply (preserves_bind (onWorlds R) onWorlds_trans);
      [apply (preserves_lift (onWorlds R) onWorlds_refl)|].
    intros basePath. apply (preserves_bind (onWorlds R) onWorlds_trans).
    - apply onWorlds_forEachImport. exact Hallowed.
    - intros _. apply onWorlds_onVisitor. intros v. apply R_rebind. exact Hdoc. }
  exact (H w).
Qed.

Lemma onWorlds_parseDocument (host : Host) (uri0 : DocumentUri) (text : string) (w : World) :
  allowed (documentUri (visitor w)) ->
  (forall imports import u,
      importsOf (kotlinFile host text) = Some imports -> In import imports ->
      importUri (computeBaseUri (documentUri (visitor w))) import = Some u -> allowed u) ->
  onWorlds R w (snd (parseDocument host uri0 text w)).
Proof.
  intros Hdoc Hallowed. unfold parseDocument. cbv zeta. unfold bind.
  assert (Hfirst : onWorlds R w
            (snd (match importsOf (kotlinFile host text) with
                  | Some imports => processImports host imports
                  | None => ret tt
                  end w))).
  { destruct (importsOf (kotlinFile host text)) as [imports|]; [|apply R_refl].
    apply onWorlds_processImports; [exact Hdoc|].
    intros import u. apply Hallowed. reflexivity. }
  destruct (match importsOf (kotlinFile host text) with
            | Some imports => processImports host imports
            | None => ret tt
            end w) as [[[]|e] w1]; [|exact Hfirst].
  eapply onWorlds_trans; [exact Hfirst|].
  apply (onWorlds_onVisitor (visit (kotlinFile host text)) (R_visit _)).
Qed.

End ThroughImports.

(** X10. [processImport] never throws. A file that cannot be read leaves the
    visitor untouched; a walk over the imported tree that throws leaves what
    it had declared so far. Either failure shows one message, which names the
    path and the error, and writes the error to the console; a successful
    import shows and writes nothing. In every case the visitor stays bound to
    the same document and every symbol that was in the table stays as it
    was. *)
Theorem processImport_contains_failures (host : Host) (path : string) (w : World) :
  let after := snd (processImport host path w) in
  let report := fun e : JsError =>
    "Cannot read from imported file " ++ path ++ ": " ++ errorToString e in
  fst (processImport host path w) = Ok tt
  /\ documentUri (visitor after) = documentUri (visitor w)
  /\ keeps (SymbolTable.self (symbolTable (visitor w)))
           (SymbolTable.self (symbolTable (visitor after)))
  /\ match readFileSync host path with
     | Throw e =>
         after = mkWorld (visitor w) (shown w ++ [report e]) (logged w ++ [e])
     | Ok data =>
         match visit (kotlinFile host data) (visitor w) with
         | (Ok _, v') => after = mkWorld v' (shown w) (logged w)
         | (Throw e, v') => after = mkWorld v' (shown w ++ [report e]) (logged w ++ [e])
         end
     end.
Proof.
  intros after report. split; [apply processImport_completes|].
  split; [|split].
  - subst after.
    apply (registersIn_processImport host path (documentUri (visitor w)) w). reflexivity.
  - subst after.
    apply (onWorlds_processImport undisturbed undisturbed_refl undisturbed_trans
             undisturbed_visit host path w).
  - subst after. unfold processImport, tryCatch, bind, lift.
    destruct (readFileSync host path) as [data|e]; [|reflexivity].
    unfold onVisitor.
    destruct (visit (kotlinFile host data) (visitor w)) as [[[]|e] v']; reflexivity.
Qed.

Lemma undisturbed_rebind (u : DocumentUri) (v : SymbolTableVisitor) :
  undisturbed v (setDocumentUri u v).
Proof. repeat split. apply keeps_refl. Qed.

Lemma refusesDuplicates_rebind (u : DocumentUri) (v : SymbolTableVisitor) :
  refusesDuplicates v (setDocumentUri u v).
Proof. intros Ho Hf. split; assumption. Qed.

Lemma locatedAmong_refl (allowed : DocumentUri -> Prop) (t : Symbol) :
  locatedAmong allowed t t.
Proof. intros ref s' l Hd Hl. right. eauto. Qed.

Lemma locatedAmong_trans (allowed : DocumentUri -> Prop) (t1 t2 t3 : Symbol) :
  locatedAmong allowed t1 t2 -> locatedAmong allowed t2 t3 -> locatedAmong allowed t1 t3.
Proof.
  intros H12 H23 ref s3 l Hd Hl.
  destruct (H23 ref s3 l Hd Hl) as [Hu | (s2 & Hd2 & Hl2)]; [left; exact Hu|].
  exact (H12 ref s2 l Hd2 Hl2).
Qed.

Lemma registersAmong_refl (allowed : DocumentUri -> Prop) (v : SymbolTableVisitor) :
  registersAmong allowed v v.
Proof. intros Hu. split; [exact Hu | apply locatedAmong_refl]. Qed.

Lemma registersAmong_trans (allowed : DocumentUri -> Prop) (v1 v2 v3 : SymbolTableVisitor) :
  registersAmong allowed v1 v2 -> registersAmong allowed v2 v3 -> registersAmong allowed v1 v3.
Proof.
  intros H12 H23 Hu. destruct (H12 Hu) as [Hu2 Hl2]. destruct (H23 Hu2) as [Hu3 Hl3].
  split; [exact Hu3 | eapply locatedAmong_trans; eassumption].
Qed.

Lemma registersAmong_visit (allowed : DocumentUri -> Prop) (tree : ParseTree) :
  preserves (registersAmong allowed) (visit tree).
Proof.
  intros v Hu.
  destruct (registersIn_visit (documentUri v) tree v eq_refl) as [Hdoc Hloc].
  split; [rewrite Hdoc; exact Hu|].
  intros ref s' l Hd Hl.
  destruct (Hloc ref s' l Hd Hl) as [Htarget | Hold]; [left | right; exact Hold].
  rewrite Htarget. exact Hu.
Qed.

Lemma registersAmong_rebind (allowed : DocumentUri -> Prop) (u : DocumentUri)
      (v : SymbolTableVisitor) :
  allowed u -> registersAmong allowed v (setDocumentUri u v).
Proof. intros Hu _. split; [exact Hu | apply locatedAmong_refl]. Qed.

(** The table of a new visitor holds the table symbol and the anonymous
    file scope, and nothing else. *)
Lemma deref_new (uri0 : DocumentUri) (options : SymbolTableOptions.t)
      (ref : SymRef) (s : Symbol) :
  deref (SymbolTable.self (symbolTable (atFileScope uri0 options []))) ref = Some s ->
  location s = None /\ name s = "".
Proof.
  cbn [atFileScope symbolTable SymbolTable.self].
  destruct (ref_cases ref) as [-> | (r & j & ->)].
  - cbn. intros [= <-]. split; reflexivity.
  - rewrite deref_snoc. cbn [children].
    destruct j as [|j]; cbn [lookup list_lookup]; [|destruct j; discriminate].
    destruct (ref_cases r) as [-> | (r' & k & ->)].
    + cbn. intros [= <-]. split; reflexivity.
    + rewrite deref_snoc. cbn. discriminate.
Qed.

Lemma parseDocument_documentUri (host : Host) (uri0 : DocumentUri) (text : string)
      (w w' : World) :
  parseDocument host uri0 text w = (Ok tt, w') ->
  documentUri (visitor w') = documentUri (visitor w).
Proof.
  unfold parseDocument. cbv zeta. unfold bind at 1.
  destruct (match importsOf (kotlinFile host text) with
            | Some imports => processImports host imports
            | None => ret tt
            end w) as [[[]|e] w1] eqn:Himports; [|discriminate].
  assert (Hu : documentUri (visitor w1) = documentUri (visitor w)).
  { destruct (importsOf (kotlinFile host text)) as [imports|].
    - revert Himports. unfold processImports, bind, gets, lift, onVisitor, update.
      destruct (ensurePath host _) as [basePath|e]; [|discriminate].
      destruct (forEachImport host _ basePath imports w) as [[[]|e] w2]; [|discriminate].
      intros [= <-]. reflexivity.
    - injection Himports as <-. reflexivity. }
  unfold onVisitor.
  pose proof (registersIn_visit (documentUri (visitor w1)) (kotlinFile host text)
                                (visitor w1) eq_refl) as [Hdoc _].
  destruct (visit (kotlinFile host text) (visitor w1)) as [r v'].
  intros [= _ <-]. cbn in *. congruence.
Qed.

(** What an uncached [ensureParsed] runs. *)
Lemma ensureParsed_uncached (host : Host) (s s' : Session) (parsed : Parsed) :
  parser (document s) = None ->
  ensureParsed host s = (Ok parsed, s') ->
  exists w,
    parseDocument host (uri (document s)) (getText (document s))
      (mkWorld (atFileScope (uri (document s)) SymbolTableOptions.empty [])
               (window s) (console s)) = (Ok tt, w)
    /\ parsed = mkParsed (mkParser (getText (document s)))
                         (Some (kotlinFile host (getText (document s))))
                         (Some (visitor w))
    /\ s' = mkSession (mkTextDocument (uri (document s)) (getText (document s))
                         (Some (mkParser (getText (document s))))
                         (Some (kotlinFile host (getText (document s))))
                         (Some (visitor w)))
                      (shown w) (logged w).
Proof.
  intros Hnone. unfold ensureParsed. rewrite Hnone.
  rewrite newSymbolTableVisitor_atFileScope.
  destruct (parseDocument host _ _ _) as [[[]|e] w]; [|discriminate].
  intros [= <- <-]. exists w. repeat split.
Qed.

(** X11. When [ensureParsed] has parsed a document, the visitor it caches is
    bound to the document's own URI again, whatever imports it went through,
    stands at the file scope (the anonymous scope, first child of the table),
    and its table, created with the options [{}], owns no two symbols of one
    non-empty name in any scope. *)
Theorem ensureParsed_visitor_at_file_scope (host : Host) (s s' : Session) (parsed : Parsed) :
  parser (document s) = None ->
  ensureParsed host s = (Ok parsed, s') ->
  exists v root,
    parsedVisitor parsed = Some v
    /\ symbolTableVisitor (document s') = Some v
    /\ documentUri v = uri (document s)
    /\ scope v = Some [0%nat]
    /\ SymbolTable.options (symbolTable v) = SymbolTableOptions.empty
    /\ deref (SymbolTable.self (symbolTable v)) [0%nat] = Some root
    /\ cls root = ClsScopedSymbol /\ name root = "" /\ location root = None
    /\ duplicateFree (SymbolTable.self (symbolTable v)).
Proof.
  intros Hnone Hrun.
  destruct (ensureParsed_uncached host s s' parsed Hnone Hrun) as (w & Hparse & -> & ->).
  set (d := document s) in *.
  set (w0 := mkWorld (atFileScope (uri d) SymbolTableOptions.empty []) (window s) (console s))
    in *.
  pose proof (parseDocument_documentUri host _ _ w0 w Hparse) as Hdoc.
  pose proof (onWorlds_parseDocument undisturbed (fun _ => True)
                undisturbed_refl undisturbed_trans undisturbed_visit
                (fun u v _ => undisturbed_rebind u v)
                host (uri d) (getText d) w0 I (fun _ _ _ _ _ _ => I)) as Hquiet.
  pose proof (onWorlds_parseDocument refusesDuplicates (fun _ => True)
                refusesDuplicates_refl refusesDuplicates_trans refusesDuplicates_visit
                (fun u v _ => refusesDuplicates_rebind u v)
                host (uri d) (getText d) w0 I (fun _ _ _ _ _ _ => I)) as Hfree.
  rewrite Hparse in Hquiet, Hfree. unfold onWorlds in Hquiet, Hfree. cbn [snd] in Hquiet, Hfree.
  destruct Hquiet as (Ho & Hs & Hk).
  destruct (Hk [0%nat] (mkSymbol ClsScopedSymbol "" None None []) eq_refl)
    as (root & Hroot & Hc & Hn & _ & Hl).
  destruct (Hfree eq_refl (duplicateFree_new (uri d) SymbolTableOptions.empty)) as [_ Hdup].
  exists (visitor w), root. cbn [parsedVisitor document symbolTableVisitor].
  split; [reflexivity|]. split; [reflexivity|]. split; [exact Hdoc|].
  split; [apply Hs; cbn; eauto|]. split; [exact Ho|].
  repeat split; assumption.
Qed.

Lemma ensureParsed_visitor_at_file_scope_witness :
  exists v root,
    parsedVisitor (mkParsed (mkParser Sample.mainText) (Some Sample.mainFile)
                            (Some (visitor (snd (parseDocument Sample.host Sample.mainUri
                                                   Sample.mainText Sample.importing)))))
    = Some v
    /\ symbolTableVisitor (document (snd (ensureParsed Sample.host Sample.opened))) = Some v
    /\ documentUri v = Sample.mainUri
    /\ scope v = Some [0%nat]
    /\ SymbolTable.options (symbolTable v) = SymbolTableOptions.empty
    /\ deref (SymbolTable.self (symbolTable v)) [0%nat] = Some root
    /\ cls root = ClsScopedSymbol /\ name root = "" /\ location root = None
    /\ duplicateFree (SymbolTable.self (symbolTable v)).
Proof.
  apply (ensureParsed_visitor_at_file_scope Sample.host Sample.opened
           (snd (ensureParsed Sample.host Sample.opened))); reflexivity.
Defined.

(** X12. The directory of the document is resolved before the loop over the
    imports, whether there is an import to process or not. So when the parse
    tree has an import list, even an empty one, and [ensurePath] throws on the
    base URI of the document, [ensureParsed] throws that error without having
    shown any message, and so does every definition request on the document,
    which stays unparsed. *)
Theorem unresolvable_directory_fails_parse (host : Host) (s : Session)
        (imports : list ParseTree) (e : JsError) :
  parser (document s) = None ->
  importsOf (kotlinFile host (getText (document s))) = Some imports ->
  ensurePath host (computeBaseUri (uri (document s))) = Throw e ->
  ensureParsed host s = (Throw e, s)
  /\ forall line character, definitionRequest host line character s = (Throw e, s).
Proof.
  intros Hnone Himports Hpath.
  assert (Hrun : ensureParsed host s = (Throw e, s)).
  { unfold ensureParsed. rewrite Hnone, newSymbolTableVisitor_atFileScope.
    unfold parseDocument. cbv zeta. rewrite Himports.
    unfold bind at 1. unfold processImports. unfold bind at 1. unfold gets at 1.
    cbn [visitor documentUri atFileScope]. unfold bind at 1. unfold lift at 1.
    rewrite Hpath. destruct s as [d shown0 logged0]. reflexivity. }
  split; [exact Hrun|]. intros line character.
  unfold definitionRequest, bind. rewrite Hrun. reflexivity.
Qed.

Lemma unresolvable_directory_fails_parse_witness :
  ensureParsed Examples.broken Sample.opened
  = (Throw (TypeError "must pass in a file:// URI to convert to a file path"), Sample.opened)
  /\ forall line character,
       definitionRequest Examples.broken line character Sample.opened
       = (Throw (TypeError "must pass in a file:// URI to convert to a file path"),
          Sample.opened).
Proof.
  apply (unresolvable_directory_fails_parse Examples.broken Sample.opened
           [Sample.importMissing; Sample.importLib]); reflexivity.
Defined.

(** ** The definition request: what it can answer *)

Lemma findDeclaration_names (symbolTable : SymbolTable.t) (name0 : string)
      (scope0 : option SymRef) (r : SymRef) :
  findDeclaration symbolTable name0 scope0 = Some r ->
  exists start skipped hit i symbol l,
    scope0 = Some start /\ start = (skipped ++ hit)%list /\ r = i :: hit
    /\ deref (SymbolTable.self symbolTable) r = Some symbol
    /\ name symbol = name0 /\ location symbol = Some l.
Proof.
  destruct scope0 as [start|]; [|discriminate]. cbn [findDeclaration]. intros Hfound.
  apply findDeclarationFrom_Some in Hfound as (skipped & hit & -> & Hanswer).
  apply answer_spec in Hanswer as (i & symbol & l & -> & Hd & Hn & Hl & _).
  exists (skipped ++ hit)%list, skipped, hit, i, symbol, l. repeat split; assumption.
Qed.

Lemma onDefinition_from_table (v : SymbolTableVisitor) (idx : Z)
      (node : ParseTree) (ancestors : Context) :
  let table := SymbolTable.self (symbolTable v) in
  let request := onDefinition v (Some (mkTokenPosition idx (node :: ancestors))) in
  (forall link, request = Ok (Some link) ->
     exists start declaration symbol l r,
       getScope (node :: ancestors) (symbolTable v) = Some start
       /\ findDeclaration (symbolTable v) (nodeText node) (Some start) = Some declaration
       /\ deref table declaration = Some symbol
       /\ name symbol = nodeText node
       /\ location symbol = Some l
       /\ getRange node = Ok r
       /\ link = LocationLink.mk (LocationLink.targetUri l) (LocationLink.targetRange l)
                                 (LocationLink.targetSelectionRange l) (Some r))
  /\ (forall e, request = Throw e ->
        stopToken node = None
        /\ e = stopUndefined
        /\ is_Some (findDeclaration (symbolTable v) (nodeText node)
                      (getScope (node :: ancestors) (symbolTable v)))).
Proof.
  intros table request. subst request. rewrite onDefinition_of_declaration. fold table.
  destruct (findDeclaration (symbolTable v) (nodeText node)
              (getScope (node :: ancestors) (symbolTable v))) as [declaration|] eqn:Hfound.
  - destruct (findDeclaration_names _ _ _ _ Hfound)
      as (start & skipped & hit & i & symbol & l & Hscope & _ & _ & Hd & Hn & Hl).
    fold table in Hd. rewrite Hd, Hl. split.
    + intros link. destruct (getRange node) as [r|e] eqn:Hr; [|discriminate].
      intros [= <-]. exists start, declaration, symbol, l, r.
      rewrite <- Hscope. repeat split; assumption.
    + intros e. destruct (getRange node) as [r|e'] eqn:Hr; [discriminate|]. intros [= ->].
      destruct (stopToken node) as [stop|] eqn:Hstop.
      * rewrite (getRange_stop node stop Hstop) in Hr. discriminate Hr.
      * split; [reflexivity|]. split; [|eauto].
        destruct node as [id k st sp ch | id sym]; cbn in Hstop, Hr; [|discriminate Hstop].
        subst sp. injection Hr as <-. reflexivity.
  - split; [intros link | intros e]; discriminate.
Qed.

Lemma ensureParsed_complete (host : Host) (s s' : Session) (parsed : Parsed) :
  wellCached (document s) ->
  ensureParsed host s = (Ok parsed, s') ->
  wellCached (document s')
  /\ exists tree v, parsedTree parsed = Some tree /\ parsedVisitor parsed = Some v.
Proof.
  intros Hcache. unfold ensureParsed.
  destruct (parser (document s)) as [p|] eqn:Hp.
  - destruct Hcache as [Hnone | [[tree Htree] [v Hv]]]; [rewrite Hp in Hnone; discriminate|].
    intros [= <- <-]. split; [right; split; eauto|]. exists tree, v. split; assumption.
  - destruct (newSymbolTableVisitor _) as [v0|e]; [|discriminate].
    destruct (parseDocument host _ _ _) as [[[]|e] w]; [|discriminate].
    intros [= <- <-]. split; [right; split; eauto|]. eexists _, _. split; reflexivity.
Qed.

Lemma ensureParsed_throw_wellCached (host : Host) (s s' : Session) (e : JsError) :
  wellCached (document s) ->
  ensureParsed host s = (Throw e, s') -> wellCached (document s').
Proof.
  intros Hcache. unfold ensureParsed.
  destruct (parser (document s)) as [p|] eqn:Hp; [discriminate|].
  destruct (newSymbolTableVisitor _) as [v0|e0]; [|intros [= _ <-]; exact Hcache].
  destruct (parseDocument host _ _ _) as [[[]|e0] w]; [discriminate|].
  intros [= _ <-]. exact Hcache.
Qed.

(** X13. The definition handler, on a document whose cache is empty or
    complete (as a content change and [ensureParsed] leave it), answers with
    a link only when [ensureParsed] returned, [computeTokenPosition] located
    the cursor at a node, and the lookup from the scope found for that node
    reached a symbol of the table that is named as the text of the node and
    has a location: the link is that location with the range of the node as
    its origin selection range. It throws only when [ensureParsed] threw,
    with the same error, or when a declaration was found and the node under
    the cursor has no stop token to take that range from. Either way the
    cache is empty or complete afterwards. *)
Theorem definitionRequest_answers_from_table (host : Host) (line character : Z)
        (s : Session) :
  wellCached (document s) ->
  let request := definitionRequest host line character s in
  let located := fun (parsed : Parsed) (tree : ParseTree) (v : SymbolTableVisitor)
                     (idx : Z) (node : ParseTree) (ancestors : Context) =>
    parsedTree parsed = Some tree
    /\ parsedVisitor parsed = Some v
    /\ computeTokenPosition host tree (inputStream (parsedParser parsed))
                            (line + 1, character)
       = Some (mkTokenPosition idx (node :: ancestors)) in
  (forall link s', request = (Ok (Some link), s') ->
     exists parsed tree v idx node ancestors start declaration symbol l r,
       ensureParsed host s = (Ok parsed, s')
       /\ located parsed tree v idx node ancestors
       /\ getScope (node :: ancestors) (symbolTable v) = Some start
       /\ findDeclaration (symbolTable v) (nodeText node) (Some start) = Some declaration
       /\ deref (SymbolTable.self (symbolTable v)) declaration = Some symbol
       /\ name symbol = nodeText node
       /\ location symbol = Some l
       /\ getRange node = Ok r
       /\ link = LocationLink.mk (LocationLink.targetUri l) (LocationLink.targetRange l)
                                 (LocationLink.targetSelectionRange l) (Some r))
  /\ (forall e s', request = (Throw e, s') ->
        ensureParsed host s = (Throw e, s')
        \/ exists parsed tree v idx node ancestors,
             ensureParsed host s = (Ok parsed, s')
             /\ located parsed tree v idx node ancestors
             /\ stopToken node = None
             /\ e = stopUndefined
             /\ is_Some (findDeclaration (symbolTable v) (nodeText node)
                           (getScope (node :: ancestors) (symbolTable v))))
  /\ wellCached (document (snd request)).
Proof.
  intros Hcache request located. subst request. unfold definitionRequest, bind.
  destruct (ensureParsed host s) as [[parsed|e0] s1] eqn:Hparsed.
  - destruct (ensureParsed_complete host s s1 parsed Hcache Hparsed)
      as (Hcache1 & tree & v & Htree & Hv).
    rewrite Htree, Hv. unfold lift.
    destruct (computeTokenPosition host tree (inputStream (parsedParser parsed))
                (line + 1, character)) as [[idx [|node ancestors]]|] eqn:Hposition;
      try (split; [|split; [|exact Hcache1]]; intros; discriminate).
    destruct (onDefinition_from_table v idx node ancestors) as [Hlink Hthrow].
    split; [|split; [|exact Hcache1]].
    + intros link s' [= Hrequest <-].
      destruct (Hlink link Hrequest)
        as (start & declaration & symbol & l & r & Hscope & Hfound & Hd & Hn & Hl & Hr & ->).
      exists parsed, tree, v, idx, node, ancestors, start, declaration, symbol, l, r.
      repeat split; assumption.
    + intros e s' [= Hrequest <-]. right.
      destruct (Hthrow e Hrequest) as (Hstop & He & Hfound).
      exists parsed, tree, v, idx, node, ancestors. repeat split; assumption.
  - split; [|split].
    + intros link s'. discriminate.
    + intros e s' [= <- <-]. left. reflexivity.
    + exact (ensureParsed_throw_wellCached host s s1 e0 Hcache Hparsed).
Qed.

Lemma definitionRequest_answers_from_table_witness :
  exists parsed tree v idx node ancestors start declaration symbol l r,
    ensureParsed Sample.host Sample.opened
    = (Ok parsed, snd (ensureParsed Sample.host Sample.opened))
    /\ (parsedTree parsed = Some tree
        /\ parsedVisitor parsed = Some v
        /\ computeTokenPosition Sample.host tree (inputStream (parsedParser parsed))
                                (2 + 1, 10)
           = Some (mkTokenPosition idx (node :: ancestors)))
    /\ getScope (node :: ancestors) (symbolTable v) = Some start
    /\ findDeclaration (symbolTable v) (nodeText node) (Some start) = Some declaration
    /\ deref (SymbolTable.self (symbolTable v)) declaration = Some symbol
    /\ name symbol = nodeText node
    /\ location symbol = Some l
    /\ getRange node = Ok r
    /\ LocationLink.mk "file:///ws/lib.mykt"
         (Range.mk (Position.mk 0 0) (Position.mk 0 16))
         (Range.mk (Position.mk 0 4) (Position.mk 0 10))
         (Some (Range.mk (Position.mk 2 10) (Position.mk 2 16)))
       = LocationLink.mk (LocationLink.targetUri l) (LocationLink.targetRange l)
                         (LocationLink.targetSelectionRange l) (Some r).
Proof.
  destruct (definitionRequest_answers_from_table Sample.host 2 10 Sample.opened)
    as [Hlink _]; [left; reflexivity|].
  apply Hlink. vm_compute. reflexivity.
Defined.

(** X14. When [ensureParsed] returns and [computeTokenPosition] locates the
    cursor on a token (a terminal node), the definition handler does not
    throw; when it answers, the origin selection range of the link is exactly
    that token: on the token's line (counted from 0), from the token's column
    to its column plus the length of the text that was looked up. *)
Theorem definitionRequest_on_token_selects_token (host : Host) (line character : Z)
        (s s' : Session) (parsed : Parsed) (tree : ParseTree) (v : SymbolTableVisitor)
        (idx : Z) (id : NodeId) (symbol : Token.t) (ancestors : Context) :
  ensureParsed host s = (Ok parsed, s') ->
  parsedTree parsed = Some tree ->
  parsedVisitor parsed = Some v ->
  computeTokenPosition host tree (inputStream (parsedParser parsed)) (line + 1, character)
  = Some (mkTokenPosition idx (TerminalNode id symbol :: ancestors)) ->
  definitionRequest host line character s = (Ok None, s')
  \/ exists link,
       definitionRequest host line character s = (Ok (Some link), s')
       /\ LocationLink.originSelectionRange link
          = Some (Range.mk
                    (Position.mk (Token.line symbol - 1) (Token.charPositionInLine symbol))
                    (Position.mk (Token.line symbol - 1)
                                 (Token.charPositionInLine symbol
                                  + Z.of_nat (String.length
                                                (nodeText (TerminalNode id symbol)))))).
Proof.
  intros Hparsed Htree Hv Hposition.
  unfold definitionRequest, bind. rewrite Hparsed, Htree, Hv, Hposition. unfold lift.
  rewrite onDefinition_of_location.
  destruct (locationOf _ _) as [l|]; [right | left; reflexivity].
  eexists. split; reflexivity.
Qed.

Lemma definitionRequest_on_token_selects_token_witness :
  definitionRequest Sample.host 2 10 Sample.opened
  = (Ok None, snd (ensureParsed Sample.host Sample.opened))
  \/ exists link,
       definitionRequest Sample.host 2 10 Sample.opened
       = (Ok (Some link), snd (ensureParsed Sample.host Sample.opened))
       /\ LocationLink.originSelectionRange link
          = Some (Range.mk (Position.mk (3 - 1) 10)
                           (Position.mk (3 - 1)
                              (10 + Z.of_nat (String.length
                                                (nodeText (TerminalNode 332
                                                             (Sample.tok 3 10 "helper"))))))).
Proof.
  assert (Hrun : ensureParsed Sample.host Sample.opened
                 = (Ok (mkParsed (mkParser Sample.mainText) (Some Sample.mainFile)
                          (Some (visitor (snd (parseDocument Sample.host Sample.mainUri
                                                 Sample.mainText Sample.importing))))),
                    snd (ensureParsed Sample.host Sample.opened)))
    by (vm_compute; reflexivity).
  apply (definitionRequest_on_token_selects_token Sample.host 2 10 Sample.opened _ _
           Sample.mainFile _ 0 332%nat (Sample.tok 3 10 "helper")
           (tl (contextAt Sample.mainFile [1; 2; 0; 0; 0]%nat [])) Hrun eq_refl eq_refl).
  reflexivity.
Defined.

Lemma onDefinition_sound_location (v : SymbolTableVisitor) (idx : Z)
      (node : ParseTree) (ancestors : Context) (link : LocationLink.t) :
  onDefinition v (Some (mkTokenPosition idx (node :: ancestors))) = Ok (Some link) ->
  exists declaration symbol l,
    deref (SymbolTable.self (symbolTable v)) declaration = Some symbol
    /\ location symbol = Some l
    /\ LocationLink.targetUri link = LocationLink.targetUri l.
Proof.
  rewrite onDefinition_of_declaration.
  destruct (findDeclaration _ _ _) as [declaration|]; [|discriminate].
  destruct (deref _ declaration) as [symbol|] eqn:Hd; [|discriminate].
  destruct (location symbol) as [l|] eqn:Hl; [|discriminate].
  destruct (getRange node) as [r|e]; [|discriminate].
  intros [= <-]. exists declaration, symbol, l. repeat split; assumption.
Qed.

(** X15. A definition request on a document that is not parsed yet can only
    lead into the document itself or into a file that one of the document's
    import headers names, in the document's directory: the target URI of the
    link is the document's URI or its base URI followed by the imported name
    and [.mykt]. *)
Theorem definition_targets_document_or_import (host : Host) (line character : Z)
        (s s' : Session) (link : LocationLink.t) :
  parser (document s) = None ->
  definitionRequest host line character s = (Ok (Some link), s') ->
  reachableFrom (uri (document s)) (kotlinFile host (getText (document s)))
                (LocationLink.targetUri link).
Proof.
  intros Hnone. unfold definitionRequest. unfold bind at 1.
  destruct (ensureParsed host s) as [[parsed|e] s1] eqn:Hparsed; [|discriminate].
  destruct (ensureParsed_uncached host s s1 parsed Hnone Hparsed) as (w & Hparse & -> & ->).
  cbn [parsedTree parsedVisitor parsedParser inputStream]. unfold lift.
  set (d := document s) in *. set (tree := kotlinFile host (getText d)) in *.
  set (w0 := mkWorld (atFileScope (uri d) SymbolTableOptions.empty []) (window s) (console s))
    in *.
  intros [= Hrequest _].
  destruct (computeTokenPosition host tree (getText d) (line + 1, character))
    as [[idx [|node ancestors]]|]; try discriminate Hrequest.
  destruct (onDefinition_sound_location (visitor w) idx node ancestors link Hrequest)
    as (declaration & symbol & l & Hd & Hl & ->).
  pose proof (onWorlds_parseDocument
                (registersAmong (reachableFrom (uri d) tree))
                (reachableFrom (uri d) tree)
                (registersAmong_refl _) (registersAmong_trans _) (registersAmong_visit _)
                (registersAmong_rebind _)
                host (uri d) (getText d) w0) as Hamong.
  rewrite Hparse in Hamong. unfold onWorlds in Hamong. cbn [snd] in Hamong.
  destruct Hamong as [_ Hlocated].
  - left. reflexivity.
  - intros imports import u Himports Hin Hu. right. exists imports, import. auto.
  - left. reflexivity.
  - destruct (Hlocated declaration symbol l Hd Hl) as [Hallowed | (s0 & Hd0 & Hl0)];
      [exact Hallowed|].
    apply deref_new in Hd0 as [Hnone0 _]. rewrite Hnone0 in Hl0. discriminate Hl0.
Qed.

Lemma definition_targets_document_or_import_witness :
  reachableFrom Sample.mainUri Sample.mainFile "file:///ws/lib.mykt".
Proof.
  apply (definition_targets_document_or_import Sample.host 2 10 Sample.opened
           (snd (definitionRequest Sample.host 2 10 Sample.opened))
           (LocationLink.mk "file:///ws/lib.mykt"
              (Range.mk (Position.mk 0 0) (Position.mk 0 16))
              (Range.mk (Position.mk 0 4) (Position.mk 0 10))
              (Some (Range.mk (Position.mk 2 10) (Position.mk 2 16)))));
    reflexivity.
Defined.

(** ** The parse cache: further statements *)

Lemma ensureParsed_again (host : Host) (s s' : Session) (parsed : Parsed) :
  ensureParsed host s = (Ok parsed, s') -> ensureParsed host s' = (Ok parsed, s').
Proof.
  unfold ensureParsed at 1.
  destruct (parser (document s)) as [p|] eqn:Hp.
  - intros [= <- <-]. unfold ensureParsed. rewrite Hp. reflexivity.
  - destruct (newSymbolTableVisitor _) as [v0|e]; [|discriminate].
    destruct (parseDocument host _ _ _) as [[[]|e] w]; [|discriminate].
    intros [= <- <-]. reflexivity.
Qed.

(** X16. Once [ensureParsed] has returned, calling it again returns the same
    parser, tree and visitor and changes nothing: the document is not parsed a
    second time, no import is read again and no message is shown again. The
    definition handler does not touch the session beyond that, so a request
    that was answered leaves the session as [ensureParsed] left it, and asking
    again gives the same answer. *)
Theorem ensureParsed_parses_once (host : Host) (s s' : Session) (parsed : Parsed) :
  ensureParsed host s = (Ok parsed, s') ->
  ensureParsed host s' = (Ok parsed, s')
  /\ forall line character,
       snd (definitionRequest host line character s) = s'
       /\ definitionRequest host line character s'
          = (fst (definitionRequest host line character s), s').
Proof.
  intros Hrun.
  pose proof (ensureParsed_again host s s' parsed Hrun) as Hagain.
  split; [exact Hagain|]. intros line character.
  unfold definitionRequest, bind. rewrite Hrun, Hagain.
  destruct (parsedTree parsed) as [tree|]; [|split; reflexivity].
  destruct (parsedVisitor parsed) as [v|]; [|split; reflexivity].
  unfold lift. split; reflexivity.
Qed.

Lemma ensureParsed_parses_once_witness :
  ensureParsed Sample.host (snd (ensureParsed Sample.host Sample.opened))
  = (Ok (mkParsed (mkParser Sample.mainText) (Some Sample.mainFile)
                  (symbolTableVisitor
                     (document (snd (ensureParsed Sample.host Sample.opened))))),
     snd (ensureParsed Sample.host Sample.opened))
  /\ window (snd (ensureParsed Sample.host Sample.opened))
     = ["Imported file not found: /ws/missing.mykt"].
Proof.
  split; [|reflexivity].
  apply (ensureParsed_parses_once Sample.host Sample.opened). reflexivity.
Defined.

(** X17. When [ensureParsed] throws (the path of the document cannot be
    resolved, an import header has no identifier, the walk over the document
    throws), nothing is cached: the document is left exactly as it was, so
    the next request parses it again. A failure inside an imported file is
    not such a case: it is reported and parsing goes on. *)
Theorem ensureParsed_failure_caches_nothing (host : Host) (s s' : Session) (e : JsError) :
  ensureParsed host s = (Throw e, s') ->
  document s' = document s /\ parser (document s) = None.
Proof.
  unfold ensureParsed.
  destruct (parser (document s)) as [p|]; [discriminate|].
  destruct (newSymbolTableVisitor _) as [v0|e0].
  - destruct (parseDocument host _ _ _) as [[[]|e1] w]; [discriminate|].
    intros [= _ <-]. split; reflexivity.
  - intros [= _ <-]. split; reflexivity.
Qed.

Lemma ensureParsed_failure_caches_nothing_witness :
  document (snd (ensureParsed Examples.broken Sample.opened)) = document Sample.opened
  /\ parser (document Sample.opened) = None.
Proof.
  apply (ensureParsed_failure_caches_nothing Examples.broken Sample.opened _
           (TypeError "must pass in a file:// URI to convert to a file path")).
  reflexivity.
Defined.



(** ** The lookup: further statements *)

(** X19. [findDeclaration] answers with the declaration of the innermost
    scope of the chain that has one: it returns [r] from [scope] exactly when
    some scope [hit] on the way from [scope] up to the table selects [r] (its
    first symbol of that name, which has a location) and no scope before
    [hit] on that way, [scope] included, selects anything. *)
Theorem findDeclaration_answers_innermost (symbolTable : SymbolTable.t) (name0 : string)
        (scope0 r : SymRef) :
  let table := SymbolTable.self symbolTable in
  is_Some (deref table scope0) ->
  (findDeclaration symbolTable name0 (Some scope0) = Some r
   <-> exists skipped hit,
         scope0 = (skipped ++ hit)%list
         /\ answer table name0 hit = Some r
         /\ forall inner rest,
              skipped = (inner ++ rest)%list -> rest <> [] ->
              answer table name0 (rest ++ hit)%list = None).
Proof.
  intros table. cbn [findDeclaration]. fold table.
  induction scope0 as [|i up IH]; intros Hvalid.
  - rewrite findDeclarationFrom_unfold. destruct Hvalid as [s ->].
    destruct (answer table name0 []) as [a|] eqn:Hanswer.
    + split.
      * intros [= <-]. exists [], []. repeat split; [exact Hanswer|].
        intros inner rest Heq Hrest. destruct inner, rest; try discriminate Heq.
        contradiction.
      * intros (skipped & hit & Heq & Hhit & _).
        destruct skipped, hit; try discriminate Heq. congruence.
    + split; [discriminate|].
      intros (skipped & hit & Heq & Hhit & _).
      destruct skipped, hit; try discriminate Heq. congruence.
  - rewrite findDeclarationFrom_unfold. pose proof (deref_up table i up Hvalid) as Hup.
    destruct Hvalid as [s ->].
    destruct (answer table name0 (i :: up)) as [a|] eqn:Hanswer.
    + split.
      * intros [= <-]. exists [], (i :: up). repeat split; [exact Hanswer|].
        intros inner rest Heq Hrest. destruct inner, rest; try discriminate Heq.
        contradiction.
      * intros (skipped & hit & Heq & Hhit & Hnone).
        destruct skipped as [|j skipped].
        -- cbn in Heq. subst hit. congruence.
        -- exfalso. cbn in Heq. injection Heq as <- ->.
           specialize (Hnone [] (i :: skipped) eq_refl). cbn in Hnone.
           rewrite Hanswer in Hnone. discriminate Hnone. discriminate.
    + rewrite (IH Hup). split.
      * intros (skipped & hit & -> & Hhit & Hnone).
        exists (i :: skipped), hit. repeat split; [exact Hhit|].
        intros inner rest Heq Hrest.
        destruct inner as [|j inner].
        -- cbn in Heq. subst rest. exact Hanswer.
        -- cbn in Heq. injection Heq as -> Heq. eapply Hnone; eassumption.
      * intros (skipped & hit & Heq & Hhit & Hnone).
        destruct skipped as [|j skipped].
        -- cbn in Heq. subst hit. congruence.
        -- cbn in Heq. injection Heq as <- ->.
           exists skipped, hit. repeat split; [exact Hhit|].
           intros inner rest Heq Hrest. apply (Hnone (i :: inner) rest); [|exact Hrest].
           rewrite Heq. reflexivity.
Qed.

Lemma findDeclaration_answers_innermost_witness :
  findDeclaration Sample.halfRegistered "x" (Some [1; 0]%nat) = Some [0; 0]%nat
  <-> exists skipped hit,
        [1; 0]%nat = (skipped ++ hit)%list
        /\ answer (SymbolTable.self Sample.halfRegistered) "x" hit = Some [0; 0]%nat
        /\ forall inner rest,
             skipped = (inner ++ rest)%list -> rest <> [] ->
             answer (SymbolTable.self Sample.halfRegistered) "x" (rest ++ hit)%list = None.
Proof.
  apply (findDeclaration_answers_innermost Sample.halfRegistered "x" [1; 0]%nat [0; 0]%nat).
  vm_compute. eauto.
Defined.

Lemma findRecursive_below (context0 : NodeId) (symbol : Symbol) :
  forall ref r, findRecursive context0 ref symbol = Some r -> exists q, r = (q ++ ref)%list.
Proof.
  induction symbol as [c n ctx loc ch IH] using Symbol_nested_ind.
  intros ref r. rewrite findRecursive_unfold. cbn [context cls children].
  case_bool_decide as Hc.
  - intros [= <-]. exists []. reflexivity.
  - destruct (instanceofScopedSymbol c); [|discriminate].
    generalize 0%nat. induction IH as [|a l Ha Hl IHl]; intros k; cbn; [discriminate|].
    destruct (findRecursive context0 (k :: ref) a) as [r'|] eqn:Hfa.
    + intros [= <-]. destruct (Ha _ _ Hfa) as [q ->]. exists (q ++ [k])%list.
      rewrite <- app_assoc. reflexivity.
    + apply IHl.
Qed.

Lemma symbolWithContext_below (symbolTable : SymbolTable.t) (node : ParseTree) (r : SymRef) :
  symbolWithContext symbolTable node = Some r -> r <> [].
Proof.
  unfold symbolWithContext. generalize 0%nat.
  induction (children (SymbolTable.self symbolTable)) as [|a l IHl]; intros k; cbn;
    [discriminate|].
  destruct (findRecursive (nodeId node) [k] a) as [r'|] eqn:Hfa.
  - intros [= <-]. destruct (findRecursive_below _ _ _ _ Hfa) as [q ->].
    destruct q; discriminate.
  - apply IHl.
Qed.

(** X20. [getScope] answers with the symbol anchored at the innermost node
    of the chain that anchors one: it returns [r] exactly when [r] is what
    [symbolWithContext] finds for some node of the chain (the cursor's node or
    an ancestor) while it finds nothing for the nodes before it. The symbol
    returned is anchored at that node, and it is never the table itself. *)
Theorem getScope_finds_innermost_anchor (symbolTable : SymbolTable.t) (context0 : Context)
        (r : SymRef) :
  (getScope context0 symbolTable = Some r
   <-> exists before node after,
         context0 = (before ++ node :: after)%list
         /\ unanchored symbolTable before = true
         /\ symbolWithContext symbolTable node = Some r)
  /\ (getScope context0 symbolTable = Some r ->
      r <> []
      /\ exists s node,
           In node context0
           /\ deref (SymbolTable.self symbolTable) r = Some s
           /\ context s = Some (nodeId node)).
Proof.
  assert (Hfirst : getScope context0 symbolTable = Some r
                   <-> exists before node after,
                         context0 = (before ++ node :: after)%list
                         /\ unanchored symbolTable before = true
                         /\ symbolWithContext symbolTable node = Some r).
  { induction context0 as [|node up IH]; cbn [getScope].
    - split; [discriminate|]. intros (before & n & after & Heq & _).
      destruct before; discriminate Heq.
    - destruct (symbolWithContext symbolTable node) as [r'|] eqn:Hnode.
      + split.
        * intros [= <-]. exists [], node, up. repeat split. exact Hnode.
        * intros (before & n & after & Heq & Hbefore & Hn).
          destruct before as [|b before].
          -- cbn in Heq. injection Heq as <- <-. congruence.
          -- cbn in Heq. injection Heq as <- ->. exfalso.
             revert Hbefore. unfold unanchored. cbn.
             rewrite Hnode, bool_decide_eq_false_2 by discriminate. discriminate.
      + rewrite IH. split.
        * intros (before & n & after & -> & Hbefore & Hn).
          exists (node :: before), n, after. repeat split; [|exact Hn].
          unfold unanchored in *. cbn.
          rewrite Hnode, bool_decide_eq_true_2 by reflexivity. exact Hbefore.
        * intros (before & n & after & Heq & Hbefore & Hn).
          destruct before as [|b before].
          -- cbn in Heq. injection Heq as <- <-. congruence.
          -- cbn in Heq. injection Heq as <- ->.
             exists before, n, after. repeat split; [|exact Hn].
             revert Hbefore. unfold unanchored. cbn.
             rewrite Hnode, bool_decide_eq_true_2 by reflexivity. cbn. auto. }
  split; [exact Hfirst|].
  intros Hscope. apply Hfirst in Hscope as (before & node & after & -> & _ & Hnode).
  split; [eapply symbolWithContext_below; exact Hnode|].
  apply symbolWithContext_valid in Hnode as (s & Hd & Hc).
  exists s, node. repeat split; [|exact Hd|exact Hc].
  apply in_or_app. right. left. reflexivity.
Qed.

Lemma getScope_finds_innermost_anchor_witness :
  [2; 0]%nat <> []
  /\ exists s node,
       In node Sample.cursorInG
       /\ deref (SymbolTable.self (symbolTable (snd Sample.built))) [2; 0]%nat = Some s
       /\ context s = Some (nodeId node).
Proof.
  destruct (getScope_finds_innermost_anchor (symbolTable (snd Sample.built))
              Sample.cursorInG [2; 0]%nat) as [_ H].
  apply H. reflexivity.
Defined.

(** ** The walk only appends to its scope *)

Lemma appendsToScope_refl (v : SymbolTableVisitor) : appendsToScope v v.
Proof.
  split; [reflexivity|]. intros cur Hcur. split; [exact Hcur|].
  exists []. rewrite modify_id by apply appendChildren_nil. reflexivity.
Qed.

Lemma appendsToScope_trans (v1 v2 v3 : SymbolTableVisitor) :
  appendsToScope v1 v2 -> appendsToScope v2 v3 -> appendsToScope v1 v3.
Proof.
  intros [Ho H12] [Ho' H23]. split; [congruence|].
  intros cur Hcur. destruct (H12 cur Hcur) as (Hcur2 & a1 & Ht2).
  destruct (H23 cur Hcur2) as (Hcur3 & a2 & Ht3).
  split; [exact Hcur3|]. exists (a1 ++ a2)%list.
  rewrite Ht3, Ht2, modify_modify. apply modify_ext. intros s _. apply appendChildren_app.
Qed.

Lemma appendsToScope_pushed (c : Symbol) (v : SymbolTableVisitor) :
  appendsToScope v (modifySymbol (targetOf (scope v)) (pushChild c) v).
Proof.
  split; [reflexivity|]. intros cur Hcur. split; [exact Hcur|].
  exists [c]. rewrite Hcur. reflexivity.
Qed.

Lemma appendsToScope_declare (t : SymbolClass) (n : string)
      (tree declarationName : ParseTree) (rest : M SymbolTableVisitor unit) :
  preserves appendsToScope rest ->
  preserves appendsToScope
    (current <- gets scope ;;
     symbol <- addNew t current n ;;
     registerDeclaration symbol tree declarationName ;;;
     rest).
Proof.
  intros Hrest v. unfold bind at 1. unfold gets at 1. unfold bind at 1.
  destruct (addNew_cases t (scope v) n v) as [[e ->] | (s & Hs & _ & ->)];
    [apply appendsToScope_refl|].
  unfold bind.
  destruct (registerDeclaration_cases (length (children s) :: targetOf (scope v))
              tree declarationName
              (modifySymbol (targetOf (scope v)) (pushChild (newSymbol t n)) v))
    as [[e ->] | (range & selection & _ & _ & ->)].
  - apply appendsToScope_pushed.
  - rewrite (modifySymbol_pushed _ _ _ s) by exact Hs.
    eapply appendsToScope_trans; [apply appendsToScope_pushed|].
    change (scope v) with (scope (modifySymbol (targetOf (scope v))
                                    (pushChild (setLocation
                                       (LocationLink.create
                                          (documentUri (modifySymbol (targetOf (scope v))
                                                          (pushChild (newSymbol t n)) v))
                                          range selection) (newSymbol t n))) v)) at 1.
    apply Hrest.
Qed.

Lemma appendsToScope_withDeclaration (declaration declarationName : ParseTree)
      (type : SymbolClass) (n : string) (action : M SymbolTableVisitor unit) :
  preserves appendsToScope action ->
  preserves appendsToScope (withDeclaration declaration declarationName type n action).
Proof.
  intros Haction v. rewrite withDeclaration_run.
  destruct (addNew_cases type (scope v) n v) as [[e ->] | (s & Hs & _ & ->)];
    [apply appendsToScope_refl|].
  rewrite (modifySymbol_pushed _ _ _ s) by exact Hs.
  set (opened := (length (children s) :: targetOf (scope v))).
  set (anchored := setContext (nodeId declaration) (newSymbol type n)).
  cbv zeta.
  match goal with
  | |- context [registerDeclaration opened declaration declarationName ?x] => set (v3 := x)
  end.
  assert (Hshape : forall c inner result,
            SymbolTable.options (symbolTable result) = SymbolTable.options (symbolTable v) ->
            SymbolTable.self (symbolTable result)
            = modify opened (appendChildren inner)
                (modify (targetOf (scope v)) (pushChild c)
                        (SymbolTable.self (symbolTable v))) ->
            appendsToScope v (setScope (parent opened) result)).
  { intros c inner result Ho Ht. split; [exact Ho|].
    intros cur Hcur. split; [cbn; rewrite Hcur; reflexivity|].
    exists [appendChildren inner c]. cbn [symbolTable setScope]. rewrite Ht.
    unfold opened. rewrite Hcur in Hs |- *. cbn [targetOf] in Hs |- *.
    apply modify_pushed. exact Hs. }
  destruct (registerDeclaration_cases opened declaration declarationName v3)
    as [[e ->] | (range & selection & _ & _ & ->)].
  - apply (Hshape anchored []); [reflexivity|].
    cbn [snd]. subst v3. cbn [symbolTable setScope modifySymbol setSymbolTable SymbolTable.self].
    rewrite (modify_id opened (appendChildren [])) by apply appendChildren_nil. reflexivity.
  - set (l := LocationLink.create (documentUri v3) range selection).
    assert (Hv4 : modifySymbol opened (setLocation l) v3
                  = setScope (Some opened)
                      (modifySymbol (targetOf (scope v))
                                    (pushChild (setLocation l anchored)) v)).
    { subst v3. unfold setScope, modifySymbol, setSymbolTable.
      cbn [documentUri symbolTable scope SymbolTable.self SymbolTable.options].
      f_equal. f_equal. subst opened. apply modify_pushed. exact Hs. }
    rewrite Hv4.
    set (v4 := setScope (Some opened) _).
    pose proof (Haction v4) as [Ho H45].
    destruct (H45 opened eq_refl) as (_ & inner & Ht).
    destruct (action v4) as [r v5]. cbn [snd] in *.
    apply (Hshape (setLocation l anchored) inner); [exact Ho | exact Ht].
Qed.

Ltac appending :=
  repeat
    match goal with
    | |- preserves _ (bind _ _) =>
        apply (preserves_bind appendsToScope appendsToScope_trans); [|intros ?]
    | |- preserves _ (ret _) => apply (preserves_ret appendsToScope appendsToScope_refl)
    | |- preserves _ (throw _) => apply (preserves_throw appendsToScope appendsToScope_refl)
    | |- preserves _ (lift _) => apply (preserves_lift appendsToScope appendsToScope_refl)
    | |- preserves _ (gets _) => apply (preserves_gets appendsToScope appendsToScope_refl)
    end.

Lemma appendsToScope_visitChildren (l : list ParseTree) :
  Forall (fun tree => preserves appendsToScope (visit tree)) l ->
  preserves appendsToScope (visitChildren l).
Proof.
  induction 1 as [|c l Hc Hl IH]; cbn [visitChildren]; appending; assumption.
Qed.

Lemma appendsToScope_visit (tree : ParseTree) : preserves appendsToScope (visit tree).
Proof.
  induction tree as [id symbol | id kind start stop children IH] using ParseTree_nested_ind.
  - cbn. appending.
  - apply appendsToScope_visitChildren in IH.
    rewrite visit_unfold. cbn zeta.
    destruct kind; try exact IH; unfold accessor; destruct (ruleChild _ _).
    + apply preserves_ret_bind. apply appendsToScope_declare. exact IH.
    + intros v. apply appendsToScope_refl.
    + apply preserves_ret_bind. apply appendsToScope_withDeclaration. exact IH.
    + intros v. apply appendsToScope_refl.
Qed.

Lemma appendsToScope_rebind (u : DocumentUri) (v : SymbolTableVisitor) :
  appendsToScope v (setDocumentUri u v).
Proof.
  split; [reflexivity|]. intros cur Hcur. split; [exact Hcur|].
  exists []. cbn. rewrite modify_id by apply appendChildren_nil. reflexivity.
Qed.

(** X21. Whatever a walk does, and whether it completes or throws, it changes
    the table in one place only: the scope that was current when it started
    has been given symbols after the ones it owned (none, when the walk threw
    before its first declaration). The rest of the table, the options and
    the current scope are as they were. *)
Theorem visit_only_appends_to_scope (tree : ParseTree) (v : SymbolTableVisitor)
        (cur : SymRef) :
  scope v = Some cur ->
  exists added,
    SymbolTable.self (symbolTable (snd (visit tree v)))
    = modify cur (appendChildren added) (SymbolTable.self (symbolTable v)).
Proof.
  intros Hcur. destruct (appendsToScope_visit tree v) as [_ H].
  destruct (H cur Hcur) as (_ & added & Ht). exists added. exact Ht.
Qed.

Lemma visit_only_appends_to_scope_witness :
  exists added,
    SymbolTable.self
      (symbolTable (snd (visit Sample.twice
                           (atFileScope "file:///main.mykt" SymbolTableOptions.empty []))))
    = modify [0%nat] (appendChildren added)
        (SymbolTable.self
           (symbolTable (atFileScope "file:///main.mykt" SymbolTableOptions.empty []))).
Proof.
  exact (visit_only_appends_to_scope Sample.twice
           (atFileScope "file:///main.mykt" SymbolTableOptions.empty []) [0%nat] eq_refl).
Defined.

(** ** What [ensureParsed] builds *)

Lemma parseDocument_phases (host : Host) (uri0 : DocumentUri) (text : string) :
  parseDocument host uri0 text
  = (importPhase host (kotlinFile host text) ;;; onVisitor (visit (kotlinFile host text))).
Proof. reflexivity. Qed.

Lemma importPhase_documentUri (host : Host) (parseTree : ParseTree) (w w1 : World) :
  importPhase host parseTree w = (Ok tt, w1) ->
  documentUri (visitor w1) = documentUri (visitor w).
Proof.
  unfold importPhase. destruct (importsOf parseTree) as [imports|].
  - unfold processImports, bind, gets, lift, onVisitor, update.
    destruct (ensurePath host _) as [basePath|e]; [|discriminate].
    destruct (forEachImport host _ basePath imports w) as [[[]|e] w2]; [|discriminate].
    intros [= <-]. reflexivity.
  - intros [= <-]. reflexivity.
Qed.

Lemma importPhase_through (R : SymbolTableVisitor -> SymbolTableVisitor -> Prop)
      (allowed : DocumentUri -> Prop) (host : Host) (parseTree : ParseTree) (w : World) :
  (forall v, R v v) -> (forall v1 v2 v3, R v1 v2 -> R v2 v3 -> R v1 v3) ->
  (forall tree, preserves R (visit tree)) ->
  (forall u v, allowed u -> R v (setDocumentUri u v)) ->
  allowed (documentUri (visitor w)) ->
  (forall imports import u,
      importsOf parseTree = Some imports -> In import imports ->
      importUri (computeBaseUri (documentUri (visitor w))) import = Some u -> allowed u) ->
  R (visitor w) (visitor (snd (importPhase host parseTree w))).
Proof.
  intros Hrefl Htrans Hvisit Hrebind Hdoc Hallowed. unfold importPhase.
  destruct (importsOf parseTree) as [imports|]; [|apply Hrefl].
  apply (onWorlds_processImports R allowed Hrefl Htrans Hvisit Hrebind host imports w Hdoc).
  intros import u. apply Hallowed. reflexivity.
Qed.

(** X22. What [ensureParsed] builds for a document is the table of a visitor
    at its file scope: the table owns the one anonymous file scope, and that
    scope owns what the imports declared followed by exactly what the walk
    over the document's own tree declares, in source order; the walk over the
    document ran, and completed, from the file scope that owned the imported
    symbols. Without an import list nothing is imported; and every location
    below an imported symbol points into the document or into a file named by
    one of its import headers. *)
Theorem ensureParsed_builds_file_scope (host : Host) (s s' : Session) (parsed : Parsed) :
  let uri0 := uri (document s) in
  let tree := kotlinFile host (getText (document s)) in
  parser (document s) = None ->
  ensureParsed host s = (Ok parsed, s') ->
  exists imported,
    (importsOf tree = None -> imported = [])
    /\ (forall c below x l,
          c ∈ imported -> deref c below = Some x -> location x = Some l ->
          reachableFrom uri0 tree (LocationLink.targetUri l))
    /\ visit tree (atFileScope uri0 SymbolTableOptions.empty imported)
       = (Ok tt, atFileScope uri0 SymbolTableOptions.empty
                   (imported ++ symbolsOf uri0 tree)%list)
    /\ parsedVisitor parsed
       = Some (atFileScope uri0 SymbolTableOptions.empty (imported ++ symbolsOf uri0 tree)%list)
    /\ symbolTableVisitor (document s') = parsedVisitor parsed.
Proof.
  intros uri0 tree Hnone Hrun.
  destruct (ensureParsed_uncached host s s' parsed Hnone Hrun) as (w & Hparse & -> & ->).
  fold uri0 tree in Hparse |- *.
  set (v0 := atFileScope uri0 SymbolTableOptions.empty []) in *.
  set (w0 := mkWorld v0 (window s) (console s)) in *.
  rewrite parseDocument_phases in Hparse. fold tree in Hparse. unfold bind in Hparse.
  destruct (importPhase host tree w0) as [[[]|e] w1] eqn:Hphase; [|discriminate Hparse].
  pose proof (importPhase_documentUri host tree w0 w1 Hphase) as Hdoc.
  pose proof (importPhase_through appendsToScope (fun _ => True) host tree w0
                appendsToScope_refl appendsToScope_trans appendsToScope_visit
                (fun u v _ => appendsToScope_rebind u v) I (fun _ _ _ _ _ _ => I)) as Happend.
  pose proof (importPhase_through (registersAmong (reachableFrom uri0 tree))
                (reachableFrom uri0 tree) host tree w0
                (registersAmong_refl _) (registersAmong_trans _) (registersAmong_visit _)
                (registersAmong_rebind _)) as Hamong.
  rewrite Hphase in Happend, Hamong. cbn [snd] in Happend, Hamong.
  destruct Happend as [Ho Hscope]. destruct (Hscope [0%nat] eq_refl) as (Hsc & added & Ht).
  destruct Hamong as [_ Hlocated].
  { left. reflexivity. }
  { intros imports import u Himports Hin Hu. right. exists imports, import. auto. }
  { left. reflexivity. }
  assert (Hv1 : visitor w1 = atFileScope uri0 SymbolTableOptions.empty added).
  { destruct (visitor w1) as [u1 [o1 t1] sc1].
    cbn [documentUri symbolTable scope SymbolTable.options SymbolTable.self] in *.
    subst u1 o1 sc1 t1. reflexivity. }
  unfold onVisitor in Hparse. rewrite Hv1 in Hparse.
  destruct (visit tree (atFileScope uri0 SymbolTableOptions.empty added)) as [r v] eqn:Hvisit.
  injection Hparse as -> <-.
  destruct (built_table uri0 SymbolTableOptions.empty added tree v Hvisit) as [-> _].
  exists added. split; [|split; [|split; [exact Hvisit | split; reflexivity]]].
  - intros Himports. revert Hphase. unfold importPhase. rewrite Himports.
    intros [= <-]. subst w0 v0. cbn in Hv1. injection Hv1 as <-. reflexivity.
  - intros c below x l Hc Hx Hl. apply list_elem_of_lookup in Hc as [j Hj].
    destruct (Hlocated (below ++ [j; 0%nat])%list x l) as [Hallowed | (s0 & Hd0 & Hl0)].
    + rewrite Hv1. cbn [atFileScope symbolTable SymbolTable.self].
      rewrite deref_app. cbn [deref children lookup list_lookup]. rewrite Hj. exact Hx.
    + exact Hl.
    + exact Hallowed.
    + apply deref_new in Hd0 as [Hn0 _]. rewrite Hn0 in Hl0. discriminate Hl0.
Qed.

Lemma ensureParsed_builds_file_scope_witness :
  exists imported,
    visit Sample.mainFile (atFileScope Sample.mainUri SymbolTableOptions.empty imported)
    = (Ok tt, atFileScope Sample.mainUri SymbolTableOptions.empty
                (imported ++ symbolsOf Sample.mainUri Sample.mainFile)%list)
    /\ symbolTableVisitor (document (snd (ensureParsed Sample.host Sample.opened)))
       = Some (atFileScope Sample.mainUri SymbolTableOptions.empty
                 (imported ++ symbolsOf Sample.mainUri Sample.mainFile)%list).
Proof.
  assert (Hrun : ensureParsed Sample.host Sample.opened
                 = (Ok (mkParsed (mkParser Sample.mainText) (Some Sample.mainFile)
                          (symbolTableVisitor
                             (document (snd (ensureParsed Sample.host Sample.opened))))),
                    snd (ensureParsed Sample.host Sample.opened)))
    by (vm_compute; reflexivity).
  destruct (ensureParsed_builds_file_scope Sample.host Sample.opened _ _ eq_refl Hrun)
    as (imported & _ & _ & Hvisit & Hparsed & Hcached).
  exists imported. split; [exact Hvisit|]. rewrite Hcached. exact Hparsed.
Defined.

(** ** What the imports report *)

Lemma processImportHeader_reports (host : Host) (baseUri basePath : string)
      (import : ParseTree) (w w' : World) :
  processImportHeader host baseUri basePath import w = (Ok tt, w') ->
  exists messages errors,
    reported host baseUri basePath import (visitor w) messages errors (visitor w')
    /\ shown w' = (shown w ++ messages)%list
    /\ logged w' = (logged w ++ errors)%list.
Proof.
  unfold processImportHeader, accessor.
  destruct (ruleChild Identifier (childrenOf import)) as [identifier|] eqn:Hid;
    [|discriminate].
  unfold bind at 1. unfold ret at 1. cbv zeta.
  destruct (existsSync host (basePath ++ nodeText identifier ++ ".mykt")) eqn:Hexists.
  - unfold bind at 1. unfold onVisitor at 1. unfold update at 1.
    unfold processImport, tryCatch, bind, lift.
    destruct (readFileSync host (basePath ++ nodeText identifier ++ ".mykt"))
      as [data|e] eqn:Hread.
    + unfold onVisitor. cbn [visitor shown logged].
      destruct (visit (kotlinFile host data) _) as [[[]|e] v'] eqn:Hwalk.
      * intros [= <-]. exists [], []. cbn [visitor shown logged]. rewrite !app_nil_r.
        split; [|split; reflexivity]. eapply reported_nothing; eassumption.
      * intros [= <-]. eexists _, _. cbn [visitor shown logged].
        split; [|split; reflexivity]. eapply reported_unwalkable; eassumption.
    + intros [= <-]. eexists _, _. cbn [visitor shown logged].
      split; [|split; reflexivity]. eapply reported_unreadable; eassumption.
  - intros [= <-].
    exists ["Imported file not found: " ++ basePath ++ nodeText identifier ++ ".mykt"], [].
    cbn [visitor shown logged]. rewrite app_nil_r.
    split; [|split; reflexivity]. eapply reported_missing; eassumption.
Qed.

Lemma forEachImport_reports (host : Host) (baseUri basePath : string)
      (imports : list ParseTree) :
  forall w w',
    forEachImport host baseUri basePath imports w = (Ok tt, w') ->
    exists messages errors,
      reportedAll host baseUri basePath imports (visitor w) messages errors (visitor w')
      /\ shown w' = (shown w ++ messages)%list
      /\ logged w' = (logged w ++ errors)%list.
Proof.
  induction imports as [|import rest IH]; intros w w1; cbn [forEachImport].
  - intros [= <-]. exists [], []. rewrite !app_nil_r. repeat split. constructor.
  - unfold bind.
    destruct (processImportHeader host baseUri basePath import w) as [[[]|e] w0] eqn:Hstep;
      [|discriminate].
    intros Hrest.
    destruct (processImportHeader_reports host baseUri basePath import w w0 Hstep)
      as (messages & errors & Hreported & Hs & Hl).
    destruct (IH w0 w1 Hrest) as (messages1 & errors1 & Hall & Hs1 & Hl1).
    exists (messages ++ messages1)%list, (errors ++ errors1)%list.
    split; [econstructor; eassumption|].
    rewrite Hs1, Hl1, Hs, Hl, <- !app_assoc. split; reflexivity.
Qed.

Lemma reported_functional (host : Host) (baseUri basePath : string) (import : ParseTree)
      (v : SymbolTableVisitor) (messages1 messages2 : list string)
      (errors1 errors2 : list JsError) (v1 v2 : SymbolTableVisitor) :
  reported host baseUri basePath import v messages1 errors1 v1 ->
  reported host baseUri basePath import v messages2 errors2 v2 ->
  messages1 = messages2 /\ errors1 = errors2 /\ v1 = v2.
Proof.
  intros H1 H2.
  destruct H1 as [i1 d1 v1 Hi1 He1 Hr1 Hw1 | i1 Hi1 He1 | i1 e1 Hi1 He1 Hr1
                  | i1 d1 e1 v1 Hi1 He1 Hr1 Hw1];
    destruct H2 as [i2 d2 v2 Hi2 He2 Hr2 Hw2 | i2 Hi2 He2 | i2 e2 Hi2 He2 Hr2
                    | i2 d2 e2 v2 Hi2 He2 Hr2 Hw2];
    repeat (match goal with
            | Ha : ?x = _, Hb : ?x = _ |- _ => rewrite Ha in Hb
            end; simplify_eq);
    repeat split; reflexivity.
Qed.

Lemma reportedAll_functional (host : Host) (baseUri basePath : string)
      (imports : list ParseTree) :
  forall v messages1 messages2 errors1 errors2 v1 v2,
    reportedAll host baseUri basePath imports v messages1 errors1 v1 ->
    reportedAll host baseUri basePath imports v messages2 errors2 v2 ->
    messages1 = messages2 /\ errors1 = errors2 /\ v1 = v2.
Proof.
  induction imports as [|import rest IH]; intros v m1 m2 e1 e2 v1 v2 H1 H2;
    inversion H1; inversion H2; subst.
  - repeat split.
  - match goal with
    | Ha : reported _ _ _ _ _ ?ma ?ea ?va, Hb : reported _ _ _ _ _ ?mb ?eb ?vb |- _ =>
        destruct (reported_functional _ _ _ _ _ _ _ _ _ _ _ Ha Hb) as (-> & -> & ->)
    end.
    match goal with
    | Ha : reportedAll _ _ _ _ _ ?ma ?ea ?va, Hb : reportedAll _ _ _ _ _ ?mb ?eb ?vb |- _ =>
        destruct (IH _ _ _ _ _ _ _ Ha Hb) as (-> & -> & ->)
    end.
    repeat split.
Qed.

(** X23. The messages of the import processing are one per import that is
    missing or that failed, in the order of the import headers, and nothing
    else. When [processImports] completes, what it has shown and written to
    the console is what the turns of its loop report, one after the other,
    each turn starting from the visitor the turn before left: nothing for an
    import whose file was read and walked to the end, the "not found" message
    with the path for a file that does not exist, and the "cannot read"
    message with the path and the error, together with that error on the
    console, for a file that exists and whose reading threw that error, or
    whose walk did. The paths are the base path [ensurePath] gave, followed by
    the imported name and [.mykt]; the visitor at the end is the one the last
    turn left, bound to the document again. What the turns report is
    determined: no other messages, errors or visitor fit. *)
Theorem imports_report_in_order (host : Host) (imports : list ParseTree) (w w' : World) :
  processImports host imports w = (Ok tt, w') ->
  let baseUri := computeBaseUri (documentUri (visitor w)) in
  exists basePath messages errors v1,
    ensurePath host baseUri = Ok basePath
    /\ reportedAll host baseUri basePath imports (visitor w) messages errors v1
    /\ shown w' = (shown w ++ messages)%list
    /\ logged w' = (logged w ++ errors)%list
    /\ visitor w' = setDocumentUri (documentUri (visitor w)) v1
    /\ forall messages2 errors2 v2,
         reportedAll host baseUri basePath imports (visitor w) messages2 errors2 v2 ->
         messages2 = messages /\ errors2 = errors /\ v2 = v1.
Proof.
  intros Hrun baseUri. revert Hrun.
  unfold processImports. unfold bind at 1. unfold gets at 1.
  unfold bind at 1. unfold lift at 1. fold baseUri.
  destruct (ensurePath host baseUri) as [basePath|e]; [|discriminate].
  unfold bind.
  destruct (forEachImport host baseUri basePath imports w) as [[[]|e] w1] eqn:Hloop;
    [|discriminate].
  unfold onVisitor, update. intros [= <-]. cbn [shown logged visitor].
  destruct (forEachImport_reports host baseUri basePath imports w w1 Hloop)
    as (messages & errors & Hall & Hs & Hl).
  exists basePath, messages, errors, (visitor w1).
  split; [reflexivity|]. split; [exact Hall|]. split; [exact Hs|]. split; [exact Hl|].
  split; [reflexivity|].
  intros messages2 errors2 v2 Hother.
  exact (reportedAll_functional host baseUri basePath imports _ _ _ _ _ _ _ Hother Hall).
Qed.

Lemma imports_report_in_order_witness :
  exists basePath messages errors v1,
    ensurePath Sample.host (computeBaseUri (documentUri (visitor Sample.importing)))
    = Ok basePath
    /\ reportedAll Sample.host (computeBaseUri (documentUri (visitor Sample.importing)))
                   basePath [Sample.importMissing; Sample.importLib]
                   (visitor Sample.importing) messages errors v1
    /\ ["Imported file not found: /ws/missing.mykt"] = ([] ++ messages)%list
    /\ [] = ([] ++ errors)%list
    /\ visitor (snd (processImports Sample.host [Sample.importMissing; Sample.importLib]
                                    Sample.importing))
       = setDocumentUri (documentUri (visitor Sample.importing)) v1
    /\ forall messages2 errors2 v2,
         reportedAll Sample.host (computeBaseUri (documentUri (visitor Sample.importing)))
                     basePath [Sample.importMissing; Sample.importLib]
                     (visitor Sample.importing) messages2 errors2 v2 ->
         messages2 = messages /\ errors2 = errors /\ v2 = v1.
Proof.
  apply (imports_report_in_order Sample.host [Sample.importMissing; Sample.importLib]
           Sample.importing
           (snd (processImports Sample.host [Sample.importMissing; Sample.importLib]
                                Sample.importing))).
  vm_compute. reflexivity.
Defined.

(** ** Parsing again *)

Lemma framed_ret {A} (a : A) : framed (ret a).
Proof. intros v sh lg. cbn. rewrite !app_nil_r. reflexivity. Qed.

Lemma framed_throw {A} (e : JsError) : framed (@throw World A e).
Proof. intros v sh lg. cbn. rewrite !app_nil_r. reflexivity. Qed.

Lemma framed_lift {A} (o : Outcome A) : framed (lift o).
Proof. intros v sh lg. cbn. rewrite !app_nil_r. reflexivity. Qed.

Lemma framed_onVisitor {A} (m : M SymbolTableVisitor A) : framed (onVisitor m).
Proof.
  intros v sh lg. unfold onVisitor. cbn [visitor shown logged].
  destruct (m v) as [r v']. cbn. rewrite !app_nil_r. reflexivity.
Qed.

Lemma framed_showErrorMessage (msg : string) : framed (showErrorMessage msg).
Proof. intros v sh lg. cbn. rewrite app_nil_r. reflexivity. Qed.

Lemma framed_consoleError (e : JsError) : framed (consoleError e).
Proof. intros v sh lg. cbn. rewrite app_nil_r. reflexivity. Qed.

Lemma framed_bind {A B} (m : M World A) (k : A -> M World B) :
  framed m -> (forall a, framed (k a)) -> framed (bind m k).
Proof.
  intros Hm Hk v sh lg. unfold bind. rewrite (Hm v sh lg).
  destruct (m (mkWorld v [] [])) as [[a|e] [v1 sh1 lg1]]; cbn [fst snd visitor shown logged].
  - rewrite (Hk a v1 (sh ++ sh1)%list (lg ++ lg1)%list), (Hk a v1 sh1 lg1).
    cbn [fst snd visitor shown logged]. rewrite !app_assoc. reflexivity.
  - reflexivity.
Qed.

Lemma framed_tryCatch {A} (body : M World A) (handler : JsError -> M World A) :
  framed body -> (forall e, framed (handler e)) -> framed (tryCatch body handler).
Proof.
  intros Hb Hh v sh lg. unfold tryCatch. rewrite (Hb v sh lg).
  destruct (body (mkWorld v [] [])) as [[a|e] [v1 sh1 lg1]]; cbn [fst snd visitor shown logged].
  - reflexivity.
  - rewrite (Hh e v1 (sh ++ sh1)%list (lg ++ lg1)%list), (Hh e v1 sh1 lg1).
    cbn [fst snd visitor shown logged]. rewrite !app_assoc. reflexivity.
Qed.

Lemma framed_processImport (host : Host) (path : string) : framed (processImport host path).
Proof.
  unfold processImport. apply framed_tryCatch.
  - apply framed_bind; [apply framed_lift|]. intros data. apply framed_onVisitor.
  - intros e. apply framed_bind; [apply framed_showErrorMessage|].
    intros _. apply framed_consoleError.
Qed.

Lemma framed_processImportHeader (host : Host) (baseUri basePath : string)
      (import : ParseTree) :
  framed (processImportHeader host baseUri basePath import).
Proof.
  unfold processImportHeader, accessor.
  destruct (ruleChild Identifier (childrenOf import)) as [identifier|];
    (apply framed_bind; [first [apply framed_ret | apply framed_throw]|]);
    intros c; cbv zeta;
    (destruct (existsSync host _); [|apply framed_showErrorMessage]);
    (apply framed_bind; [apply framed_onVisitor|]); intros _; apply framed_processImport.
Qed.

Lemma framed_forEachImport (host : Host) (baseUri basePath : string)
      (imports : list ParseTree) :
  framed (forEachImport host baseUri basePath imports).
Proof.
  induction imports as [|import rest IH]; cbn [forEachImport].
  - apply framed_ret.
  - apply framed_bind; [apply framed_processImportHeader|]. intros _. exact IH.
Qed.

Lemma framed_processImports (host : Host) (imports : list ParseTree) :
  framed (processImports host imports).
Proof.
  intros v sh lg. unfold processImports. unfold bind at 1 3 5. unfold gets.
  cbn [visitor documentUri].
  assert (H : framed (basePath <- lift (ensurePath host (computeBaseUri (documentUri v))) ;;
                      forEachImport host (computeBaseUri (documentUri v)) basePath imports ;;;
                      onVisitor (update (setDocumentUri (documentUri v))))).
  { apply framed_bind; [apply framed_lift|]. intros basePath.
    apply framed_bind; [apply framed_forEachImport|]. intros _. apply framed_onVisitor. }
  exact (H v sh lg).
Qed.

Lemma framed_parseDocument (host : Host) (uri0 : DocumentUri) (text : string) :
  framed (parseDocument host uri0 text).
Proof.
  unfold parseDocument. cbv zeta. apply framed_bind.
  - destruct (importsOf (kotlinFile host text)); [apply framed_processImports | apply framed_ret].
  - intros _. apply framed_onVisitor.
Qed.

(** X24. Parsing a document again rebuilds what the first parse built and
    repeats what it reported. After [ensureParsed] has parsed a document, a
    content change that leaves the text as it is empties the cache, and the
    next [ensureParsed] returns the same parser, tree and visitor and caches
    them again; the messages and console errors the first parse added are
    added once more, after the ones that are there. *)
Theorem reparse_rebuilds_and_reports_again (host : Host) (s s' : Session) (parsed : Parsed) :
  parser (document s) = None ->
  ensureParsed host s = (Ok parsed, s') ->
  exists messages errors,
    window s' = (window s ++ messages)%list
    /\ console s' = (console s ++ errors)%list
    /\ ensureParsed host (snd (onDidChangeContent (getText (document s)) s'))
       = (Ok parsed,
          mkSession (document s') (window s' ++ messages)%list (console s' ++ errors)%list).
Proof.
  intros Hnone Hrun.
  destruct (ensureParsed_uncached host s s' parsed Hnone Hrun) as (w & Hparse & -> & ->).
  set (d := document s) in *.
  set (v0 := atFileScope (uri d) SymbolTableOptions.empty []) in *.
  pose proof (framed_parseDocument host (uri d) (getText d) v0 (window s) (console s))
    as Hfirst.
  rewrite Hparse in Hfirst.
  destruct (parseDocument host (uri d) (getText d) (mkWorld v0 [] [])) as [r [v1 sh1 lg1]]
    eqn:Hbare.
  cbn [fst snd visitor shown logged] in Hfirst. injection Hfirst as <- ->.
  exists sh1, lg1. cbn [window console shown logged]. split; [reflexivity|].
  split; [reflexivity|].
  unfold ensureParsed.
  cbn [onDidChangeContent update snd document markForReparsing parser uri getText
       window console visitor shown logged].
  rewrite newSymbolTableVisitor_atFileScope. fold v0.
  rewrite (framed_parseDocument host (uri d) (getText d) v0), Hbare.
  reflexivity.
Qed.

Lemma reparse_rebuilds_and_reports_again_witness :
  exists messages errors,
    window (snd (ensureParsed Sample.host Sample.opened)) = ([] ++ messages)%list
    /\ console (snd (ensureParsed Sample.host Sample.opened)) = ([] ++ errors)%list
    /\ ensureParsed Sample.host
         (snd (onDidChangeContent Sample.mainText (snd (ensureParsed Sample.host Sample.opened))))
       = (Ok (mkParsed (mkParser Sample.mainText) (Some Sample.mainFile)
                (symbolTableVisitor
                   (document (snd (ensureParsed Sample.host Sample.opened))))),
          mkSession (document (snd (ensureParsed Sample.host Sample.opened)))
            (window (snd (ensureParsed Sample.host Sample.opened)) ++ messages)%list
            (console (snd (ensureParsed Sample.host Sample.opened)) ++ errors)%list).
Proof.
  apply (reparse_rebuilds_and_reports_again Sample.host Sample.opened
           (snd (ensureParsed Sample.host Sample.opened))); [reflexivity|].
  vm_compute. reflexivity.
Defined.

(** * The cache, the imports and the range error, end to end *)

(** ** The rebinding of the visitor for an import *)

Lemma processImports_run (host : Host) (imports : list ParseTree) (basePath : string)
      (w : World) :
  ensurePath host (computeBaseUri (documentUri (visitor w))) = Ok basePath ->
  processImports host imports w
  = (forEachImport host (computeBaseUri (documentUri (visitor w))) basePath imports ;;;
     onVisitor (update (setDocumentUri (documentUri (visitor w))))) w.
Proof.
  intros Hpath. unfold processImports. unfold bind at 1. unfold gets at 1.
  unfold bind at 1. unfold lift at 1. rewrite Hpath. reflexivity.
Qed.

Lemma processImports_restores (host : Host) (imports : list ParseTree) (w : World) :
  fst (processImports host imports w) = Ok tt ->
  documentUri (visitor (snd (processImports host imports w))) = documentUri (visitor w).
Proof.
  unfold processImports, bind, gets, lift, onVisitor, update.
  destruct (ensurePath host _) as [basePath|e]; [|discriminate].
  destruct (forEachImport host _ basePath imports w) as [[[]|e] w1]; [|discriminate].
  reflexivity.
Qed.

(** C7. Take an import header of the list [processImports] is given whose
    file exists. The turn of the loop for it is [processImport] run on the
    visitor with [documentUri] rebound to the imported file's URI (the base
    URI followed by the file name), a rebinding that changes neither the
    symbol table nor the current scope; and [processImports] runs that turn
    after the turns of the headers before it, then the remaining turns, then
    sets [documentUri] back. Whatever the turn does, the visitor is bound to
    the imported URI when it is over, and every location then found in its
    table was there before, at the same symbol, or carries the imported URI.
    When the file can be read and the walk over its tree completes, the turn
    has appended exactly the symbols the tree declares to the current scope,
    every one of them, and every symbol below one, with a location that
    carries the imported URI; and the walk does complete when every
    declaration of the tree can be registered and the table admits the
    symbols. When the other headers have their identifiers, [processImports]
    completes with [documentUri] the URI it had on entry; it has that URI
    whenever [processImports] completes. *)
Theorem import_rebinds_documentUri (host : Host)
        (before rest : list ParseTree) (import identifier : ParseTree)
        (basePath : string) (w : World) :
  let uri0 := documentUri (visitor w) in
  let baseUri := computeBaseUri uri0 in
  let filepath := basePath ++ nodeText identifier ++ ".mykt" in
  let imported := baseUri ++ nodeText identifier ++ ".mykt" in
  let rebind := fun w0 : World =>
    mkWorld (setDocumentUri imported (visitor w0)) (shown w0) (logged w0) in
  ensurePath host baseUri = Ok basePath ->
  ruleChild Identifier (childrenOf import) = Some identifier ->
  existsSync host filepath = true ->
  (forall w0,
      processImportHeader host baseUri basePath import w0
      = processImport host filepath (rebind w0)
      /\ documentUri (visitor (rebind w0)) = imported
      /\ symbolTable (visitor (rebind w0)) = symbolTable (visitor w0)
      /\ scope (visitor (rebind w0)) = scope (visitor w0))
  /\ processImports host (before ++ import :: rest) w
     = match forEachImport host baseUri basePath before w with
       | (Ok _, w1) =>
           (processImport host filepath ;;;
            forEachImport host baseUri basePath rest ;;;
            onVisitor (update (setDocumentUri uri0))) (rebind w1)
       | (Throw e, w1) => (Throw e, w1)
       end
  /\ (forall w0,
        let after := snd (processImportHeader host baseUri basePath import w0) in
        documentUri (visitor after) = imported
        /\ locatedBy imported (SymbolTable.self (symbolTable (visitor w0)))
                     (SymbolTable.self (symbolTable (visitor after))))
  /\ (forall w0 data cur s,
        readFileSync host filepath = Ok data ->
        scope (visitor w0) = Some cur ->
        deref (SymbolTable.self (symbolTable (visitor w0))) cur = Some s ->
        let tree := kotlinFile host data in
        let declared := symbolsOf imported tree in
        let registered :=
          mkWorld (modifySymbol cur (appendChildren declared)
                                (setDocumentUri imported (visitor w0)))
                  (shown w0) (logged w0) in
        Forall (locatedIn imported) declared
        /\ (fst (visit tree (setDocumentUri imported (visitor w0))) = Ok tt ->
            processImportHeader host baseUri basePath import w0 = (Ok tt, registered))
        /\ (declarable tree = true ->
            instanceofScopedSymbol (cls s) = true ->
            admits (SymbolTable.options (symbolTable (visitor w0))) (children s) declared ->
            processImportHeader host baseUri basePath import w0 = (Ok tt, registered)))
  /\ (Forall (fun i => is_Some (ruleChild Identifier (childrenOf i))) (before ++ rest) ->
      fst (processImports host (before ++ import :: rest) w) = Ok tt
      /\ documentUri (visitor (snd (processImports host (before ++ import :: rest) w)))
         = uri0)
  /\ (forall imports w0,
        fst (processImports host imports w0) = Ok tt ->
        documentUri (visitor (snd (processImports host imports w0)))
        = documentUri (visitor w0)).
Proof.
  intros uri0 baseUri filepath imported rebind Hpath Hid Hexists.
  assert (Hturn : forall w0,
             processImportHeader host baseUri basePath import w0
             = processImport host filepath (rebind w0)).
  { intros w0. unfold processImportHeader, accessor. rewrite Hid.
    unfold bind at 1. unfold ret at 1. fold filepath. rewrite Hexists. reflexivity. }
  assert (Hcompleted : forall w0 data cur s,
             readFileSync host filepath = Ok data ->
             scope (visitor w0) = Some cur ->
             deref (SymbolTable.self (symbolTable (visitor w0))) cur = Some s ->
             fst (visit (kotlinFile host data) (setDocumentUri imported (visitor w0))) = Ok tt ->
             processImportHeader host baseUri basePath import w0
             = (Ok tt,
                mkWorld (modifySymbol cur
                           (appendChildren (symbolsOf imported (kotlinFile host data)))
                           (setDocumentUri imported (visitor w0)))
                        (shown w0) (logged w0))).
  { intros w0 data cur s Hread Hscope Hs Hok. rewrite Hturn.
    unfold processImport, tryCatch, bind, lift. rewrite Hread.
    unfold onVisitor. cbn [rebind visitor shown logged].
    destruct (visit (kotlinFile host data) (setDocumentUri imported (visitor w0)))
      as [[[]|e] v'] eqn:Hwalk; [|discriminate Hok].
    destruct (visit_builds (kotlinFile host data) cur _ v' s Hwalk Hscope Hs) as [-> _].
    reflexivity. }
  assert (Hall : processImports host (before ++ import :: rest) w
     = match forEachImport host baseUri basePath before w with
       | (Ok _, w1) =>
           (processImport host filepath ;;;
            forEachImport host baseUri basePath rest ;;;
            onVisitor (update (setDocumentUri uri0))) (rebind w1)
       | (Throw e, w1) => (Throw e, w1)
       end).
  { rewrite (processImports_run host _ basePath w Hpath). fold uri0 baseUri.
    unfold bind at 1. rewrite forEachImport_app.
    destruct (forEachImport host baseUri basePath before w) as [[[]|e] w1]; [|reflexivity].
    cbn [forEachImport]. unfold bind. rewrite Hturn.
    destruct (processImport host filepath (rebind w1)) as [[[]|e] w2]; [|reflexivity].
    destruct (forEachImport host baseUri basePath rest w2) as [[[]|e] w3]; reflexivity. }
  split; [|split; [exact Hall | split; [|split; [|split]]]].
  - intros w0. split; [apply Hturn|]. repeat split.
  - intros w0 after. subst after. rewrite Hturn.
    exact (registersIn_processImport host filepath imported (rebind w0) eq_refl).
  - intros w0 data cur s Hread Hscope Hs tree declared registered.
    split; [apply symbolsOf_located|]. split.
    + apply (Hcompleted w0 data cur s Hread Hscope Hs).
    + intros Hdecl Hscoped Hadmits.
      apply (Hcompleted w0 data cur s Hread Hscope Hs).
      exact (f_equal fst (visit_completes_all tree cur (setDocumentUri imported (visitor w0)) s
                            Hdecl Hscope Hs Hscoped Hadmits)).
  - intros Hids.
    assert (Hdone : fst (processImports host (before ++ import :: rest) w) = Ok tt).
    { rewrite (processImports_run host _ basePath w Hpath). fold uri0 baseUri.
      unfold bind.
      pose proof (forEachImport_completes host baseUri basePath (before ++ import :: rest) w)
        as Hloop.
      destruct (forEachImport host baseUri basePath (before ++ import :: rest) w)
        as [[[]|e] w1]; [reflexivity|].
      cbn in Hloop. apply Hloop.
      apply Forall_app in Hids as [Hb Hr]. apply Forall_app. split; [exact Hb|].
      constructor; [rewrite Hid; eauto | exact Hr]. }
    split; [exact Hdone | apply processImports_restores; exact Hdone].
  - intros imports w0. apply processImports_restores.
Qed.

Lemma import_rebinds_documentUri_witness :
  processImportHeader Sample.host "file:///ws/" "/ws/" Sample.importLib Sample.importing
  = (Ok tt,
     mkWorld (atFileScope "file:///ws/lib.mykt" SymbolTableOptions.empty
                [mkSymbol ClsRoutineSymbol "helper" (Some 200%nat)
                   (Some (LocationLink.create "file:///ws/lib.mykt"
                            (Range.mk (Position.mk 0 0) (Position.mk 0 16))
                            (Range.mk (Position.mk 0 4) (Position.mk 0 10)))) []])
             [] [])
  /\ Forall (locatedIn "file:///ws/lib.mykt") (symbolsOf "file:///ws/lib.mykt" Sample.libFile)
  /\ fst (processImports Sample.host [Sample.importMissing; Sample.importLib]
                         Sample.importing) = Ok tt
  /\ documentUri (visitor (snd (processImports Sample.host
                                  [Sample.importMissing; Sample.importLib] Sample.importing)))
     = Sample.mainUri.
Proof.
  destruct (import_rebinds_documentUri Sample.host [Sample.importMissing] []
              Sample.importLib (Sample.ident Identifier 308 (Sample.tok 2 7 "lib"))
              "/ws/" Sample.importing eq_refl eq_refl eq_refl)
    as (_ & _ & _ & Hregistered & Hrestored & _).
  destruct (Hregistered Sample.importing Sample.libText [0%nat]
              (mkSymbol ClsScopedSymbol "" None None []) eq_refl eq_refl eq_refl)
    as (Hlocated & _ & Hturn).
  split; [|split; [exact Hlocated|]].
  - apply Hturn; [reflexivity | reflexivity |].
    right. split.
    + intros i j ci cj Hi Hj _ _. apply lookup_lt_Some in Hi, Hj. cbn in Hi, Hj. lia.
    + constructor; [|constructor]. intros ref s.
      destruct (ref_cases ref) as [-> | (r & j & ->)].
      * cbn. intros [= <-]. intros i j ci cj Hi. inversion Hi.
      * rewrite deref_snoc. cbn. discriminate.
  - apply Hrestored. repeat constructor; eexists; reflexivity.
Defined.

(** ** The parse cache after a content change *)

Lemma parseDocument_declared (host : Host) (uri0 : DocumentUri) (text : string)
      (shown0 : list string) (logged0 : list JsError) :
  let tree := kotlinFile host text in
  importsOf tree = None ->
  declarable tree = true ->
  admits SymbolTableOptions.empty [] (symbolsOf uri0 tree) ->
  parseDocument host uri0 text
    (mkWorld (atFileScope uri0 SymbolTableOptions.empty []) shown0 logged0)
  = (Ok tt, mkWorld (atFileScope uri0 SymbolTableOptions.empty (symbolsOf uri0 tree))
                    shown0 logged0).
Proof.
  intros tree Himports Hdecl Hadmits. unfold parseDocument. cbv zeta. fold tree.
  rewrite Himports. unfold bind at 1. unfold ret at 1. unfold onVisitor.
  cbn [visitor shown logged].
  rewrite (visit_completes_all tree [0%nat] (atFileScope uri0 SymbolTableOptions.empty [])
             (mkSymbol ClsScopedSymbol "" None None []) Hdecl eq_refl eq_refl eq_refl Hadmits).
  reflexivity.
Qed.

(** C6. A content change clears the cached parser, parse tree and visitor
    of the document whatever they were: the session after the change is the
    one of a document that was never parsed, with the new text. The next
    [ensureParsed] does not read what was cached: it runs the parse of the
    new text (the imports of its tree, then the walk over its tree) from a
    new visitor, returns and caches the parser, tree and visitor of that
    parse when it completes, and throws its error, with nothing cached, when
    it throws. The next definition request answers from the visitor of that
    parse, for the cursor located in the new tree and text. In particular,
    when the tree of the new text has no import list, all its declarations
    can be registered and no two of them clash, the parse completes and the
    request answers from a table that holds exactly what the new tree
    declares. *)
Theorem content_change_invalidates_cache (host : Host) (uri0 : DocumentUri)
        (oldText newText : string) (p : option Parser) (t : option ParseTree)
        (stv : option SymbolTableVisitor) (shown0 : list string) (logged0 : list JsError) :
  let before := mkSession (mkTextDocument uri0 oldText p t stv) shown0 logged0 in
  let changed := snd (onDidChangeContent newText before) in
  let fresh := mkSession (mkTextDocument uri0 newText None None None) shown0 logged0 in
  let tree := kotlinFile host newText in
  let parse :=
    parseDocument host uri0 newText
      (mkWorld (atFileScope uri0 SymbolTableOptions.empty []) shown0 logged0) in
  let cached := fun (v : SymbolTableVisitor) (messages : list string) (errors : list JsError) =>
    mkSession (mkTextDocument uri0 newText (Some (mkParser newText)) (Some tree) (Some v))
              messages errors in
  fst (onDidChangeContent newText before) = Ok tt
  /\ parser (document changed) = None
  /\ parseTree (document changed) = None
  /\ symbolTableVisitor (document changed) = None
  /\ changed = fresh
  /\ parse = (importPhase host tree ;;; onVisitor (visit tree))
               (mkWorld (atFileScope uri0 SymbolTableOptions.empty []) shown0 logged0)
  /\ ensureParsed host changed
     = match parse with
       | (Ok _, w) =>
           (Ok (mkParsed (mkParser newText) (Some tree) (Some (visitor w))),
            cached (visitor w) (shown w) (logged w))
       | (Throw e, w) =>
           (Throw e,
            mkSession (mkTextDocument uri0 newText None None None) (shown w) (logged w))
       end
  /\ (forall line character,
        definitionRequest host line character changed
        = match parse with
          | (Ok _, w) =>
              (onDefinition (visitor w)
                            (computeTokenPosition host tree newText (line + 1, character)),
               cached (visitor w) (shown w) (logged w))
          | (Throw e, w) =>
              (Throw e,
               mkSession (mkTextDocument uri0 newText None None None) (shown w) (logged w))
          end)
  /\ (importsOf tree = None ->
      declarable tree = true ->
      admits SymbolTableOptions.empty [] (symbolsOf uri0 tree) ->
      let built := atFileScope uri0 SymbolTableOptions.empty (symbolsOf uri0 tree) in
      ensureParsed host changed
      = (Ok (mkParsed (mkParser newText) (Some tree) (Some built)),
         cached built shown0 logged0)
      /\ forall line character,
           definitionRequest host line character changed
           = (onDefinition built
                           (computeTokenPosition host tree newText (line + 1, character)),
              cached built shown0 logged0)).
Proof.
  intros before changed fresh tree parse cached.
  assert (Hparsed : ensureParsed host changed
     = match parse with
       | (Ok _, w) =>
           (Ok (mkParsed (mkParser newText) (Some tree) (Some (visitor w))),
            cached (visitor w) (shown w) (logged w))
       | (Throw e, w) =>
           (Throw e,
            mkSession (mkTextDocument uri0 newText None None None) (shown w) (logged w))
       end).
  { subst changed before. cbn [onDidChangeContent update snd document].
    unfold ensureParsed. cbn [document markForReparsing parser uri getText window console].
    rewrite newSymbolTableVisitor_atFileScope. fold parse.
    destruct parse as [[[]|e] w]; reflexivity. }
  assert (Hrequest : forall line character,
        definitionRequest host line character changed
        = match parse with
          | (Ok _, w) =>
              (onDefinition (visitor w)
                            (computeTokenPosition host tree newText (line + 1, character)),
               cached (visitor w) (shown w) (logged w))
          | (Throw e, w) =>
              (Throw e,
               mkSession (mkTextDocument uri0 newText None None None) (shown w) (logged w))
          end).
  { intros line character. unfold definitionRequest, bind. rewrite Hparsed.
    destruct parse as [[[]|e] w]; reflexivity. }
  do 6 (split; [reflexivity|]).
  split; [exact Hparsed|]. split; [exact Hrequest|].
  intros Himports Hdecl Hadmits built.
  assert (Hparse : parse = (Ok tt, mkWorld built shown0 logged0))
    by (apply parseDocument_declared; assumption).
  split.
  - rewrite Hparsed, Hparse. reflexivity.
  - intros line character. rewrite Hrequest, Hparse. reflexivity.
Qed.

Lemma content_change_invalidates_cache_witness :
  let stale := snd (ensureParsed Sample.host Sample.opened) in
  let built :=
    atFileScope Sample.mainUri SymbolTableOptions.empty
      [mkSymbol ClsRoutineSymbol "helper" (Some 200%nat)
         (Some (LocationLink.create Sample.mainUri
                  (Range.mk (Position.mk 0 0) (Position.mk 0 16))
                  (Range.mk (Position.mk 0 4) (Position.mk 0 10)))) []] in
  parser (document stale) = Some (mkParser Sample.mainText)
  /\ ensureParsed Sample.host (snd (onDidChangeContent Sample.libText stale))
     = (Ok (mkParsed (mkParser Sample.libText) (Some Sample.libFile) (Some built)),
        mkSession (mkTextDocument Sample.mainUri Sample.libText
                     (Some (mkParser Sample.libText)) (Some Sample.libFile) (Some built))
                  ["Imported file not found: /ws/missing.mykt"] []).
Proof.
  split; [reflexivity|].
  destruct (content_change_invalidates_cache Sample.host Sample.mainUri Sample.mainText
              Sample.libText (Some (mkParser Sample.mainText)) (Some Sample.mainFile)
              (symbolTableVisitor (document (snd (ensureParsed Sample.host Sample.opened))))
              ["Imported file not found: /ws/missing.mykt"] [])
    as (_ & _ & _ & _ & _ & _ & _ & _ & Hdeclared).
  destruct Hdeclared as [Hparsed _]; [reflexivity | reflexivity | | exact Hparsed].
  right. split.
  - intros i j ci cj Hi Hj _ _. apply lookup_lt_Some in Hi, Hj. cbn in Hi, Hj. lia.
  - constructor; [|constructor]. intros ref s.
    destruct (ref_cases ref) as [-> | (r & j & ->)].
    + cbn. intros [= <-]. intros i j ci cj Hi. inversion Hi.
    + rewrite deref_snoc. cbn. discriminate.
Defined.

(** ** A node without a stop token *)

Lemma getRange_stopUndefined (parseTree : ParseTree) :
  stopToken parseTree = None -> getRange parseTree = Throw stopUndefined.
Proof.
  destruct parseTree as [id k st sp ch | id sym]; cbn; [|discriminate].
  intros ->. reflexivity.
Qed.

Lemma visitChildren_throws (l : list ParseTree) (c : ParseTree) :
  c ∈ l ->
  (forall v, exists e, fst (visit c v) = Throw e) ->
  forall v, exists e, fst (visitChildren l v) = Throw e.
Proof.
  intros Hin Hc. induction l as [|c0 l IH]; [inversion Hin|].
  intros v. cbn [visitChildren]. unfold bind.
  apply elem_of_cons in Hin as [<- | Hin].
  - destruct (Hc v) as [e He]. destruct (visit c v) as [[[]|e'] v1]; cbn in He;
      [discriminate He | eauto].
  - destruct (visit c0 v) as [[[]|e'] v1]; [apply (IH Hin) | cbn; eauto].
Qed.

Lemma bind_throws {S A B} (m : M S A) (k : A -> M S B) (s : S) :
  (forall a s1, exists e, fst (k a s1) = Throw e) ->
  exists e, fst (bind m k s) = Throw e.
Proof.
  intros Hk. unfold bind. destruct (m s) as [[a|e] s1]; [apply Hk | cbn; eauto].
Qed.

Lemma visit_declaration_throws (declaration : ParseTree) (v : SymbolTableVisitor) :
  isDeclaration declaration = true -> stopToken declaration = None ->
  exists e, fst (visit declaration v) = Throw e.
Proof.
  destruct declaration as [id kind start stop kids | id sym]; [|discriminate].
  intros Hdecl Hstop. cbn in Hstop. subst stop. rewrite visit_unfold. cbv zeta.
  set (tree := ParserRuleContext id kind start None kids).
  assert (Hregister : forall symbol declarationName v1,
             registerDeclaration symbol tree declarationName v1 = (Throw stopUndefined, v1))
    by (intros; reflexivity).
  destruct kind; try discriminate Hdecl.
  - apply bind_throws. intros declarationName v1.
    apply bind_throws. intros current v2.
    apply bind_throws. intros symbol v3.
    unfold bind. rewrite Hregister. cbn. eauto.
  - apply bind_throws. intros fname v1. rewrite withDeclaration_run.
    destruct (addNew _ _ _ v1) as [[opened|e] v2]; [|cbn; eauto].
    cbv zeta. rewrite Hregister. cbn. eauto.
Qed.

Lemma subtrees_cases (tree node : ParseTree) :
  node ∈ subtrees tree ->
  node = tree \/ exists c, c ∈ childrenOf tree /\ node ∈ subtrees c.
Proof.
  destruct tree as [id kind start stop kids | id sym]; cbn [subtrees childrenOf].
  - intros Hin. apply elem_of_cons in Hin as [-> | Hin]; [left; reflexivity | right].
    induction kids as [|c kids IH]; [inversion Hin|].
    apply elem_of_app in Hin as [Hin | Hin].
    + exists c. split; [left | exact Hin].
    + destruct (IH Hin) as (c' & Hc' & Hn). exists c'. split; [right; exact Hc' | exact Hn].
  - intros Hin. apply elem_of_cons in Hin as [-> | Hin]; [left; reflexivity | inversion Hin].
Qed.

Lemma visit_throws_below (tree : ParseTree) :
  forall declaration,
    declaration ∈ subtrees tree ->
    isDeclaration declaration = true -> stopToken declaration = None ->
    forall v, exists e, fst (visit tree v) = Throw e.
Proof.
  induction tree as [id symbol | id kind start stop kids IH] using ParseTree_nested_ind;
    intros declaration Hin Hdecl Hstop v.
  - apply subtrees_cases in Hin as [-> | (c & Hc & _)]; [discriminate Hdecl | inversion Hc].
  - apply subtrees_cases in Hin as [-> | (c & Hc & Hin)];
      [apply visit_declaration_throws; assumption|].
    cbn [childrenOf] in Hc.
    assert (Hkids : forall v1, exists e, fst (visitChildren kids v1) = Throw e).
    { apply (visitChildren_throws kids c Hc). intros v1.
      apply (proj1 (Forall_forall _ _) IH c Hc declaration Hin Hdecl Hstop). }
    rewrite visit_unfold. cbv zeta.
    destruct kind; try apply Hkids.
    + apply bind_throws. intros declarationName v1.
      apply bind_throws. intros current v2.
      apply bind_throws. intros symbol v3.
      apply bind_throws. intros _ v4. apply Hkids.
    + apply bind_throws. intros fname v1. rewrite withDeclaration_run.
      destruct (addNew _ _ _ v1) as [[opened|e] v2]; [|cbn; eauto].
      cbv zeta.
      destruct (registerDeclaration _ _ _ _) as [[[]|e] v4]; [|cbn; eauto].
      destruct (Hkids v4) as [e He].
      destruct (visitChildren kids v4) as [[[]|e'] v5]; cbn in He |- *;
        [discriminate He | eauto].
Qed.

Lemma parseDocument_throws (host : Host) (uri0 : DocumentUri) (text : string) (w : World) :
  (forall v, exists e, fst (visit (kotlinFile host text) v) = Throw e) ->
  exists e, fst (parseDocument host uri0 text w) = Throw e.
Proof.
  intros Hwalk. unfold parseDocument. cbv zeta. apply bind_throws. intros _ w1.
  unfold onVisitor. destruct (Hwalk (visitor w1)) as [e He].
  destruct (visit _ (visitor w1)) as [r v']. cbn in He |- *. eauto.
Qed.

Lemma definitionRequest_rethrows (host : Host) (line character : Z) (s : Session)
      (e : JsError) :
  fst (ensureParsed host s) = Throw e ->
  definitionRequest host line character s = (Throw e, snd (ensureParsed host s)).
Proof.
  unfold definitionRequest, bind.
  destruct (ensureParsed host s) as [[parsed|e'] s1]; cbn; [discriminate|].
  intros [= ->]. reflexivity.
Qed.

(** C9, as the code has it. For a node without a stop token [getRange]
    returns no range: reading [charPositionInLine] on the undefined stop
    throws a [TypeError]. Nothing in the visitor or in the handlers catches
    it. [registerDeclaration] on the node throws it; so does the definition
    handler's body when the node is under the cursor and a declaration was
    found for it. A variable declaration without a stop token has been added
    to the table when the error is raised, and stays there without a
    location. And when a declaration without a stop token is anywhere in a
    tree, the walk over the tree throws; when the tree is the one of a
    document that is not parsed yet, [ensureParsed] throws, caches nothing,
    and every definition request on the document throws the same error. *)
Theorem getRange_without_stop_throws (parseTree : ParseTree) :
  stopToken parseTree = None ->
  getRange parseTree = Throw stopUndefined
  /\ (forall symbol declarationName v,
        registerDeclaration symbol parseTree declarationName v = (Throw stopUndefined, v))
  /\ (forall v idx ancestors l,
        locationOf (SymbolTable.self (symbolTable v))
                   (findDeclaration (symbolTable v) (nodeText parseTree)
                      (getScope (parseTree :: ancestors) (symbolTable v))) = Some l ->
        onDefinition v (Some (mkTokenPosition idx (parseTree :: ancestors)))
        = Throw stopUndefined)
  /\ (forall id start kids declarationName v cur s,
        parseTree = ParserRuleContext id VariableDeclaration start None kids ->
        ruleChild SimpleIdentifier kids = Some declarationName ->
        scope v = Some cur ->
        deref (SymbolTable.self (symbolTable v)) cur = Some s ->
        instanceofScopedSymbol (cls s) = true ->
        admits (SymbolTable.options (symbolTable v)) (children s)
               [newSymbol ClsVariableSymbol (nodeText declarationName)] ->
        visit parseTree v
        = (Throw stopUndefined,
           modifySymbol cur
             (pushChild (newSymbol ClsVariableSymbol (nodeText declarationName))) v))
  /\ (isDeclaration parseTree = true ->
      forall tree,
        parseTree ∈ subtrees tree ->
        (forall v, exists e, fst (visit tree v) = Throw e)
        /\ forall host s,
             parser (document s) = None ->
             kotlinFile host (getText (document s)) = tree ->
             exists e,
               fst (ensureParsed host s) = Throw e
               /\ document (snd (ensureParsed host s)) = document s
               /\ forall line character,
                    definitionRequest host line character s
                    = (Throw e, snd (ensureParsed host s))).
Proof.
  intros Hstop. pose proof (getRange_stopUndefined parseTree Hstop) as Hrange.
  split; [exact Hrange|]. split; [|split; [|split]].
  - intros symbol declarationName v.
    unfold registerDeclaration, bind, gets, lift. rewrite Hrange. reflexivity.
  - intros v idx ancestors l Hl. rewrite onDefinition_of_location, Hl, Hrange. reflexivity.
  - intros id start kids declarationName v cur s -> Hname Hscope Hs Hscoped Hadmits.
    rewrite visit_unfold. cbv zeta.
    eapply bind_run; [unfold accessor; cbn [childrenOf]; rewrite Hname; reflexivity|].
    eapply bind_run; [reflexivity|]. rewrite Hscope.
    eapply bind_run.
    + exact (addNew_admitted ClsVariableSymbol cur
               (newSymbol ClsVariableSymbol (nodeText declarationName)) [] s v
               Hs Hscoped Hadmits).
    + reflexivity.
  - intros Hdecl tree Hin.
    assert (Hwalk : forall v, exists e, fst (visit tree v) = Throw e)
      by (apply (visit_throws_below tree parseTree); assumption).
    split; [exact Hwalk|]. intros host s Hnone Htree.
    assert (Hparsed : exists e, fst (ensureParsed host s) = Throw e
                                /\ document (snd (ensureParsed host s)) = document s).
    { unfold ensureParsed. rewrite Hnone, newSymbolTableVisitor_atFileScope.
      destruct (parseDocument_throws host (uri (document s)) (getText (document s))
                  (mkWorld (atFileScope (uri (document s)) SymbolTableOptions.empty [])
                           (window s) (console s))) as [e He];
        [rewrite Htree; exact Hwalk|].
      destruct (parseDocument host _ _ _) as [[[]|e'] w]; cbn in He; [discriminate He|].
      exists e'. split; reflexivity. }
    destruct Hparsed as (e & He & Hd). exists e. split; [exact He|]. split; [exact Hd|].
    intros line character. apply definitionRequest_rethrows. exact He.
Qed.

Lemma getRange_without_stop_throws_witness :
  getRange Examples.unfinishedX = Throw stopUndefined
  /\ visit Examples.unfinishedX (atFileScope Sample.mainUri SymbolTableOptions.empty [])
     = (Throw stopUndefined,
        atFileScope Sample.mainUri SymbolTableOptions.empty
          [mkSymbol ClsVariableSymbol "x" None None []])
  /\ exists e,
       fst (ensureParsed Examples.drafting Examples.draft) = Throw e
       /\ document (snd (ensureParsed Examples.drafting Examples.draft))
          = document Examples.draft
       /\ forall line character,
            definitionRequest Examples.drafting line character Examples.draft
            = (Throw e, snd (ensureParsed Examples.drafting Examples.draft)).
Proof.
  destruct (getRange_without_stop_throws Examples.unfinishedX eq_refl)
    as (Hrange & _ & _ & Hadded & Hbelow).
  split; [exact Hrange|]. split.
  - apply (Hadded 402%nat (Sample.tok 1 4 "x")
             [Sample.ident SimpleIdentifier 403 (Sample.tok 1 4 "x")]
             (Sample.ident SimpleIdentifier 403 (Sample.tok 1 4 "x"))
             (atFileScope Sample.mainUri SymbolTableOptions.empty []) [0%nat]
             (mkSymbol ClsScopedSymbol "" None None []));
      try reflexivity.
    right. split.
    + intros i j ci cj Hi Hj _ _. apply lookup_lt_Some in Hi, Hj. cbn in Hi, Hj. lia.
    + constructor; [|constructor]. intros ref s.
      destruct (ref_cases ref) as [-> | (r & j & ->)].
      * cbn. intros [= <-]. intros i j ci cj Hi. inversion Hi.
      * rewrite deref_snoc. cbn. discriminate.
  - destruct (Hbelow eq_refl Examples.unfinished) as [_ Hparse].
    + apply list_elem_of_lookup. exists 3%nat. reflexivity.
    + apply (Hparse Examples.drafting Examples.draft); reflexivity.
Defined.

(** C9, as stated, fails: the error is not local to the range computation.
    In a document that declares [x] without a stop token and then a routine
    [f], the walk stops at [x]: [x] is in the table without a location and [f]
    was never declared; [ensureParsed] throws the error of the range
    computation and caches nothing, and the definition request throws it. *)
Lemma missing_stop_aborts_the_parse :
  getRange Examples.unfinishedX = Throw stopUndefined
  /\ visit Examples.unfinished (atFileScope Sample.mainUri SymbolTableOptions.empty [])
     = (Throw stopUndefined,
        atFileScope Sample.mainUri SymbolTableOptions.empty
          [mkSymbol ClsVariableSymbol "x" None None []])
  /\ symbolsOf Sample.mainUri (Sample.function 410 2 "f" [] (Sample.tok 2 10 "}")) <> []
  /\ ensureParsed Examples.drafting Examples.draft = (Throw stopUndefined, Examples.draft)
  /\ forall line character,
       definitionRequest Examples.drafting line character Examples.draft
       = (Throw stopUndefined, Examples.draft).
Proof.
  split; [reflexivity|]. split; [reflexivity|]. split; [discriminate|].
  split; [reflexivity|]. intros line character. reflexivity.
Qed.
